(** * VillageRide: the map script (static/js/map.js)

    A shallow embedding of the browser-side map code: the layer renderer
    that paints rides and requests, the from/to capture mode with its two
    placement markers, the reverse-geocoding promise chain and the writes
    into the offer and request forms.

    Numbers.  A JavaScript number that is finite is a rational, and the
    only operations the script applies to coordinates are comparison
    (inside the bounds object) and [toFixed]; both are exact functions of
    the number's value, so coordinates are modelled in [Q].  A feed that
    holds NaN in a coordinate is rendered by [raw_render], which agrees
    with [render] on every feed without NaN.

    Effects.  Every handler is a function from the current state to the
    next one; the calls made to the map library, to the network and to
    the form fields are appended to a chronological trace. *)

From Stdlib Require Import QArith Qminmax Qabs ZArith Lia.
From Stdlib Require Import DecimalString DecimalN DecimalPos DecimalFacts.
From stdpp Require Import base option list strings gmap.

Open Scope string_scope.

(** ** Numbers *)

Module Number.

(** ToBoolean on a finite number: only zero is falsy. *)
Definition truthy (x : Q) : bool := negb (Qeq_bool x 0).

Definition digits (n : Z) : string :=
  NilZero.string_of_uint (N.to_uint (Z.to_N n)).

Fixpoint zeros (k : nat) : string :=
  match k with
  | O => ""
  | S k' => "0" +:+ zeros k'
  end.

(** The integer [n] for which [n / 10^f - x] is closest to zero, the
    larger one on a tie ([x] is not negative here). *)
Definition nearest (f : nat) (x : Q) : Z :=
  ((2 * Qnum x * 10 ^ Z.of_nat f + Z.pos (Qden x)) / (2 * Z.pos (Qden x)))%Z.

Definition point (f : nat) (m : string) : string :=
  match f with
  | O => m
  | S _ =>
      let m' := if Nat.leb (String.length m) f
                then zeros (S f - String.length m) +:+ m else m in
      let k := String.length m' in
      String.substring 0 (k - f) m' +:+ "." +:+ String.substring (k - f) f m'
  end.

Section ToFixed.
(** Number::toString is only reached by [toFixed] for magnitudes of
    at least 10^21, where it prints in exponent notation. *)
Variable Number_toString : Q -> string.

(** Number.prototype.toFixed(f) on a finite number. *)
Definition toFixed (f : nat) (x : Q) : string :=
  let s := if Qle_bool 0 x then "" else "-" in
  let x' := if Qle_bool 0 x then x else Qopp x in
  if Qle_bool (inject_Z (10 ^ 21)) x'
  then s +:+ Number_toString x'
  else s +:+ point f (digits (nearest f x')).
End ToFixed.

End Number.

(** ** The part of the Leaflet API the script calls

    Leaflet is a library the page loads next to the script.  Its objects
    are modelled by what the script can observe of them: a point, and a
    bounds object that has no corners until it is first extended and
    afterwards grows by componentwise minimum and maximum. *)

Module Leaflet.

Record LatLng := latLng { lat : Q; lng : Q }.

Definition LatLngBounds := option (LatLng * LatLng).

(** L.latLngBounds([]) *)
Definition latLngBounds_empty : LatLngBounds := None.

Definition extend (b : LatLngBounds) (p : LatLng) : LatLngBounds :=
  match b with
  | None => Some (p, p)
  | Some (sw, ne) =>
      Some (latLng (Qmin (lat p) (lat sw)) (Qmin (lng p) (lng sw)),
            latLng (Qmax (lat p) (lat ne)) (Qmax (lng p) (lng ne)))
  end.

Definition isValid (b : LatLngBounds) : bool :=
  match b with Some _ => true | None => false end.

Definition contains (b : LatLngBounds) (p : LatLng) : bool :=
  match b with
  | None => false
  | Some (sw, ne) =>
      Qle_bool (lat sw) (lat p) && Qle_bool (lat p) (lat ne)
      && Qle_bool (lng sw) (lng p) && Qle_bool (lng p) (lng ne)
  end.

(** What the map shows: the last of setView / fitBounds. *)
Inductive viewport :=
| SetView (center : LatLng) (zoom : Z)
| FitBounds (b : LatLngBounds) (padding : Z * Z).

End Leaflet.
Import Leaflet.

(** ** Records of the data feed *)

(** A coordinate field of a record: absent, null or a number. *)
Inductive coord := Undefined | Null | Num (q : Q).

(** [c == null] *)
Definition loose_eq_null (c : coord) : bool :=
  match c with
  | Undefined | Null => true
  | Num _ => false
  end.

(** ToBoolean on a coordinate field, for comparison with the guard. *)
Definition coord_truthy (c : coord) : bool :=
  match c with
  | Undefined | Null => false
  | Num q => Number.truthy q
  end.

(** L.latLng(a, b) on two coordinate fields that passed the null guard. *)
Definition L_latLng (a b : coord) : option LatLng :=
  match a, b with
  | Num x, Num y => Some (latLng x y)
  | _, _ => None
  end.

(** A text field: [None] when the property is undefined or null.
    [t || d] also takes the default for the empty string. *)
Definition or_default (t : option string) (d : string) : string :=
  match t with
  | Some s => if decide (s = "") then d else s
  | None => d
  end.

(** [t ? html : empty]: the element is there only for a truthy text. *)
Definition when_truthy (t : option string) : option string :=
  match t with
  | Some s => if decide (s = "") then None else Some s
  | None => None
  end.

Module Ride.
Record t := mk {
  driver : option string;
  from_location : option string;
  to_location : option string;
  from_lat : coord;
  from_lng : coord;
  to_lat : coord;
  to_lng : coord;
  date : option string;
  time : option string;
  ride_type : option string;
  ride_type_label : option string;
  phone : option string
}.
End Ride.

Module Request.
Record t := mk {
  passenger : option string;
  from_location : option string;
  to_location : option string;
  from_lat : coord;
  from_lng : coord;
  date : option string;
  time : option string;
  time_flex_label : option string;
  people_count : option N;
  note : option string;
  phone : option string
}.
End Request.

(** ** Layer renderer *)

(** The values interpolated into a popup template, in template order. *)
Record RidePopup := {
  rp_driver : string;
  rp_from : string;
  rp_to : string;
  rp_date : string;
  rp_time : string;
  rp_type : string;
  rp_tel : option string
}.

Record RequestPopup := {
  qp_passenger : string;
  qp_from : string;
  qp_to : string;
  qp_date : string;
  qp_time : string;
  qp_flex : string;
  qp_people : option N;
  qp_note : option string;
  qp_tel : option string
}.

(** What the [color] option of a line can hold: a colour string, or the
    member of Object.prototype that the table lookup came to. *)
Inductive color := Css (c : string) | Inherited (member : string).

Record Polyline := {
  pl_from : LatLng;
  pl_to : LatLng;
  pl_color : color;
  pl_weight : Z;
  pl_popup : RidePopup
}.

Record CircleMarker := {
  cm_at : LatLng;
  cm_radius : Z;
  cm_color : string;
  cm_popup : RequestPopup
}.

Definition rideTypeColors : list (string * string) :=
  [("work", "#2563eb"); ("school", "#16a34a");
   ("healthcare", "#dc2626"); ("other", "#6b7280")].

Fixpoint color_lookup (tbl : list (string * string)) (k : string) : option string :=
  match tbl with
  | [] => None
  | (k', v) :: tbl' => if decide (k = k') then Some v else color_lookup tbl' k
  end.

(** The members that an object literal inherits from Object.prototype.
    Each is a function or an object, hence truthy. *)
Definition Object_prototype : list string :=
  ["constructor"; "hasOwnProperty"; "isPrototypeOf"; "propertyIsEnumerable";
   "toLocaleString"; "toString"; "valueOf"; "__proto__";
   "__defineGetter__"; "__defineSetter__"; "__lookupGetter__";
   "__lookupSetter__"].

(** [rideTypeColors[r.ride_type] || "#6b7280"]: a type that is not a key
    of the table is looked up on the prototype; an undefined or null
    type reads the key undefined or null, which neither has. *)
Definition ride_color (ty : option string) : color :=
  match ty with
  | Some k =>
      match color_lookup rideTypeColors k with
      | Some c => Css c
      | None => if bool_decide (k ∈ Object_prototype) then Inherited k
                else Css "#6b7280"
      end
  | None => Css "#6b7280"
  end.

Definition ride_popup (r : Ride.t) : RidePopup :=
  {| rp_driver := or_default (Ride.driver r) "Шофьор";
     rp_from := or_default (Ride.from_location r) "От";
     rp_to := or_default (Ride.to_location r) "До";
     rp_date := or_default (Ride.date r) "";
     rp_time := or_default (Ride.time r) "";
     rp_type := or_default (Ride.ride_type_label r) "";
     rp_tel := when_truthy (Ride.phone r) |}.

Definition request_popup (q : Request.t) : RequestPopup :=
  {| qp_passenger := or_default (Request.passenger q) "Пътник";
     qp_from := or_default (Request.from_location q) "От";
     qp_to := or_default (Request.to_location q) "До";
     qp_date := or_default (Request.date q) "";
     qp_time := or_default (Request.time q) "";
     qp_flex := or_default (Request.time_flex_label q) "";
     qp_people := match Request.people_count q with
                  | Some 0%N | None => None
                  | Some n => Some n
                  end;
     qp_note := when_truthy (Request.note q);
     qp_tel := when_truthy (Request.phone q) |}.

(** What the two forEach loops build up. *)
Record layers := {
  ridesLayer : list Polyline;
  requestsLayer : list CircleMarker;
  bounds : LatLngBounds
}.

(** Body of [rides.forEach]. *)
Definition ride_body (acc : layers) (r : Ride.t) : layers :=
  if loose_eq_null (Ride.from_lat r) || loose_eq_null (Ride.from_lng r)
     || loose_eq_null (Ride.to_lat r) || loose_eq_null (Ride.to_lng r)
  then acc
  else
    match L_latLng (Ride.from_lat r) (Ride.from_lng r),
          L_latLng (Ride.to_lat r) (Ride.to_lng r) with
    | Some from, Some to =>
        let line := {| pl_from := from; pl_to := to;
                       pl_color := ride_color (Ride.ride_type r);
                       pl_weight := 4;
                       pl_popup := ride_popup r |} in
        {| ridesLayer := ridesLayer acc ++ [line];
           requestsLayer := requestsLayer acc;
           bounds := extend (extend (bounds acc) from) to |}
    | _, _ => acc
    end.

(** Body of [requests.forEach]. *)
Definition request_body (acc : layers) (q : Request.t) : layers :=
  if loose_eq_null (Request.from_lat q) || loose_eq_null (Request.from_lng q)
  then acc
  else
    match L_latLng (Request.from_lat q) (Request.from_lng q) with
    | Some from =>
        let marker := {| cm_at := from; cm_radius := 7;
                         cm_color := "#ca8a04";
                         cm_popup := request_popup q |} in
        {| ridesLayer := ridesLayer acc;
           requestsLayer := requestsLayer acc ++ [marker];
           bounds := extend (bounds acc) from |}
    | None => acc
    end.

Definition no_layers : layers :=
  {| ridesLayer := []; requestsLayer := []; bounds := latLngBounds_empty |}.

Definition render (rides : list Ride.t) (requests : list Request.t) : layers :=
  foldl request_body (foldl ride_body no_layers rides) requests.

(** [[42.78, 23.78]], each literal as the binary64 number it denotes. *)
Definition DEFAULT_CENTER : LatLng :=
  latLng (1505187437960233 # 35184372088832) (836684368272425 # 35184372088832).
Definition DEFAULT_ZOOM : Z := 12.

(** [if (bounds.isValid()) map.fitBounds(bounds, { padding: [24, 24] })],
    applied to the view that [setView] left. *)
Definition fit_view (b : LatLngBounds) (v : viewport) : viewport :=
  if isValid b then FitBounds b (24, 24)%Z else v.

(** ** Coordinates that are NaN

    A coordinate field can also hold NaN.  NaN is a number, so it passes
    the null guard; the LatLng constructor that [L.latLng] calls throws
    on it (Invalid LatLng object).  The exception leaves the forEach
    loop and the rest of the listener: what was added to the map before
    stays, and nothing is added after. *)

Inductive raw := Finite (c : coord) | NaN.

(** [c == null] *)
Definition raw_eq_null (c : raw) : bool :=
  match c with
  | Finite c => loose_eq_null c
  | NaN => false
  end.

(** ToBoolean: NaN is falsy. *)
Definition raw_truthy (c : raw) : bool :=
  match c with
  | Finite c => coord_truthy c
  | NaN => false
  end.

Definition raw_finite (c : raw) : option coord :=
  match c with
  | Finite c => Some c
  | NaN => None
  end.

Module RawRide.
Record t := mk {
  driver : option string;
  from_location : option string;
  to_location : option string;
  from_lat : raw;
  from_lng : raw;
  to_lat : raw;
  to_lng : raw;
  date : option string;
  time : option string;
  ride_type : option string;
  ride_type_label : option string;
  phone : option string
}.

(** The record when none of its coordinates is NaN. *)
Definition finite (r : t) : option Ride.t :=
  a ← raw_finite (from_lat r); b ← raw_finite (from_lng r);
  c ← raw_finite (to_lat r); d ← raw_finite (to_lng r);
  Some (Ride.mk (driver r) (from_location r) (to_location r) a b c d
          (date r) (time r) (ride_type r) (ride_type_label r) (phone r)).

Definition of_ride (r : Ride.t) : t :=
  mk (Ride.driver r) (Ride.from_location r) (Ride.to_location r)
    (Finite (Ride.from_lat r)) (Finite (Ride.from_lng r))
    (Finite (Ride.to_lat r)) (Finite (Ride.to_lng r))
    (Ride.date r) (Ride.time r) (Ride.ride_type r) (Ride.ride_type_label r)
    (Ride.phone r).
End RawRide.

Module RawRequest.
Record t := mk {
  passenger : option string;
  from_location : option string;
  to_location : option string;
  from_lat : raw;
  from_lng : raw;
  date : option string;
  time : option string;
  time_flex_label : option string;
  people_count : option N;
  note : option string;
  phone : option string
}.

Definition finite (q : t) : option Request.t :=
  a ← raw_finite (from_lat q); b ← raw_finite (from_lng q);
  Some (Request.mk (passenger q) (from_location q) (to_location q) a b
          (date q) (time q) (time_flex_label q) (people_count q) (note q)
          (phone q)).

Definition of_request (q : Request.t) : t :=
  mk (Request.passenger q) (Request.from_location q) (Request.to_location q)
    (Finite (Request.from_lat q)) (Finite (Request.from_lng q))
    (Request.date q) (Request.time q) (Request.time_flex_label q)
    (Request.people_count q) (Request.note q) (Request.phone q).
End RawRequest.

(** How a loop ends: it runs through, or an exception leaves it. *)
Inductive ending := Completed | Thrown.

(** Body of [rides.forEach]: the guard, then the two [L.latLng] calls,
    which throw on NaN before the line is made, then the rest as in
    [ride_body]. *)
Definition raw_ride_body (acc : layers) (r : RawRide.t) : ending * layers :=
  if raw_eq_null (RawRide.from_lat r) || raw_eq_null (RawRide.from_lng r)
     || raw_eq_null (RawRide.to_lat r) || raw_eq_null (RawRide.to_lng r)
  then (Completed, acc)
  else
    match RawRide.finite r with
    | Some r' => (Completed, ride_body acc r')
    | None => (Thrown, acc)
    end.

(** Body of [requests.forEach], likewise. *)
Definition raw_request_body (acc : layers) (q : RawRequest.t) : ending * layers :=
  if raw_eq_null (RawRequest.from_lat q) || raw_eq_null (RawRequest.from_lng q)
  then (Completed, acc)
  else
    match RawRequest.finite q with
    | Some q' => (Completed, request_body acc q')
    | None => (Thrown, acc)
    end.

(** [xs.forEach(body)]: an exception in the body ends the loop. *)
Fixpoint forEach {A} (body : layers -> A -> ending * layers) (xs : list A)
    (acc : layers) : ending * layers :=
  match xs with
  | [] => (Completed, acc)
  | x :: xs' =>
      match body acc x with
      | (Completed, acc') => forEach body xs' acc'
      | (Thrown, acc') => (Thrown, acc')
      end
  end.

(** The two loops in turn; the second only runs when the first ran
    through. *)
Definition raw_render (rides : list RawRide.t) (requests : list RawRequest.t)
  : ending * layers :=
  match forEach raw_ride_body rides no_layers with
  | (Completed, ls) => forEach raw_request_body requests ls
  | (Thrown, ls) => (Thrown, ls)
  end.

(** ** Values of the geocoding reply *)

#[local] Unset Elimination Schemes.
Inductive json :=
| JNull
| JBool (b : bool)
| JNum (q : Q)
| JStr (s : string)
| JArr (items : list json)
| JObj (props : list (string * json)).
#[local] Set Elimination Schemes.

(** A JavaScript value here is a JSON value or [undefined] ([None]). *)
Definition value := option json.

Definition ToBoolean (v : value) : bool :=
  match v with
  | None | Some JNull => false
  | Some (JBool b) => b
  | Some (JNum q) => Number.truthy q
  | Some (JStr s) => if decide (s = "") then false else true
  | Some (JArr _) | Some (JObj _) => true
  end.

Inductive error :=
| HttpError (status : Z)      (* new Error(`Nominatim HTTP ${res.status}`) *)
| NetworkFailure              (* fetch rejected *)
| SyntaxError                 (* res.json() rejected *)
| TypeError.                  (* property read on null or undefined *)

Inductive result (A : Type) :=
| Return (a : A)
| Throw (e : error).
Arguments Return {A} a.
Arguments Throw {A} e.

#[global] Instance result_bind : MBind result := λ A B k r,
  match r with
  | Return a => k a
  | Throw e => Throw e
  end.

Fixpoint own_property (props : list (string * json)) (k : string) : value :=
  match props with
  | [] => None
  | (k', v) :: props' => if decide (k = k') then Some v else own_property props' k
  end.

(** [v.k] for the property names the script reads, none of which is
    found on a prototype. *)
Definition get (v : value) (k : string) : result value :=
  match v with
  | None | Some JNull => Throw TypeError
  | Some (JObj props) => Return (own_property props k)
  | Some _ => Return None
  end.

(** [a || b] and [a && b]; the right operand is only evaluated when the
    left one does not decide. *)
Definition or_ (a b : result value) : result value :=
  x ← a; if ToBoolean x then Return x else b.

Definition and_ (a b : result value) : result value :=
  x ← a; if ToBoolean x then b else Return x.

(** ** Promises

    A then/catch chain is run once the outcome of its first promise is
    known.  A handler gets the state of the page and gives back how its
    promise settles together with the state it leaves. *)

Definition settled (S A : Type) : Type := result A * S.

Definition then_ {S A B} (p : settled S A) (f : A -> S -> settled S B)
  : settled S B :=
  match p with
  | (Return a, s) => f a s
  | (Throw e, s) => (Throw e, s)
  end.

Definition catch_ {S A} (p : settled S A) (g : error -> S -> settled S A)
  : settled S A :=
  match p with
  | (Return a, s) => (Return a, s)
  | (Throw e, s) => g e s
  end.

(** The reply to the request: its status line, and the body as
    [res.json()] parses it ([None] when the body is not JSON). *)
Record Response := { status : Z; body : option json }.

(** [res.ok]: the status is in the range 200-299. *)
Definition ok (res : Response) : bool :=
  (200 <=? status res)%Z && (status res <=? 299)%Z.

(** [res.json()] *)
Definition res_json (res : Response) : result json :=
  match body res with
  | Some data => Return data
  | None => Throw SyntaxError
  end.

(** What [fetch(url)] can come to. *)
Inductive fetch_outcome :=
| NetworkError
| Responds (res : Response).

Definition fetch {S} (o : fetch_outcome) (s : S) : settled S Response :=
  match o with
  | NetworkError => (Throw NetworkFailure, s)
  | Responds res => (Return res, s)
  end.

(** [if (typeof callback === "function") callback(label)]: the callback
    returns or throws, and either way leaves a state. *)
Definition call {S} (callback : option (value -> S -> settled S unit))
    (label : value) (s : S) : settled S unit :=
  match callback with
  | Some f => f label s
  | None => (Return (), s)
  end.

(** A callback that always runs to its end. *)
Definition returns {S} (f : value -> S -> S) : value -> S -> settled S unit :=
  λ label s, (Return (), f label s).

(** ** Capture mode, markers and form fields *)

Inductive mode := From | To.

#[global] Instance mode_eq_dec : EqDecision mode.
Proof. solve_decision. Defined.

(** Who assigned a field: the click handler of the n-th map click, or
    the geocoding callback of that click. *)
Inductive writer := Coordinates (click : nat) | Label (click : nat).

(** Calls that leave the script, in the order they are made. *)
Inductive effect :=
| AddTo (m : mode)                         (* marker.addTo(map) *)
| SetLatLng (m : mode) (p : LatLng)        (* marker.setLatLng(ev.latlng) *)
| Remove (m : mode)                        (* marker.remove(), never called *)
| Fetch (click : nat) (p : LatLng)         (* fetch(url) *)
| Assign (w : writer) (field : string) (v : value).   (* field.value = v *)

Record state := mkState {
  currentMode : mode;
  (* the two mode controls: absent, or whether they carry pill-active *)
  fromBtn : option bool;
  toBtn : option bool;
  (* position of the two placement markers *)
  fromMarker : LatLng;
  toMarker : LatLng;
  fromMarkerAdded : bool;
  toMarkerAdded : bool;
  (* the form fields found in the page, with the value last assigned *)
  fields : gmap string value;
  (* lookups in flight, by the number of the click that started them *)
  pending : gmap nat LatLng;
  clicks : nat;
  view : viewport;
  overlays : layers;
  trace : list effect
}.

Definition set_mode (m : mode) (st : state) : state :=
  mkState m (fromBtn st) (toBtn st) (fromMarker st) (toMarker st)
    (fromMarkerAdded st) (toMarkerAdded st) (fields st) (pending st)
    (clicks st) (view st) (overlays st) (trace st).

Definition set_buttons (f t : option bool) (st : state) : state :=
  mkState (currentMode st) f t (fromMarker st) (toMarker st)
    (fromMarkerAdded st) (toMarkerAdded st) (fields st) (pending st)
    (clicks st) (view st) (overlays st) (trace st).

Definition set_fromMarker (p : LatLng) (added : bool) (st : state) : state :=
  mkState (currentMode st) (fromBtn st) (toBtn st) p (toMarker st)
    added (toMarkerAdded st) (fields st) (pending st)
    (clicks st) (view st) (overlays st) (trace st).

Definition set_toMarker (p : LatLng) (added : bool) (st : state) : state :=
  mkState (currentMode st) (fromBtn st) (toBtn st) (fromMarker st) p
    (fromMarkerAdded st) added (fields st) (pending st)
    (clicks st) (view st) (overlays st) (trace st).

Definition set_fields (fs : gmap string value) (st : state) : state :=
  mkState (currentMode st) (fromBtn st) (toBtn st) (fromMarker st) (toMarker st)
    (fromMarkerAdded st) (toMarkerAdded st) fs (pending st)
    (clicks st) (view st) (overlays st) (trace st).

Definition set_pending (ps : gmap nat LatLng) (n : nat) (st : state) : state :=
  mkState (currentMode st) (fromBtn st) (toBtn st) (fromMarker st) (toMarker st)
    (fromMarkerAdded st) (toMarkerAdded st) (fields st) ps
    n (view st) (overlays st) (trace st).

Definition emit (es : list effect) (st : state) : state :=
  mkState (currentMode st) (fromBtn st) (toBtn st) (fromMarker st) (toMarker st)
    (fromMarkerAdded st) (toMarkerAdded st) (fields st) (pending st)
    (clicks st) (view st) (overlays st) (trace st ++ es).

(** [updateModeUi]: each control that exists carries pill-active exactly
    when its mode is the current one. *)
Definition updateModeUi (st : state) : state :=
  set_buttons
    ((λ _, bool_decide (From = currentMode st)) <$> fromBtn st)
    ((λ _, bool_decide (To = currentMode st)) <$> toBtn st)
    st.

(** [if (field) field.value = value] *)
Definition setFieldValue (w : writer) (field : string) (v : value) (st : state)
  : state :=
  match fields st !! field with
  | Some _ => emit [Assign w field v] (set_fields (<[field := v]> (fields st)) st)
  | None => st
  end.

Definition number (q : Q) : value := Some (JNum q).

Definition setLatLngInputs (w : writer) (lat lng : Q) (which : mode) (st : state)
  : state :=
  match which with
  | From =>
      setFieldValue w "request_from_lng" (number lng)
        (setFieldValue w "request_from_lat" (number lat)
          (setFieldValue w "offer_from_lng" (number lng)
            (setFieldValue w "offer_from_lat" (number lat) st)))
  | To =>
      setFieldValue w "request_to_lng" (number lng)
        (setFieldValue w "request_to_lat" (number lat)
          (setFieldValue w "offer_to_lng" (number lng)
            (setFieldValue w "offer_to_lat" (number lat) st)))
  end.

(** The callback handed to [reverseGeocode]: it reads [currentMode] when
    it runs.  It only assigns to fields that exist, so it never throws. *)
Definition label_callback (click : nat) (label : value) (st : state) : state :=
  match currentMode st with
  | From =>
      setFieldValue (Label click) "request-from" label
        (setFieldValue (Label click) "offer-from" label st)
  | To =>
      setFieldValue (Label click) "request-to" label
        (setFieldValue (Label click) "offer-to" label st)
  end.

(** What can happen after startup: a mode control is clicked, the map is
    clicked, or the request started by some click comes to an end. *)
Inductive event :=
| ModeClick (m : mode)
| MapClick (latlng : LatLng)
| Settled (click : nat) (o : fetch_outcome).

Section Script.

Variable Number_toString : Q -> string.

(** [`${lat.toFixed(5)}, ${lng.toFixed(5)}`] *)
Definition numeric_label (lat lng : Q) : value :=
  Some (JStr (Number.toFixed Number_toString 5 lat +:+ ", "
              +:+ Number.toFixed Number_toString 5 lng)).

(** The expression that computes [label] in the second [then]. *)
Definition label_of (data : json) (lat lng : Q) : result value :=
  or_ (or_ (and_ (get (Some data) "address")
                 (address ← get (Some data) "address";
                  or_ (or_ (get address "village") (get address "town"))
                      (get address "city")))
           (get (Some data) "display_name"))
      (Return (numeric_label lat lng)).

(** [reverseGeocode(lat, lng, callback)] from the moment the request
    comes to an end.  The handlers before the callback only compute, so
    running the chain in one piece loses no interleaving.  The [catch]
    follows the [then] that calls the callback, so it also takes what
    the callback throws there. *)
Definition reverseGeocode {S} (lat lng : Q)
    (callback : option (value -> S -> settled S unit)) (o : fetch_outcome)
    (s : S) : settled S unit :=
  catch_
    (then_
       (then_ (fetch o s)
          (λ res s,
             if negb (ok res) then (Throw (HttpError (status res)), s)
             else (res_json res, s)))
       (λ data s,
          match label_of data lat lng with
          | Return label => call callback label s
          | Throw e => (Throw e, s)
          end))
    (λ err s, call callback (numeric_label lat lng) s).

(** [map.on("click", ...)] *)
Definition on_map_click (latlng : LatLng) (st : state) : state :=
  let n := clicks st in
  let st1 :=
    match currentMode st with
    | From =>
        let st' := if fromMarkerAdded st then st
                   else emit [AddTo From] (set_fromMarker (fromMarker st) true st) in
        emit [SetLatLng From latlng] (set_fromMarker latlng (fromMarkerAdded st') st')
    | To =>
        let st' := if toMarkerAdded st then st
                   else emit [AddTo To] (set_toMarker (toMarker st) true st) in
        emit [SetLatLng To latlng] (set_toMarker latlng (toMarkerAdded st') st')
    end in
  let st2 := setLatLngInputs (Coordinates n) (lat latlng) (lng latlng)
               (currentMode st1) st1 in
  emit [Fetch n latlng] (set_pending (<[n := latlng]> (pending st2)) (S n) st2).

Definition on_mode_click (m : mode) (st : state) : state :=
  match m with
  | From => match fromBtn st with
            | Some _ => updateModeUi (set_mode From st)
            | None => st
            end
  | To => match toBtn st with
          | Some _ => updateModeUi (set_mode To st)
          | None => st
          end
  end.

Definition on_settled (click : nat) (o : fetch_outcome) (st : state) : state :=
  match pending st !! click with
  | Some p =>
      snd (reverseGeocode (lat p) (lng p) (Some (returns (label_callback click)))
             o (set_pending (delete click (pending st)) (clicks st) st))
  | None => st
  end.

Definition step (st : state) (ev : event) : state :=
  match ev with
  | ModeClick m => on_mode_click m st
  | MapClick latlng => on_map_click latlng st
  | Settled click o => on_settled click o st
  end.

Definition run (st : state) (evs : list event) : state := foldl step st evs.

End Script.

(** ** Startup *)

Record page := {
  has_map_element : bool;                   (* document.getElementById("map") *)
  has_Leaflet : bool;                       (* window.L *)
  ridesData : option (list Ride.t);         (* [None]: not an array *)
  requestsData : option (list Request.t);
  page_fromBtn : option bool;
  page_toBtn : option bool;
  page_fields : gmap string value
}.

(** The listener body once the container and the library are there. *)
Definition startup (pg : page) : state :=
  let rides := default [] (ridesData pg) in
  let requests := default [] (requestsData pg) in
  let ls := render rides requests in
  updateModeUi
    {| currentMode := From;
       fromBtn := page_fromBtn pg;
       toBtn := page_toBtn pg;
       fromMarker := DEFAULT_CENTER;
       toMarker := DEFAULT_CENTER;
       fromMarkerAdded := false;
       toMarkerAdded := false;
       fields := page_fields pg;
       pending := ∅;
       clicks := 0;
       view := fit_view (bounds ls) (SetView DEFAULT_CENTER DEFAULT_ZOOM);
       overlays := ls;
       trace := [] |}.

Definition DOMContentLoaded (pg : page) : option state :=
  if negb (has_map_element pg) || negb (has_Leaflet pg) then None
  else Some (startup pg).

Close Scope string_scope.

(** ** Vocabulary of the specification *)

(** A coordinate field is present when it is neither undefined nor null. *)
Definition present (c : coord) : Prop := c ≠ Undefined ∧ c ≠ Null.

#[global] Instance present_dec c : Decision (present c).
Proof.
  destruct c; [right; intros [H _]; congruence
              |right; intros [_ H]; congruence
              |left; split; discriminate].
Defined.

Definition fully_coordinated (r : Ride.t) : Prop :=
  present (Ride.from_lat r) ∧ present (Ride.from_lng r)
  ∧ present (Ride.to_lat r) ∧ present (Ride.to_lng r).

Definition has_origin (q : Request.t) : Prop :=
  present (Request.from_lat q) ∧ present (Request.from_lng q).

#[global] Instance fully_coordinated_dec r : Decision (fully_coordinated r).
Proof. unfold fully_coordinated. apply _. Defined.

#[global] Instance has_origin_dec q : Decision (has_origin q).
Proof. unfold has_origin. apply _. Defined.

(** The line runs between the two endpoints the record gives. *)
Definition line_of_ride (l : Polyline) (r : Ride.t) : Prop :=
  Ride.from_lat r = Num (lat (pl_from l)) ∧ Ride.from_lng r = Num (lng (pl_from l))
  ∧ Ride.to_lat r = Num (lat (pl_to l)) ∧ Ride.to_lng r = Num (lng (pl_to l)).

(** The marker sits on the origin the record gives. *)
Definition marker_of_request (m : CircleMarker) (q : Request.t) : Prop :=
  Request.from_lat q = Num (lat (cm_at m)) ∧ Request.from_lng q = Num (lng (cm_at m)).

(** Every coordinate drawn on either overlay lies inside [b]. *)
Definition covers (b : LatLngBounds) (ls : layers) : Prop :=
  Forall (λ l, contains b (pl_from l) = true ∧ contains b (pl_to l) = true)
    (ridesLayer ls)
  ∧ Forall (λ m, contains b (cm_at m) = true) (requestsLayer ls).

(** What both loops maintain: the bounds cover everything drawn so far,
    and they have corners exactly when something was drawn. *)
Definition accumulated (ls : layers) : Prop :=
  covers (bounds ls) ls
  ∧ (bounds ls = None ↔ ridesLayer ls = [] ∧ requestsLayer ls = []).

Definition nullish (c : coord) : Prop := c = Undefined ∨ c = Null.

(** The same for a coordinate that may hold NaN: NaN is present. *)
Definition raw_present (c : raw) : Prop :=
  c ≠ Finite Undefined ∧ c ≠ Finite Null.

#[global] Instance raw_present_dec c : Decision (raw_present c).
Proof.
  destruct c as [[| |q]|];
    [right; intros [H _]; congruence
    |right; intros [_ H]; congruence
    |left; split; discriminate
    |left; split; discriminate].
Defined.

Definition raw_fully_coordinated (r : RawRide.t) : Prop :=
  raw_present (RawRide.from_lat r) ∧ raw_present (RawRide.from_lng r)
  ∧ raw_present (RawRide.to_lat r) ∧ raw_present (RawRide.to_lng r).

Definition raw_has_origin (q : RawRequest.t) : Prop :=
  raw_present (RawRequest.from_lat q) ∧ raw_present (RawRequest.from_lng q).

#[global] Instance raw_fully_coordinated_dec r : Decision (raw_fully_coordinated r).
Proof. unfold raw_fully_coordinated. apply _. Defined.

#[global] Instance raw_has_origin_dec q : Decision (raw_has_origin q).
Proof. unfold raw_has_origin. apply _. Defined.

(** C10 as the specification words it: a record is skipped only when a
    required coordinate is null or undefined, so every other record,
    whatever numbers its coordinates hold, is rendered: there are as many
    lines as rides with no such coordinate, and as many markers as such
    requests. *)
Definition skipped_only_when_nullish (rides : list RawRide.t)
    (requests : list RawRequest.t) : Prop :=
  let ls := snd (raw_render rides requests) in
  length (ridesLayer ls) = length (filter raw_fully_coordinated rides)
  ∧ length (requestsLayer ls) = length (filter raw_has_origin requests).

(** A record that gets past the guard with a NaN among the coordinates
    it needs. *)
Definition ride_with_NaN (r : RawRide.t) : Prop :=
  raw_fully_coordinated r ∧ RawRide.finite r = None.

Definition request_with_NaN (q : RawRequest.t) : Prop :=
  raw_has_origin q ∧ RawRequest.finite q = None.

Definition raw_ride_between (a b c d : raw) : RawRide.t :=
  RawRide.mk None None None a b c d None None None None None.

Definition raw_request_at (a b : raw) : RawRequest.t :=
  RawRequest.mk None None None a b None None None None None None.

(** C3 as the specification words it: the view is fit whenever the
    combined record set is not empty. *)
Definition viewport_fit_when_nonempty (pg : page) : Prop :=
  let rides := default [] (ridesData pg) in
  let requests := default [] (requestsData pg) in
  let st := startup pg in
  (rides = [] ∧ requests = [] →
     view st = SetView DEFAULT_CENTER DEFAULT_ZOOM)
  ∧ (¬ (rides = [] ∧ requests = []) →
     view st = FitBounds (bounds (overlays st)) (24, 24)%Z
     ∧ covers (bounds (overlays st)) (overlays st)).

(** Sample records: a ride with no field set, and records that carry
    coordinates only. *)
Definition blank_ride : Ride.t :=
  Ride.mk None None None Undefined Undefined Undefined Undefined
    None None None None None.

Definition ride_between (a b c d : coord) : Ride.t :=
  Ride.mk None None None a b c d None None None None None.

Definition request_at (a b : coord) : Request.t :=
  Request.mk None None None a b None None None None None None.

Definition page_with (rides : list Ride.t) (requests : list Request.t)
    (fs : gmap string value) : page :=
  {| has_map_element := true; has_Leaflet := true;
     ridesData := Some rides; requestsData := Some requests;
     page_fromBtn := Some false; page_toBtn := Some false;
     page_fields := fs |}.

(** The field [k] of a value of the reply, when the value is an object
    that has it. *)
Definition field (v : value) (k : string) : value :=
  match v with
  | Some (JObj props) => own_property props k
  | _ => None
  end.

(** The first candidate that is present, that is, holds a value that is
    not falsy (for a name: a string that is not empty). *)
Fixpoint first_present (candidates : list value) (fallback : value) : value :=
  match candidates with
  | [] => fallback
  | c :: cs => if ToBoolean c then c else first_present cs fallback
  end.

(** C4 in the order the specification gives. *)
Definition priority_label (ts : Q → string) (data : json) (lat lng : Q) : value :=
  let address := field (Some data) "address" in
  first_present
    [field address "village"; field address "town"; field address "city";
     field (Some data) "display_name"]
    (numeric_label ts lat lng).

(** The same order over any fallback. *)
Definition by_priority (data : json) (fallback : value) : value :=
  let address := field (Some data) "address" in
  first_present
    [field address "village"; field address "town"; field address "city";
     field (Some data) "display_name"]
    fallback.

(** *** A number rendered to so many decimal places

    What a string of decimal digits denotes, read from the left. *)
Definition digit_value (c : Ascii.ascii) : option N :=
  let k := Ascii.N_of_ascii c in
  if (48 <=? k)%N && (k <=? 57)%N then Some (k - 48)%N else None.

Fixpoint numeral_from (acc : N) (s : string) : option N :=
  match s with
  | EmptyString => Some acc
  | String c s' =>
      match digit_value c with
      | Some d => numeral_from (10 * acc + d) s'
      | None => None
      end
  end.

Definition numeral_value (s : string) : option N := numeral_from 0 s.

(** [s] is [x] rendered to [f] decimal places: a minus sign when [x] is
    negative, the digits of the integer part without a needless leading
    zero, a point and exactly [f] more digits; all the digits together
    denote the whole number of units of 10^-f nearest to the magnitude
    of [x], the one further from zero when two are as near. *)
Definition rendered_to (f : nat) (x : Q) (s : string) : Prop :=
  ∃ (int frac : string) (n : N),
    s = (if Qle_bool 0 x then "" else "-") +:+ int +:+ "." +:+ frac
    ∧ String.length frac = f
    ∧ int ≠ ""%string
    ∧ (int = "0"%string ∨ String.prefix "0" int = false)
    ∧ numeral_value (int +:+ frac) = Some n
    ∧ (Qabs x * inject_Z (10 ^ Z.of_nat f) - (1 # 2) < inject_Z (Z.of_N n))%Q
    ∧ (inject_Z (Z.of_N n) <= Qabs x * inject_Z (10 ^ Z.of_nat f) + (1 # 2))%Q.

(** The numeric fallback of C4 and C5: the clicked coordinates, each
    rendered to 5 decimal places, as "{lat}, {lng}". *)
Definition numeric_fallback (lat lng : Q) (label : value) : Prop :=
  ∃ a b, rendered_to 5 lat a ∧ rendered_to 5 lng b
         ∧ label = Some (JStr (a +:+ ", " +:+ b)).

(** The magnitudes that toFixed prints in positional notation.  Every
    latitude and longitude is far inside. *)
Definition positional (x : Q) : Prop := (Qabs x < inject_Z (10 ^ 21))%Q.

Definition is_object (d : json) : bool :=
  match d with
  | JObj _ => true
  | _ => false
  end.

(** A lookup that fails: the request does not complete, the status is
    not a success, or the payload is not JSON or not a JSON object. *)
Definition attempt_failed (o : fetch_outcome) : Prop :=
  match o with
  | NetworkError => True
  | Responds res =>
      ok res = false ∨ body res = None
      ∨ ∃ d, body res = Some d ∧ is_object d = false
  end.

Definition is_fetch (e : effect) : bool :=
  match e with
  | Fetch _ _ => true
  | _ => false
  end.

(** Number of requests sent so far. *)
Definition requests_made (tr : list effect) : nat :=
  length (List.filter is_fetch tr).

(** A callback that only records the labels it is called with. *)
Definition record_label (label : value) (log : list value) : list value :=
  log ++ [label].

Definition assigned_by (w : writer) (e : effect) : Prop :=
  ∃ f v, e = Assign w f v.

(** [st'] differs from [st] at most in the form fields and the trace. *)
Definition same_controls (st st' : state) : Prop :=
  currentMode st' = currentMode st
  ∧ fromBtn st' = fromBtn st ∧ toBtn st' = toBtn st
  ∧ fromMarker st' = fromMarker st ∧ toMarker st' = toMarker st
  ∧ fromMarkerAdded st' = fromMarkerAdded st
  ∧ toMarkerAdded st' = toMarkerAdded st
  ∧ pending st' = pending st ∧ clicks st' = clicks st
  ∧ view st' = view st ∧ overlays st' = overlays st.

(** [st'] comes from [st] by assignments of [w] to form fields. *)
Definition writes_only (w : writer) (st st' : state) : Prop :=
  same_controls st st'
  ∧ ∃ es, trace st' = trace st ++ es ∧ Forall (assigned_by w) es.

(** The marker calls a map click makes in mode [m]. *)
Definition marker_calls_of_click (m : mode) (added : bool) (p : LatLng)
  : list effect :=
  (if added then [] else [AddTo m]) ++ [SetLatLng m p].

Definition marker (m : mode) (st : state) : LatLng :=
  match m with From => fromMarker st | To => toMarker st end.

Definition markerAdded (m : mode) (st : state) : bool :=
  match m with From => fromMarkerAdded st | To => toMarkerAdded st end.

Definition other (m : mode) : mode :=
  match m with From => To | To => From end.

(** Whether an effect is a call on the marker of mode [m]. *)
Definition on_marker (m : mode) (e : effect) : bool :=
  match e with
  | AddTo m' | SetLatLng m' _ | Remove m' => bool_decide (m' = m)
  | _ => false
  end.

Definition marker_calls (m : mode) (tr : list effect) : list effect :=
  List.filter (on_marker m) tr.

(** The points clicked on the map while mode [m] was the current one,
    over a run of events from [st]. *)
Fixpoint clicks_in_mode (ts : Q → string) (m : mode) (st : state)
    (evs : list event) : list LatLng :=
  match evs with
  | [] => []
  | ev :: evs' =>
      match ev with
      | MapClick p => if decide (currentMode st = m) then [p] else []
      | _ => []
      end ++ clicks_in_mode ts m (step ts st ev) evs'
  end.

(** The request of [click] is entry [k] of the trace, and every
    coordinate write of that click comes before it. *)
Definition sent_at (tr : list effect) (click k : nat) : Prop :=
  (∃ p, tr !! k = Some (Fetch click p))
  ∧ ∀ j g w, tr !! j = Some (Assign (Coordinates click) g w) → j < k.

(** What every handler keeps: each lookup in flight has been sent after
    the coordinate writes of its click, each label write comes after the
    request of its click, and clicks are numbered below [clicks]. *)
Definition ordered (st : state) : Prop :=
  (∀ click p, pending st !! click = Some p →
     click < clicks st ∧ ∃ k, sent_at (trace st) click k)
  ∧ (∀ i click f v, trace st !! i = Some (Assign (Label click) f v) →
       click < clicks st ∧ ∃ k, k < i ∧ sent_at (trace st) click k).

(** A page with every form field the script looks for, all empty. *)
Definition form_fields : gmap string value :=
  list_to_map
    ((λ k, (k, Some (JStr ""))) <$>
       ["offer-from"; "offer-to"; "request-from"; "request-to";
        "offer_from_lat"; "offer_from_lng"; "offer_to_lat"; "offer_to_lng";
        "request_from_lat"; "request_from_lng"; "request_to_lat";
        "request_to_lng"]%string).

Definition village_reply (name : string) : fetch_outcome :=
  Responds {| status := 200;
              body := Some (JObj [("address"%string,
                                   JObj [("village"%string, JStr name)])]) |}.

(** The hidden field [k] of mode [which], with the coordinate it takes. *)
Definition coordinate_field (which : mode) (lat lng : Q) (k : string)
  : option value :=
  match which with
  | From =>
      if decide (k = "offer_from_lat"%string) then Some (number lat)
      else if decide (k = "offer_from_lng"%string) then Some (number lng)
      else if decide (k = "request_from_lat"%string) then Some (number lat)
      else if decide (k = "request_from_lng"%string) then Some (number lng)
      else None
  | To =>
      if decide (k = "offer_to_lat"%string) then Some (number lat)
      else if decide (k = "offer_to_lng"%string) then Some (number lng)
      else if decide (k = "request_to_lat"%string) then Some (number lat)
      else if decide (k = "request_to_lng"%string) then Some (number lng)
      else None
  end.

(** Whether [k] is a place-name field of mode [which]. *)
Definition label_field (which : mode) (k : string) : bool :=
  match which with
  | From => bool_decide (k = "offer-from"%string)
            || bool_decide (k = "request-from"%string)
  | To => bool_decide (k = "offer-to"%string)
          || bool_decide (k = "request-to"%string)
  end.

(** ** Further vocabulary: what a drawn layer owes to its record *)




Definition marked_from (m : CircleMarker) (q : Request.t) : Prop :=
  marker_of_request m q
  ∧ cm_radius m = 7%Z
  ∧ cm_color m = "#ca8a04"%string
  ∧ cm_popup m = request_popup q.


Definition request_popup_filled (p : RequestPopup) : Prop :=
  qp_passenger p ≠ ""%string ∧ qp_from p ≠ ""%string ∧ qp_to p ≠ ""%string
  ∧ qp_people p ≠ Some 0%N
  ∧ qp_note p ≠ Some ""%string ∧ qp_tel p ≠ Some ""%string.

(** The points drawn on the two overlays. *)
Definition plotted (ls : layers) : list LatLng :=
  (ridesLayer ls ≫= λ l, [pl_from l; pl_to l]) ++ (cm_at <$> requestsLayer ls).

(** A box given by its two corners holds the point. *)
Definition in_box (sw ne p : LatLng) : Prop :=
  (lat sw <= lat p)%Q ∧ (lat p <= lat ne)%Q
  ∧ (lng sw <= lng p)%Q ∧ (lng p <= lng ne)%Q.


(** The corners of [b], if it has any, lie in the box [sw'], [ne']. *)
Definition corners_in_box (sw' ne' : LatLng) (b : LatLngBounds) : Prop :=
  match b with
  | Some (sw, ne) => in_box sw' ne' sw ∧ in_box sw' ne' ne
  | None => True
  end.

(** What both loops maintain besides [accumulated]: any box that holds
    the points drawn so far holds the corners of the bounds. *)
Definition tight (ls : layers) : Prop :=
  ∀ sw' ne', Forall (in_box sw' ne') (plotted ls) →
             corners_in_box sw' ne' (bounds ls).


(** ** Further vocabulary: the page as it runs *)

(** The label a lookup comes to, whatever its outcome. *)
Definition resolved_label (ts : Q → string) (o : fetch_outcome) (lat lng : Q)
  : value :=
  match o with
  | NetworkError => numeric_label ts lat lng
  | Responds res =>
      if ok res
      then match body res with
           | Some data => priority_label ts data lat lng
           | None => numeric_label ts lat lng
           end
      else numeric_label ts lat lng
  end.

(** Whether the callback is first called inside the second [then]: the
    reply is a success whose body is JSON other than null.  The [catch]
    then still lies ahead of that call. *)
Definition labelled_in_then (o : fetch_outcome) : bool :=
  match o with
  | NetworkError => false
  | Responds res =>
      ok res && match body res with
                | Some JNull | None => false
                | Some _ => true
                end
  end.

(** A callback that records the label and then throws. *)
Definition record_and_throw (label : value) (log : list value)
  : settled (list value) unit :=
  (Throw TypeError, log ++ [label]).

(** The form fields keep to the set [D]: no field appears or disappears,
    and every assignment made so far went to a field of [D]. *)
Definition fields_kept (D : gset string) (st : state) : Prop :=
  dom (fields st) = D
  ∧ Forall (λ e, ∀ w f v, e = Assign w f v → f ∈ D) (trace st).

(** The fields the offer form and the request form have in common. *)
Definition paired_fields : list (string * string) :=
  [("offer-from", "request-from"); ("offer-to", "request-to");
   ("offer_from_lat", "request_from_lat"); ("offer_from_lng", "request_from_lng");
   ("offer_to_lat", "request_to_lat"); ("offer_to_lng", "request_to_lng")]%string.

(** Wherever both forms have a field of a pair, the two hold the same. *)
Definition forms_agree (st : state) : Prop :=
  ∀ o r, (o, r) ∈ paired_fields →
         is_Some (fields st !! o) → is_Some (fields st !! r) →
         fields st !! o = fields st !! r.

(** The hidden coordinate fields of a mode whose marker is on the map
    hold the position of that marker. *)
Definition form_follows_markers (st : state) : Prop :=
  ∀ m k v, markerAdded m st = true →
           coordinate_field m (lat (marker m st)) (lng (marker m st)) k = Some v →
           is_Some (fields st !! k) →
           fields st !! k = Some v.

(** The requests sent, with their click numbers, in the order sent. *)
Definition requests_sent (tr : list effect) : list (nat * LatLng) :=
  omap (λ e, match e with Fetch n p => Some (n, p) | _ => None end) tr.

(** The points clicked on the map, in order. *)
Definition points_clicked (evs : list event) : list LatLng :=
  omap (λ ev, match ev with MapClick p => Some p | _ => None end) evs.

(** Click numbers paired with points, counting from [n]. *)
Fixpoint numbered (n : nat) (ps : list LatLng) : list (nat * LatLng) :=
  match ps with
  | [] => []
  | p :: ps' => (n, p) :: numbered (S n) ps'
  end.

(** The control of mode [m] in a page: absent, or its highlight. *)
Definition control (m : mode) (st : state) : option bool :=
  match m with From => fromBtn st | To => toBtn st end.

(** Whether [k] is one of the hidden coordinate fields of mode [m]. *)
Definition is_coordinate_field (m : mode) (k : string) : bool :=
  match coordinate_field m 0 0 k with Some _ => true | None => false end.


(** Whether the page has the control of mode [m]. *)
Definition has_control (st : state) (m : mode) : bool :=
  match control m st with Some _ => true | None => false end.

(** The mode after a run of events over a page that has the controls
    [has]: a click on a control that exists selects its mode. *)
Definition mode_from (has : mode → bool) (m0 : mode) (evs : list event) : mode :=
  foldl (λ m ev, match ev with
                 | ModeClick m' => if has m' then m' else m
                 | _ => m
                 end) m0 evs.


(** * The page script (static/js/main.js): theme toggle and tabs

    The document is the body and the other elements, each with its class
    list, its text and its data-tab-target attribute.  The element with
    id theme-toggle is taken to be a button without child elements, so
    that setting its text changes nothing else.  As in the map script,
    an event is the run of one listener; the click that the script itself
    dispatches when the page is loaded with the requests hash is one more
    such event. *)

Module Main.

Record element := mkElement {
  classList : gset string;
  textContent : string;
  data_tab_target : option string     (* getAttribute: null when absent *)
}.

Inductive node := Body | Node (i : nat).

#[global] Instance node_eq_dec : EqDecision node.
Proof. solve_decision. Defined.

Record state := mkState {
  body : element;
  nodes : list element;               (* the elements other than the body *)
  theme_toggle : option node;         (* getElementById("theme-toggle") *)
  villageTheme : option string;       (* the localStorage item, null when unset *)
  hash : string;                      (* window.location.hash *)
  toggle_listens : bool;              (* the button has its click listener *)
  tabLinks : list node;               (* those with a click listener *)
  tabPanels : list node
}.

(** What a handler comes to: it returns, or an exception leaves it. *)
Inductive completion := Normal | Abrupt.

Definition get (n : node) (st : state) : option element :=
  match n with
  | Body => Some (body st)
  | Node i => nodes st !! i
  end.

Definition update (n : node) (f : element → element) (st : state) : state :=
  match n with
  | Body => mkState (f (body st)) (nodes st) (theme_toggle st) (villageTheme st)
              (hash st) (toggle_listens st) (tabLinks st) (tabPanels st)
  | Node i => mkState (body st) (alter f i (nodes st)) (theme_toggle st)
                (villageTheme st) (hash st) (toggle_listens st) (tabLinks st)
                (tabPanels st)
  end.

Definition set_villageTheme (v : string) (st : state) : state :=
  mkState (body st) (nodes st) (theme_toggle st) (Some v) (hash st)
    (toggle_listens st) (tabLinks st) (tabPanels st).

Definition set_hash (h : string) (st : state) : state :=
  mkState (body st) (nodes st) (theme_toggle st) (villageTheme st) h
    (toggle_listens st) (tabLinks st) (tabPanels st).

Definition set_listeners (t : bool) (links panels : list node) (st : state)
  : state :=
  mkState (body st) (nodes st) (theme_toggle st) (villageTheme st) (hash st)
    t links panels.

Definition classList_remove (tokens : gset string) (e : element) : element :=
  mkElement (classList e ∖ tokens) (textContent e) (data_tab_target e).

Definition classList_add (token : string) (e : element) : element :=
  mkElement ({[token]} ∪ classList e) (textContent e) (data_tab_target e).

Definition classList_contains (token : string) (e : element) : bool :=
  bool_decide (token ∈ classList e).

Definition set_textContent (t : string) (e : element) : element :=
  mkElement (classList e) t (data_tab_target e).

(** Tab, line feed, form feed, carriage return and space. *)
Definition ascii_whitespace (c : Ascii.ascii) : bool :=
  match Ascii.N_of_ascii c with
  | 9%N | 10%N | 12%N | 13%N | 32%N => true
  | _ => false
  end.

Fixpoint has_whitespace (s : string) : bool :=
  match s with
  | EmptyString => false
  | String c s' => ascii_whitespace c || has_whitespace s'
  end.

(** classList.add throws on the empty token and on one with whitespace. *)
Definition token_ok (s : string) : bool :=
  negb (bool_decide (s = ""%string)) && negb (has_whitespace s).

Definition dark_text : string := "🌙 Тъмна тема".
Definition light_text : string := "🌞 Светла тема".

(** [applyTheme(theme)] *)
Definition applyTheme (theme : string) (st : state) : completion * state :=
  let st1 := update Body (classList_remove {["theme-light"; "theme-dark"]}%string) st in
  if token_ok theme then
    let st2 := update Body (classList_add theme) st1 in
    (Normal,
     match theme_toggle st2 with
     | Some btn =>
         update btn
           (set_textContent
              (if bool_decide (theme = "theme-dark"%string)
               then dark_text else light_text)) st2
     | None => st2
     end)
  else (Abrupt, st1).

(** [document.querySelectorAll("." + c)], in some order. *)
Definition with_class (c : string) (st : state) : list node :=
  (if classList_contains c (body st) then [Body] else [])
  ++ (Node <$> (fst <$> filter (λ ie, c ∈ classList ie.2) (imap pair (nodes st)))).

(** The listener of DOMContentLoaded, up to the last block. *)
Definition load (st : state) : completion * state :=
  let applied :=
    match villageTheme st with
    | Some s => if bool_decide (s = ""%string)
                then applyTheme "theme-light" st
                else applyTheme s st
    | None => applyTheme "theme-light" st
    end in
  match applied with
  | (Abrupt, st1) => (Abrupt, st1)
  | (Normal, st1) =>
      (Normal,
       set_listeners
         (match theme_toggle st1 with Some _ => true | None => false end)
         (with_class "tab-link" st1) (with_class "tab-panel" st1) st1)
  end.

(** The click listener of the theme button. *)
Definition on_toggle (st : state) : completion * state :=
  if toggle_listens st then
    let current := if classList_contains "theme-dark" (body st)
                   then "theme-dark"%string else "theme-light"%string in
    let next := if bool_decide (current = "theme-dark"%string)
                then "theme-light"%string else "theme-dark"%string in
    match applyTheme next st with
    | (Normal, st1) => (Normal, set_villageTheme next st1)
    | (Abrupt, st1) => (Abrupt, st1)
    end
  else (Normal, st).

(** What [document.querySelector] can come to. *)
Inductive selection := Found (n : node) | NoMatch | BadSelector.

Inductive event := ToggleClick | TabClick (link : node).

Section Tabs.

(** [document.querySelector(target)] on the document as it stands; the
    argument is the attribute value, null when the link has none. *)
Variable querySelector : state → option string → selection.

(** The click listener of a tab link. *)
Definition on_tab (link : node) (st : state) : completion * state :=
  if bool_decide (link ∈ tabLinks st) then
    let target := default None (data_tab_target <$> get link st) in
    let st1 := foldl (λ s b, update b (classList_remove {["tab-active"%string]}) s)
                 st (tabLinks st) in
    let st2 := foldl (λ s p, update p (classList_remove {["tab-panel-active"%string]}) s)
                 st1 (tabPanels st) in
    let st3 := update link (classList_add "tab-active") st2 in
    match querySelector st3 target with
    | BadSelector => (Abrupt, st3)
    | sel =>
        let st4 := match sel with
                   | Found panel => update panel (classList_add "tab-panel-active") st3
                   | _ => st3
                   end in
        (Normal,
         set_hash (if bool_decide (target = Some "#requests-tab"%string)
                   then "#requests-tab"%string else "#rides-tab"%string) st4)
    end
  else (Normal, st).

Definition step (st : state) (ev : event) : state :=
  match ev with
  | ToggleClick => snd (on_toggle st)
  | TabClick link => snd (on_tab link st)
  end.

Definition run (st : state) (evs : list event) : state := foldl step st evs.

End Tabs.

(** The theme the body shows: whether it carries theme-dark, theme-light. *)
Definition shows (st : state) : bool * bool :=
  (classList_contains "theme-dark" (body st),
   classList_contains "theme-light" (body st)).

(** A page as it is before the script runs. *)
Definition page (b : element) (ns : list element) (btn : option node)
    (stored : option string) (h : string) : state :=
  mkState b ns btn stored h false [] [].

Definition plain (classes : list string) (target : option string) : element :=
  mkElement (list_to_set classes) "" target.

End Main.


(** The state after [applyTheme(t)] and [setItem("villageTheme", t)]. *)
Definition themed (t : string) (st : Main.state) : Main.state :=
  Main.set_villageTheme t (snd (Main.applyTheme t st)).

(** The class the toggle selects from a page: light when the body is
    dark, dark otherwise. *)
Definition next_theme (st : Main.state) : string :=
  if Main.classList_contains "theme-dark" (Main.body st)
  then "theme-light"%string else "theme-dark"%string.

Definition is_theme (t : string) : Prop :=
  t = "theme-light"%string ∨ t = "theme-dark"%string.

(** The text the button gets for a theme. *)
Definition button_text (t : string) : string :=
  if bool_decide (t = "theme-dark"%string) then Main.dark_text else Main.light_text.

(** * Properties *)

(** ** Layer renderer *)

Lemma ride_body_skip acc r : ¬ fully_coordinated r → ride_body acc r = acc.
Proof.
  destruct r as [? ? ? [| |a] [| |b] [| |c] [| |d] ? ? ? ? ?];
    unfold fully_coordinated, present, ride_body; simpl; intros H; try reflexivity.
  exfalso. apply H. repeat split; discriminate.
Qed.

Lemma ride_body_draw acc r :
  fully_coordinated r →
  ∃ line, line_of_ride line r
    ∧ pl_color line = ride_color (Ride.ride_type r)
    ∧ pl_popup line = ride_popup r
    ∧ ride_body acc r =
        {| ridesLayer := ridesLayer acc ++ [line];
           requestsLayer := requestsLayer acc;
           bounds := extend (extend (bounds acc) (pl_from line)) (pl_to line) |}.
Proof.
  destruct r as [dr fl tl [| |a] [| |b] [| |c] [| |d] dt tm ty tyl ph];
    unfold fully_coordinated, present; simpl;
    intros ((H1 & H2) & (H3 & H4) & (H5 & H6) & (H7 & H8)); try congruence.
  exists {| pl_from := latLng a b; pl_to := latLng c d;
            pl_color := ride_color ty; pl_weight := 4;
            pl_popup := ride_popup (Ride.mk dr fl tl (Num a) (Num b) (Num c)
                                      (Num d) dt tm ty tyl ph) |}.
  unfold line_of_ride. simpl. auto.
Qed.

Lemma request_body_skip acc q : ¬ has_origin q → request_body acc q = acc.
Proof.
  destruct q as [? ? ? [| |a] [| |b] ? ? ? ? ? ?];
    unfold has_origin, present, request_body; simpl; intros H; try reflexivity.
  exfalso. apply H. repeat split; discriminate.
Qed.

Lemma request_body_draw acc q :
  has_origin q →
  ∃ m, marker_of_request m q
    ∧ cm_popup m = request_popup q
    ∧ request_body acc q =
        {| ridesLayer := ridesLayer acc;
           requestsLayer := requestsLayer acc ++ [m];
           bounds := extend (bounds acc) (cm_at m) |}.
Proof.
  destruct q as [pa fl tl [| |a] [| |b] dt tm fx pc nt ph];
    unfold has_origin, present; simpl;
    intros ((H1 & H2) & (H3 & H4)); try congruence.
  exists {| cm_at := latLng a b; cm_radius := 7; cm_color := "#ca8a04";
            cm_popup := request_popup (Request.mk pa fl tl (Num a) (Num b)
                                         dt tm fx pc nt ph) |}.
  unfold marker_of_request. simpl. auto.
Qed.

Lemma rides_fold rides : ∀ acc,
  ∃ lines : list Polyline,
    ridesLayer (foldl ride_body acc rides) = ridesLayer acc ++ lines
    ∧ requestsLayer (foldl ride_body acc rides) = requestsLayer acc
    ∧ Forall2 line_of_ride lines (filter fully_coordinated rides).
Proof.
  induction rides as [|r rides IH]; intros acc; simpl.
  - exists []. rewrite app_nil_r. repeat split. constructor.
  - destruct (decide (fully_coordinated r)) as [Hr|Hr].
    + destruct (ride_body_draw acc r Hr) as (line & Hl & _ & _ & ->).
      destruct (IH {| ridesLayer := ridesLayer acc ++ [line];
                      requestsLayer := requestsLayer acc;
                      bounds := extend (extend (bounds acc) (pl_from line)) (pl_to line) |})
        as (lines & E1 & E2 & F).
      exists (line :: lines). simpl in E1, E2.
      rewrite E1, E2, <- app_assoc. repeat split.
      rewrite filter_cons_True by assumption. constructor; assumption.
    + rewrite (ride_body_skip acc r Hr).
      destruct (IH acc) as (lines & E1 & E2 & F).
      exists lines. rewrite filter_cons_False by assumption. auto.
Qed.

Lemma requests_fold requests : ∀ acc,
  ∃ ms : list CircleMarker,
    requestsLayer (foldl request_body acc requests) = requestsLayer acc ++ ms
    ∧ ridesLayer (foldl request_body acc requests) = ridesLayer acc
    ∧ Forall2 marker_of_request ms (filter has_origin requests).
Proof.
  induction requests as [|q requests IH]; intros acc; simpl.
  - exists []. rewrite app_nil_r. repeat split. constructor.
  - destruct (decide (has_origin q)) as [Hq|Hq].
    + destruct (request_body_draw acc q Hq) as (m & Hm & _ & ->).
      destruct (IH {| ridesLayer := ridesLayer acc;
                      requestsLayer := requestsLayer acc ++ [m];
                      bounds := extend (bounds acc) (cm_at m) |})
        as (ms & E1 & E2 & F).
      exists (m :: ms). simpl in E1, E2.
      rewrite E1, E2, <- app_assoc. repeat split.
      rewrite filter_cons_True by assumption. constructor; assumption.
    + rewrite (request_body_skip acc q Hq).
      destruct (IH acc) as (ms & E1 & E2 & F).
      exists ms. rewrite filter_cons_False by assumption. auto.
Qed.

Lemma render_rides rides requests :
  Forall2 line_of_ride (ridesLayer (render rides requests))
    (filter fully_coordinated rides).
Proof.
  unfold render.
  destruct (requests_fold requests (foldl ride_body no_layers rides))
    as (_ & _ & -> & _).
  destruct (rides_fold rides no_layers) as (lines & -> & _ & F).
  exact F.
Qed.

Lemma render_requests rides requests :
  Forall2 marker_of_request (requestsLayer (render rides requests))
    (filter has_origin requests).
Proof.
  unfold render.
  destruct (requests_fold requests (foldl ride_body no_layers rides))
    as (ms & -> & _ & F).
  destruct (rides_fold rides no_layers) as (_ & _ & -> & _).
  exact F.
Qed.

(** *** The bounds object *)

Lemma contains_extend_self b p : contains (extend b p) p = true.
Proof.
  destruct b as [[sw ne]|]; simpl;
    rewrite !andb_true_iff, !Qle_bool_iff; repeat split;
    auto using Q.le_min_l, Q.le_max_l, Qle_refl.
Qed.

Lemma contains_extend_mono b p q :
  contains b q = true → contains (extend b p) q = true.
Proof.
  destruct b as [[sw ne]|]; simpl; [|discriminate].
  rewrite !andb_true_iff, !Qle_bool_iff.
  intros [[[H1 H2] H3] H4]. repeat split.
  - eapply Qle_trans; [apply Q.le_min_r|exact H1].
  - eapply Qle_trans; [exact H2|apply Q.le_max_r].
  - eapply Qle_trans; [apply Q.le_min_r|exact H3].
  - eapply Qle_trans; [exact H4|apply Q.le_max_r].
Qed.

Lemma covers_extend b p ls : covers b ls → covers (extend b p) ls.
Proof.
  intros [Hr Hq]. split.
  - eapply Forall_impl; [exact Hr|].
    intros l [H1 H2]. split; apply contains_extend_mono; assumption.
  - eapply Forall_impl; [exact Hq|].
    intros m H. apply contains_extend_mono; assumption.
Qed.

Lemma accumulated_ride acc r : accumulated acc → accumulated (ride_body acc r).
Proof.
  intros [Hc He].
  destruct (decide (fully_coordinated r)) as [Hr|Hr];
    [|rewrite ride_body_skip by assumption; split; assumption].
  destruct (ride_body_draw acc r Hr) as (line & _ & _ & _ & ->).
  split; simpl.
  - destruct (covers_extend _ (pl_to line) _
                (covers_extend _ (pl_from line) _ Hc)) as [H1 H2].
    split; simpl; [|exact H2].
    apply Forall_app. split; [exact H1|].
    constructor; [|constructor]. split.
    + apply contains_extend_mono, contains_extend_self.
    + apply contains_extend_self.
  - split.
    + destruct (bounds acc) as [[? ?]|]; discriminate.
    + intros [H _]. destruct (ridesLayer acc); discriminate.
Qed.

Lemma accumulated_request acc q :
  accumulated acc → accumulated (request_body acc q).
Proof.
  intros [Hc He].
  destruct (decide (has_origin q)) as [Hq|Hq];
    [|rewrite request_body_skip by assumption; split; assumption].
  destruct (request_body_draw acc q Hq) as (m & _ & _ & ->).
  split; simpl.
  - destruct (covers_extend _ (cm_at m) _ Hc) as [H1 H2].
    split; simpl; [exact H1|].
    apply Forall_app. split; [exact H2|].
    constructor; [|constructor]. apply contains_extend_self.
  - split.
    + destruct (bounds acc) as [[? ?]|]; discriminate.
    + intros [_ H]. destruct (requestsLayer acc); discriminate.
Qed.

Lemma accumulated_foldl {A} (body : layers → A → layers) (xs : list A) :
  (∀ acc x, accumulated acc → accumulated (body acc x)) →
  ∀ acc, accumulated acc → accumulated (foldl body acc xs).
Proof.
  intros Hbody. induction xs as [|x xs IH]; intros acc Hacc; simpl; auto.
Qed.

Lemma accumulated_render rides requests : accumulated (render rides requests).
Proof.
  unfold render.
  apply accumulated_foldl; [exact accumulated_request|].
  apply accumulated_foldl; [exact accumulated_ride|].
  repeat split; simpl; auto; constructor.
Qed.

Lemma overlays_startup pg :
  overlays (startup pg)
  = render (default [] (ridesData pg)) (default [] (requestsData pg)).
Proof. reflexivity. Qed.

Lemma view_startup pg :
  view (startup pg)
  = fit_view (bounds (overlays (startup pg))) (SetView DEFAULT_CENTER DEFAULT_ZOOM).
Proof. reflexivity. Qed.



Lemma Forall2_elem_of_right {A B} (R : A → B → Prop) (xs : list A) (ys : list B) y :
  Forall2 R xs ys → y ∈ ys → ∃ x, x ∈ xs ∧ R x y.
Proof.
  intros F Hy. apply list_elem_of_lookup in Hy as [i Hi].
  destruct (Forall2_lookup_r _ _ _ _ _ F Hi) as (x & Hx & HR).
  exists x. split; [|exact HR]. apply list_elem_of_lookup. eauto.
Qed.

Lemma ride_drawn rides requests r :
  r ∈ rides → fully_coordinated r →
  ∃ line, line ∈ ridesLayer (render rides requests) ∧ line_of_ride line r.
Proof.
  intros Hin Hr.
  eapply Forall2_elem_of_right; [apply render_rides|].
  apply list_elem_of_filter. auto.
Qed.

Lemma request_drawn rides requests q :
  q ∈ requests → has_origin q →
  ∃ m, m ∈ requestsLayer (render rides requests) ∧ marker_of_request m q.
Proof.
  intros Hin Hq.
  eapply Forall2_elem_of_right; [apply render_requests|].
  apply list_elem_of_filter. auto.
Qed.

Lemma nothing_plotted rides requests :
  filter fully_coordinated rides = [] ∧ filter has_origin requests = []
  ↔ ridesLayer (render rides requests) = []
    ∧ requestsLayer (render rides requests) = [].
Proof.
  pose proof (Forall2_length _ _ _ (render_rides rides requests)) as L1.
  pose proof (Forall2_length _ _ _ (render_requests rides requests)) as L2.
  split; intros [H1 H2].
  - rewrite H1 in L1. rewrite H2 in L2. simpl in *.
    split; apply length_zero_iff_nil; assumption.
  - rewrite H1 in L1. rewrite H2 in L2. simpl in *.
    split; apply length_zero_iff_nil; auto.
Qed.

(** C3, as the code has it: the map keeps the default center and zoom
    when no record is plotted, which includes the empty record set; when
    at least one ride has its four coordinates or one request its origin,
    the viewport is fit to the accumulated bounds with padding 24, 24 and
    those bounds contain every plotted coordinate. *)
Theorem viewport_fit_when_plotted (pg : page) :
  let rides := default [] (ridesData pg) in
  let requests := default [] (requestsData pg) in
  let st := startup pg in
  (rides = [] ∧ requests = [] →
     view st = SetView DEFAULT_CENTER DEFAULT_ZOOM)
  ∧ (filter fully_coordinated rides = [] ∧ filter has_origin requests = [] →
     view st = SetView DEFAULT_CENTER DEFAULT_ZOOM)
  ∧ (¬ (filter fully_coordinated rides = [] ∧ filter has_origin requests = []) →
     view st = FitBounds (bounds (overlays st)) (24, 24)%Z
     ∧ covers (bounds (overlays st)) (overlays st)).
Proof.
  intros rides requests st.
  assert (Hnone : filter fully_coordinated rides = []
                  ∧ filter has_origin requests = [] →
                  view st = SetView DEFAULT_CENTER DEFAULT_ZOOM).
  { intros H. apply nothing_plotted in H.
    destruct (accumulated_render rides requests) as [_ He].
    apply He in H. subst st. rewrite view_startup, overlays_startup.
    fold rides requests. rewrite H. reflexivity. }
  split; [|split; [exact Hnone|]].
  - intros [-> ->]. apply Hnone. split; reflexivity.
  - intros Hsome.
    destruct (accumulated_render rides requests) as [Hc He].
    subst st. rewrite view_startup, overlays_startup. fold rides requests.
    split; [|exact Hc].
    destruct (bounds (render rides requests)) as [c|] eqn:Hb; [reflexivity|].
    exfalso. apply Hsome. apply nothing_plotted. apply He. reflexivity.
Qed.

(** A record set that is not empty but has nothing to plot leaves the
    default view in place. *)
Lemma viewport_fit_when_nonempty_fails :
  ¬ viewport_fit_when_nonempty (page_with [blank_ride] [] ∅).
Proof.
  intros [_ H].
  assert (Hne : ¬ (default [] (ridesData (page_with [blank_ride] [] ∅)) = []
                   ∧ default [] (requestsData (page_with [blank_ride] [] ∅)) = []))
    by (intros [E _]; discriminate E).
  destruct (H Hne) as [Hv _]. discriminate Hv.
Qed.

Lemma viewport_fit_when_plotted_witness :
  view (startup (page_with [] [] ∅)) = SetView DEFAULT_CENTER DEFAULT_ZOOM
  ∧ view (startup (page_with [blank_ride] [] ∅))
    = SetView DEFAULT_CENTER DEFAULT_ZOOM
  ∧ covers
      (bounds (overlays (startup (page_with [] [request_at (Num 0) (Num 1)] ∅))))
      (overlays (startup (page_with [] [request_at (Num 0) (Num 1)] ∅))).
Proof.
  split; [|split].
  - apply (viewport_fit_when_plotted (page_with [] [] ∅)). split; reflexivity.
  - apply (viewport_fit_when_plotted (page_with [blank_ride] [] ∅)).
    split; reflexivity.
  - apply (viewport_fit_when_plotted
             (page_with [] [request_at (Num 0) (Num 1)] ∅)).
    intros [_ H]. discriminate H.
Defined.



(** On a feed without NaN the guard alone decides.  A ride has a line
    exactly when none of its four coordinates is null or undefined, a
    request has a marker exactly when neither origin coordinate is, and a
    record whose coordinates are numbers is drawn at those numbers
    whatever they are, zero included although zero is falsy. *)
Lemma zero_counts_as_present (rides : list Ride.t) (requests : list Request.t) :
  coord_truthy (Num 0) = false
  ∧ (∀ r, r ∈ rides →
       (∃ line, line ∈ ridesLayer (render rides requests) ∧ line_of_ride line r)
       ↔ ¬ (nullish (Ride.from_lat r) ∨ nullish (Ride.from_lng r)
            ∨ nullish (Ride.to_lat r) ∨ nullish (Ride.to_lng r)))
  ∧ (∀ q, q ∈ requests →
       (∃ m, m ∈ requestsLayer (render rides requests) ∧ marker_of_request m q)
       ↔ ¬ (nullish (Request.from_lat q) ∨ nullish (Request.from_lng q)))
  ∧ (∀ r a b c d, r ∈ rides →
       Ride.from_lat r = Num a → Ride.from_lng r = Num b →
       Ride.to_lat r = Num c → Ride.to_lng r = Num d →
       ∃ line, line ∈ ridesLayer (render rides requests)
               ∧ pl_from line = latLng a b ∧ pl_to line = latLng c d)
  ∧ (∀ q a b, q ∈ requests →
       Request.from_lat q = Num a → Request.from_lng q = Num b →
       ∃ m, m ∈ requestsLayer (render rides requests) ∧ cm_at m = latLng a b).
Proof.
  split; [reflexivity|]. split; [|split; [|split]].
  - intros r Hin. split.
    + intros (line & _ & H1 & H2 & H3 & H4).
      rewrite H1, H2, H3, H4. unfold nullish.
      intros [[|]|[[|]|[[|]|[|]]]]; discriminate.
    + intros Hn. apply ride_drawn; [exact Hin|].
      unfold fully_coordinated, present, nullish in *.
      repeat split; intros E; apply Hn; rewrite E; tauto.
  - intros q Hin. split.
    + intros (m & _ & H1 & H2).
      rewrite H1, H2. unfold nullish.
      intros [[|]|[|]]; discriminate.
    + intros Hn. apply request_drawn; [exact Hin|].
      unfold has_origin, present, nullish in *.
      repeat split; intros E; apply Hn; rewrite E; tauto.
  - intros r a b c d Hin Ha Hb Hc Hd.
    destruct (ride_drawn rides requests r Hin) as (line & Hl & H1 & H2 & H3 & H4).
    { unfold fully_coordinated, present. rewrite Ha, Hb, Hc, Hd.
      repeat split; discriminate. }
    exists line. split; [exact Hl|].
    destruct (pl_from line) as [x y], (pl_to line) as [z w]. simpl in *.
    split; congruence.
  - intros q a b Hin Ha Hb.
    destruct (request_drawn rides requests q Hin) as (m & Hm & H1 & H2).
    { unfold has_origin, present. rewrite Ha, Hb. repeat split; discriminate. }
    exists m. split; [exact Hm|].
    destruct (cm_at m) as [x y]. simpl in *. congruence.
Qed.

(** *** Feeds that hold NaN *)

Lemma raw_ride_body_finite acc r :
  raw_ride_body acc (RawRide.of_ride r) = (Completed, ride_body acc r).
Proof.
  destruct r as [dr fl tl a b c d dt tm ty tyl ph].
  unfold raw_ride_body, ride_body, RawRide.of_ride. cbn.
  destruct (loose_eq_null a || loose_eq_null b || loose_eq_null c
            || loose_eq_null d); reflexivity.
Qed.

Lemma raw_request_body_finite acc q :
  raw_request_body acc (RawRequest.of_request q) = (Completed, request_body acc q).
Proof.
  destruct q as [pa fl tl a b dt tm fx pc nt ph].
  unfold raw_request_body, request_body, RawRequest.of_request. cbn.
  destruct (loose_eq_null a || loose_eq_null b); reflexivity.
Qed.

Lemma forEach_app {A} (body : layers → A → ending * layers) xs ys : ∀ acc,
  forEach body (xs ++ ys) acc
  = match forEach body xs acc with
    | (Completed, acc') => forEach body ys acc'
    | (Thrown, acc') => (Thrown, acc')
    end.
Proof.
  induction xs as [|x xs IH]; intros acc; simpl; [reflexivity|].
  destruct (body acc x) as [[|] acc']; [apply IH|reflexivity].
Qed.

Lemma forEach_rides_finite rides : ∀ acc,
  forEach raw_ride_body (RawRide.of_ride <$> rides) acc
  = (Completed, foldl ride_body acc rides).
Proof.
  induction rides as [|r rides IH]; intros acc; simpl; [reflexivity|].
  rewrite raw_ride_body_finite. apply IH.
Qed.

Lemma forEach_requests_finite requests : ∀ acc,
  forEach raw_request_body (RawRequest.of_request <$> requests) acc
  = (Completed, foldl request_body acc requests).
Proof.
  induction requests as [|q requests IH]; intros acc; simpl; [reflexivity|].
  rewrite raw_request_body_finite. apply IH.
Qed.

Lemma raw_render_finite rides requests :
  raw_render (RawRide.of_ride <$> rides) (RawRequest.of_request <$> requests)
  = (Completed, render rides requests).
Proof.
  unfold raw_render, render.
  rewrite forEach_rides_finite. apply forEach_requests_finite.
Qed.

Lemma raw_eq_null_present c : raw_present c → raw_eq_null c = false.
Proof.
  destruct c as [[| |x]|]; intros [H1 H2]; try reflexivity; congruence.
Qed.

Lemma raw_ride_body_NaN acc r : ride_with_NaN r → raw_ride_body acc r = (Thrown, acc).
Proof.
  intros [(H1 & H2 & H3 & H4) Hnan]. unfold raw_ride_body.
  rewrite !raw_eq_null_present by assumption. rewrite Hnan. reflexivity.
Qed.

Lemma raw_request_body_NaN acc q :
  request_with_NaN q → raw_request_body acc q = (Thrown, acc).
Proof.
  intros [(H1 & H2) Hnan]. unfold raw_request_body.
  rewrite !raw_eq_null_present by assumption. rewrite Hnan. reflexivity.
Qed.

Lemma raw_present_finite c : raw_present (Finite c) ↔ present c.
Proof.
  unfold raw_present, present. split; intros [H1 H2]; split; congruence.
Qed.

Lemma filter_rides_finite rides :
  length (filter raw_fully_coordinated (RawRide.of_ride <$> rides))
  = length (filter fully_coordinated rides).
Proof.
  induction rides as [|r rides IH]; [reflexivity|].
  rewrite fmap_cons.
  assert (H : raw_fully_coordinated (RawRide.of_ride r) ↔ fully_coordinated r).
  { unfold raw_fully_coordinated, fully_coordinated, RawRide.of_ride. cbn.
    rewrite !raw_present_finite. reflexivity. }
  destruct (decide (fully_coordinated r)) as [Hr|Hr].
  - rewrite !filter_cons_True by tauto. simpl. rewrite IH. reflexivity.
  - rewrite !filter_cons_False by tauto. exact IH.
Qed.

Lemma filter_requests_finite requests :
  length (filter raw_has_origin (RawRequest.of_request <$> requests))
  = length (filter has_origin requests).
Proof.
  induction requests as [|q requests IH]; [reflexivity|].
  rewrite fmap_cons.
  assert (H : raw_has_origin (RawRequest.of_request q) ↔ has_origin q).
  { unfold raw_has_origin, has_origin, RawRequest.of_request. cbn.
    rewrite !raw_present_finite. reflexivity. }
  destruct (decide (has_origin q)) as [Hq|Hq].
  - rewrite !filter_cons_True by tauto. simpl. rewrite IH. reflexivity.
  - rewrite !filter_cons_False by tauto. exact IH.
Qed.

(** A ride whose first coordinate is NaN gets past the guard and is not
    rendered, although none of its coordinates is null or undefined. *)
Lemma skipped_only_when_nullish_fails :
  ¬ skipped_only_when_nullish
      [raw_ride_between NaN (Finite (Num 0)) (Finite (Num 0)) (Finite (Num 0))] [].
Proof. intros [H _]. discriminate H. Qed.

(** C10, as the code has it: zero is falsy and so is NaN, and the guard
    lets both pass.  On a feed without NaN the rendering runs through, a
    record is skipped only when a required coordinate is null or
    undefined, and a record whose coordinates are numbers, zero
    included, is drawn at those numbers.  A record that gets past the
    guard with a NaN coordinate is not rendered: the exception ends the
    rendering there, with the records before it drawn and none after. *)
Theorem zero_present_NaN_stops :
  coord_truthy (Num 0) = false ∧ raw_truthy NaN = false
  ∧ raw_eq_null (Finite (Num 0)) = false ∧ raw_eq_null NaN = false
  ∧ (∀ (rides : list Ride.t) (requests : list Request.t),
       raw_render (RawRide.of_ride <$> rides) (RawRequest.of_request <$> requests)
       = (Completed, render rides requests)
       ∧ skipped_only_when_nullish
           (RawRide.of_ride <$> rides) (RawRequest.of_request <$> requests)
       ∧ (∀ r a b c d, r ∈ rides →
            Ride.from_lat r = Num a → Ride.from_lng r = Num b →
            Ride.to_lat r = Num c → Ride.to_lng r = Num d →
            ∃ line, line ∈ ridesLayer (render rides requests)
                    ∧ pl_from line = latLng a b ∧ pl_to line = latLng c d)
       ∧ (∀ q a b, q ∈ requests →
            Request.from_lat q = Num a → Request.from_lng q = Num b →
            ∃ m, m ∈ requestsLayer (render rides requests)
                 ∧ cm_at m = latLng a b))
  ∧ (∀ (before : list Ride.t) (r : RawRide.t) (after : list RawRide.t)
       (requests : list RawRequest.t),
       ride_with_NaN r →
       raw_render ((RawRide.of_ride <$> before) ++ r :: after) requests
       = (Thrown, render before []))
  ∧ (∀ (rides : list Ride.t) (before : list Request.t) (q : RawRequest.t)
       (after : list RawRequest.t),
       request_with_NaN q →
       raw_render (RawRide.of_ride <$> rides)
         ((RawRequest.of_request <$> before) ++ q :: after)
       = (Thrown, render rides before)).
Proof.
  split; [reflexivity|]. split; [reflexivity|].
  split; [reflexivity|]. split; [reflexivity|].
  split; [|split].
  - intros rides requests.
    destruct (zero_counts_as_present rides requests) as (_ & _ & _ & Hr & Hq).
    split; [apply raw_render_finite|]. split; [|split; assumption].
    unfold skipped_only_when_nullish. rewrite raw_render_finite. cbn [snd].
    rewrite filter_rides_finite, filter_requests_finite. split.
    + eapply Forall2_length, render_rides.
    + eapply Forall2_length, render_requests.
  - intros before r after requests Hnan. unfold raw_render.
    rewrite forEach_app, forEach_rides_finite. cbn [forEach].
    rewrite raw_ride_body_NaN by exact Hnan. reflexivity.
  - intros rides before q after Hnan. unfold raw_render.
    rewrite forEach_rides_finite, forEach_app, forEach_requests_finite.
    cbn [forEach]. rewrite raw_request_body_NaN by exact Hnan. reflexivity.
Qed.

Lemma zero_present_NaN_stops_witness :
  (∃ line, line ∈ ridesLayer (render [ride_between (Num 0) (Num 0) (Num 0) (Num 0)] [])
           ∧ pl_from line = latLng 0 0 ∧ pl_to line = latLng 0 0)
  ∧ (∃ m, m ∈ requestsLayer (render [] [request_at (Num 0) (Num 0)])
          ∧ cm_at m = latLng 0 0)
  ∧ raw_render
      ((RawRide.of_ride <$> [ride_between (Num 0) (Num 0) (Num 0) (Num 0)])
       ++ raw_ride_between (Finite (Num 0)) NaN (Finite (Num 0)) (Finite (Num 0))
       :: [RawRide.of_ride (ride_between (Num 1) (Num 1) (Num 1) (Num 1))])
      [raw_request_at (Finite (Num 0)) (Finite (Num 0))]
    = (Thrown, render [ride_between (Num 0) (Num 0) (Num 0) (Num 0)] [])
  ∧ raw_render (RawRide.of_ride <$> [])
      ((RawRequest.of_request <$> [])
       ++ raw_request_at NaN (Finite (Num 0))
       :: [raw_request_at (Finite (Num 0)) (Finite (Num 0))])
    = (Thrown, render [] []).
Proof.
  destruct zero_present_NaN_stops as (_ & _ & _ & _ & Hfin & Hride & Hreq).
  split; [|split; [|split]].
  - destruct (Hfin [ride_between (Num 0) (Num 0) (Num 0) (Num 0)] [])
      as (_ & _ & H & _).
    apply (H (ride_between (Num 0) (Num 0) (Num 0) (Num 0)));
      [apply list_elem_of_here|reflexivity..].
  - destruct (Hfin [] [request_at (Num 0) (Num 0)]) as (_ & _ & _ & H).
    apply (H (request_at (Num 0) (Num 0)));
      [apply list_elem_of_here|reflexivity..].
  - apply Hride. split; [|reflexivity].
    repeat split; discriminate.
  - apply Hreq. split; [|reflexivity].
    repeat split; discriminate.
Defined.

(** ** Writes into the form *)

Lemma same_controls_refl st : same_controls st st.
Proof. repeat split. Qed.

Lemma writes_only_refl w st : writes_only w st st.
Proof.
  split; [apply same_controls_refl|].
  exists []. rewrite app_nil_r. split; [reflexivity|constructor].
Qed.

Lemma writes_only_trans w st1 st2 st3 :
  writes_only w st1 st2 → writes_only w st2 st3 → writes_only w st1 st3.
Proof.
  intros [C1 (es1 & E1 & F1)] [C2 (es2 & E2 & F2)]. split.
  - unfold same_controls in *.
    destruct C1 as (?&?&?&?&?&?&?&?&?&?&?), C2 as (?&?&?&?&?&?&?&?&?&?&?).
    repeat split; congruence.
  - exists (es1 ++ es2). rewrite E2, E1, app_assoc.
    split; [reflexivity|]. apply Forall_app. auto.
Qed.

Lemma setFieldValue_writes w f v st : writes_only w st (setFieldValue w f v st).
Proof.
  unfold setFieldValue. destruct (fields st !! f); [|apply writes_only_refl].
  split; [repeat split|].
  exists [Assign w f v]. split; [reflexivity|].
  constructor; [|constructor]. exists f, v. reflexivity.
Qed.

Lemma setLatLngInputs_writes w lat lng which st :
  writes_only w st (setLatLngInputs w lat lng which st).
Proof.
  destruct which; unfold setLatLngInputs;
    repeat (eapply writes_only_trans; [|apply setFieldValue_writes]);
    apply writes_only_refl.
Qed.

Lemma label_callback_writes click label st :
  writes_only (Label click) st (label_callback click label st).
Proof.
  unfold label_callback. destruct (currentMode st);
    repeat (eapply writes_only_trans; [|apply setFieldValue_writes]);
    apply writes_only_refl.
Qed.

Lemma requests_made_app tr es :
  requests_made (tr ++ es) = requests_made tr + requests_made es.
Proof. unfold requests_made. rewrite List.filter_app, length_app. reflexivity. Qed.

Lemma requests_made_assigned w es :
  Forall (assigned_by w) es → requests_made es = 0.
Proof.
  unfold requests_made. induction 1 as [|e es (f & v & ->) _ IH]; simpl; auto.
Qed.

Lemma marker_calls_app m tr es :
  marker_calls m (tr ++ es) = marker_calls m tr ++ marker_calls m es.
Proof. unfold marker_calls. apply List.filter_app. Qed.

Lemma marker_calls_assigned m w es :
  Forall (assigned_by w) es → marker_calls m es = [].
Proof.
  unfold marker_calls. induction 1 as [|e es (f & v & ->) _ IH]; simpl; auto.
Qed.

(** The callback of a click, whatever the label, leaves everything but
    the form fields as it was and sends nothing. *)
Lemma reverseGeocode_writes ts click lat lng o st :
  writes_only (Label click) st
    (snd (reverseGeocode ts lat lng (Some (returns (label_callback click))) o st)).
Proof.
  unfold reverseGeocode, fetch, then_, catch_, call, returns.
  destruct o as [|res]; simpl; [apply label_callback_writes|].
  destruct (ok res); simpl; [|apply label_callback_writes].
  destruct (res_json res) as [data|e]; simpl; [|apply label_callback_writes].
  destruct (label_of ts data lat lng); simpl; apply label_callback_writes.
Qed.

(** What a map click does, call by call. *)
Lemma on_map_click_trace latlng st :
  let st' := on_map_click latlng st in
  let m := currentMode st in
  ∃ es,
    trace st' = trace st
                ++ marker_calls_of_click m (markerAdded m st) latlng
                ++ es ++ [Fetch (clicks st) latlng]
    ∧ Forall (assigned_by (Coordinates (clicks st))) es
    ∧ currentMode st' = m
    ∧ marker m st' = latlng ∧ markerAdded m st' = true
    ∧ marker (other m) st' = marker (other m) st
    ∧ markerAdded (other m) st' = markerAdded (other m) st
    ∧ pending st' = <[clicks st := latlng]> (pending st)
    ∧ clicks st' = S (clicks st)
    ∧ fromBtn st' = fromBtn st ∧ toBtn st' = toBtn st.
Proof.
  intros st' m. subst st' m. unfold on_map_click.
  match goal with
  | |- context [setLatLngInputs _ _ _ _ ?s] => set (st1 := s)
  end.
  assert (H1 : trace st1 = trace st
                 ++ marker_calls_of_click (currentMode st)
                      (markerAdded (currentMode st) st) latlng
               ∧ currentMode st1 = currentMode st
               ∧ marker (currentMode st) st1 = latlng
               ∧ markerAdded (currentMode st) st1 = true
               ∧ marker (other (currentMode st)) st1
                 = marker (other (currentMode st)) st
               ∧ markerAdded (other (currentMode st)) st1
                 = markerAdded (other (currentMode st)) st
               ∧ pending st1 = pending st ∧ clicks st1 = clicks st
               ∧ fromBtn st1 = fromBtn st ∧ toBtn st1 = toBtn st).
  { subst st1.
    destruct st as [[] fb tb fm tm [] [] fs ps n v ov tr]; simpl;
      rewrite <- ?app_assoc; repeat split. }
  destruct H1 as (T1 & M1 & P1 & A1 & P1' & A1' & Q1 & N1 & B1 & B1').
  destruct (setLatLngInputs_writes (Coordinates (clicks st)) (lat latlng)
              (lng latlng) (currentMode st1) st1)
    as [(C1&C2&C3&C4&C5&C6&C7&C8&C9&C10&C11) (es & E & F)].
  set (st2 := setLatLngInputs _ _ _ _ st1) in *.
  exists es. simpl. rewrite E, T1, C1, M1, C8, Q1, C2, C3, B1, B1'.
  rewrite <- !app_assoc.
  repeat split; auto.
  - rewrite <- P1. destruct (currentMode st); simpl; assumption.
  - rewrite <- A1. destruct (currentMode st); simpl; assumption.
  - rewrite <- P1'. destruct (currentMode st); simpl; assumption.
  - rewrite <- A1'. destruct (currentMode st); simpl; assumption.
Qed.

Lemma on_settled_trace ts click o st :
  let st' := on_settled ts click o st in
  ∃ es,
    trace st' = trace st ++ es
    ∧ Forall (assigned_by (Label click)) es
    ∧ (es ≠ [] → is_Some (pending st !! click))
    ∧ pending st' = delete click (pending st)
    ∧ clicks st' = clicks st
    ∧ currentMode st' = currentMode st
    ∧ (∀ m, marker m st' = marker m st ∧ markerAdded m st' = markerAdded m st).
Proof.
  simpl. unfold on_settled. destruct (pending st !! click) as [p|] eqn:Hp.
  - destruct (reverseGeocode_writes ts click (lat p) (lng p) o
                (set_pending (delete click (pending st)) (clicks st) st))
      as [(C1&C2&C3&C4&C5&C6&C7&C8&C9&C10&C11) (es & E & F)].
    exists es. rewrite E, C1, C8, C9. simpl.
    repeat split; auto; destruct m; simpl; assumption.
  - exists []. rewrite app_nil_r, delete_id by assumption.
    repeat split; auto. congruence.
Qed.

Lemma on_mode_click_frame m st :
  let st' := on_mode_click m st in
  trace st' = trace st ∧ pending st' = pending st ∧ clicks st' = clicks st
  ∧ (∀ m', marker m' st' = marker m' st ∧ markerAdded m' st' = markerAdded m' st).
Proof.
  simpl. unfold on_mode_click.
  destruct m; [destruct (fromBtn st)|destruct (toBtn st)]; simpl;
    repeat split; destruct m'; reflexivity.
Qed.

(** ** Reverse geocoding *)

(** *** What toFixed prints *)

Lemma numeral_from_string_of_uint d : ∀ acc,
  numeral_from acc (NilEmpty.string_of_uint d)
  = Some (acc * 10 ^ DecimalPos.Unsigned.usize d
          + DecimalPos.Unsigned.of_lu (Decimal.rev d))%N.
Proof.
  induction d; intros acc;
    [simpl; f_equal; lia|..];
    cbn [NilEmpty.string_of_uint numeral_from];
    (match goal with |- context [digit_value ?c] =>
       let v := eval vm_compute in (digit_value c) in
       change (digit_value c) with v end);
    cbv iota beta; rewrite IHd; f_equal;
    unfold Decimal.rev; cbn [Decimal.revapp DecimalPos.Unsigned.usize];
    rewrite (DecimalPos.Unsigned.of_lu_revapp d (_ Decimal.Nil));
    cbn [DecimalPos.Unsigned.of_lu]; rewrite N.pow_succ_r';
    unfold Decimal.rev; lia.
Qed.

Lemma to_uint_nonnil n : N.to_uint n ≠ Decimal.Nil.
Proof. destruct n; [discriminate|apply DecimalPos.Unsigned.to_uint_nonnil]. Qed.

Lemma digits_printed n :
  Number.digits n = NilEmpty.string_of_uint (N.to_uint (Z.to_N n)).
Proof.
  unfold Number.digits, NilZero.string_of_uint.
  pose proof (to_uint_nonnil (Z.to_N n)) as H.
  destruct (N.to_uint (Z.to_N n)); [congruence|reflexivity..].
Qed.

Lemma numeral_digits n : numeral_value (Number.digits n) = Some (Z.to_N n).
Proof.
  unfold numeral_value.
  rewrite digits_printed, numeral_from_string_of_uint,
    <- DecimalPos.Unsigned.of_uint_alt.
  f_equal. rewrite N.mul_0_l, N.add_0_l. apply DecimalN.Unsigned.of_to.
Qed.

Lemma numeral_zeros j s : numeral_value (Number.zeros j +:+ s) = numeral_value s.
Proof. induction j as [|j IH]; [reflexivity|exact IH]. Qed.

Lemma length_append s t :
  String.length (s +:+ t) = String.length s + String.length t.
Proof.
  induction s as [|c s IH]; [reflexivity|].
  change (S (String.length (s +:+ t)) = S (String.length s) + String.length t).
  rewrite IH. reflexivity.
Qed.

Lemma length_zeros j : String.length (Number.zeros j) = j.
Proof. induction j as [|j IH]; [reflexivity|]. exact (f_equal S IH). Qed.

Lemma substring_all s : String.substring 0 (String.length s) s = s.
Proof. induction s as [|c s IH]; simpl; [reflexivity|rewrite IH; reflexivity]. Qed.

Lemma substring_split s : ∀ k, k ≤ String.length s →
  String.substring 0 k s +:+ String.substring k (String.length s - k) s = s.
Proof.
  induction s as [|c s IH]; intros [|k] Hk; simpl in *; try reflexivity; try lia.
  - rewrite substring_all. reflexivity.
  - change (String c (String.substring 0 k s
                        +:+ String.substring k (String.length s - k) s)
            = String c s).
    f_equal. apply IH. lia.
Qed.

Lemma length_substring s : ∀ n m, n + m ≤ String.length s →
  String.length (String.substring n m s) = m.
Proof.
  induction s as [|c s IH]; intros [|n] [|m] H; simpl in *; try reflexivity; try lia.
  - rewrite (IH 0 m) by lia. reflexivity.
  - apply (IH n 0). lia.
  - apply (IH n (S m)). lia.
Qed.

(** A printed number that is not zero does not start with the digit 0. *)
Lemma digits_head n : (0 < n)%Z → String.prefix "0" (Number.digits n) = false.
Proof.
  intros Hn. rewrite digits_printed.
  pose proof (DecimalN.Unsigned.of_to (Z.to_N n)) as Hof.
  pose proof (DecimalN.Unsigned.to_of (N.to_uint (Z.to_N n))) as Hto.
  rewrite Hof in Hto. clear Hof.
  destruct (N.to_uint (Z.to_N n)) as [|d| | | | | | | | |] eqn:E; try reflexivity.
  exfalso. unfold Decimal.unorm in Hto. cbn [Decimal.nzhead] in Hto.
  pose proof (nzhead_nonzero d) as Hz.
  destruct (Decimal.nzhead d) eqn:Ez; try discriminate Hto.
  - assert (Z.to_N n = 0%N) as H0.
    { apply DecimalN.Unsigned.to_uint_inj. rewrite E, Hto. reflexivity. }
    lia.
  - eapply Hz. reflexivity.
Qed.

Lemma nearest_nonneg f x : (0 <= x)%Q → (0 ≤ Number.nearest f x)%Z.
Proof.
  intros Hx. unfold Number.nearest. apply Z.div_pos; [|lia].
  unfold Qle in Hx. simpl in Hx.
  assert (0 ≤ Qnum x)%Z by lia.
  assert (0 < 10 ^ Z.of_nat f)%Z by (apply Z.pow_pos_nonneg; lia). nia.
Qed.

Lemma nearest_bounds f x :
  (x * inject_Z (10 ^ Z.of_nat f) - (1 # 2) < inject_Z (Number.nearest f x))%Q
  ∧ (inject_Z (Number.nearest f x) <= x * inject_Z (10 ^ Z.of_nat f) + (1 # 2))%Q.
Proof.
  unfold Number.nearest. destruct x as [a b].
  set (T := (10 ^ Z.of_nat f)%Z).
  cbn [Qnum Qden].
  pose proof (Z.div_mod (2 * a * T + Z.pos b) (2 * Z.pos b) ltac:(lia)) as Hd.
  pose proof (Z.mod_pos_bound (2 * a * T + Z.pos b) (2 * Z.pos b) ltac:(lia)) as Hm.
  set (q := ((2 * a * T + Z.pos b) / (2 * Z.pos b))%Z) in *.
  set (r := ((2 * a * T + Z.pos b) mod (2 * Z.pos b))%Z) in *.
  unfold Qlt, Qle, Qminus, Qplus, Qmult, Qopp, inject_Z. cbn [Qnum Qden].
  rewrite ?Pos2Z.inj_mul. split; nia.
Qed.

Lemma prefix_0_head c s t :
  String.prefix "0" (String c s) = String.prefix "0" (String c t).
Proof.
  change (String.prefix "0" (String c s))
    with (if Ascii.ascii_dec (Ascii.Ascii false false false false true true false false) c
          then String.prefix "" s else false).
  change (String.prefix "0" (String c t))
    with (if Ascii.ascii_dec (Ascii.Ascii false false false false true true false false) c
          then String.prefix "" t else false).
  destruct (Ascii.ascii_dec _ c); [|reflexivity].
  destruct s, t; reflexivity.
Qed.

Lemma substring_0_1 c t : String.substring 0 1 (String c t) = String c "".
Proof. destruct t; reflexivity. Qed.

Lemma point_rendered f n :
  (0 ≤ n)%Z →
  ∃ int frac,
    Number.point (S f) (Number.digits n) = int +:+ "." +:+ frac
    ∧ String.length frac = S f
    ∧ int ≠ ""%string
    ∧ (int = "0"%string ∨ String.prefix "0" int = false)
    ∧ numeral_value (int +:+ frac) = Some (Z.to_N n).
Proof.
  intros Hn. unfold Number.point.
  set (m := Number.digits n).
  destruct (Nat.leb (String.length m) (S f)) eqn:Hlen.
  - apply Nat.leb_le in Hlen.
    replace (S (S f) - String.length m) with (S (S f - String.length m)) by lia.
    set (m' := Number.zeros (S (S f - String.length m)) +:+ m).
    assert (Hk : String.length m' = S (S f)).
    { subst m'. rewrite length_append, length_zeros. lia. }
    rewrite Hk. replace (S (S f) - S f) with 1 by lia.
    exists (String.substring 0 1 m'), (String.substring 1 (S f) m').
    split; [reflexivity|]. split; [apply length_substring; lia|].
    assert (H0 : String.substring 0 1 m' = "0"%string).
    { subst m'. exact (substring_0_1 _ (Number.zeros _ +:+ m)). }
    rewrite H0 at 2 3. split; [discriminate|]. split; [left; reflexivity|].
    replace (S f) with (String.length m' - 1) at 1 by lia.
    rewrite substring_split by lia.
    subst m'. rewrite numeral_zeros. apply numeral_digits.
  - apply Nat.leb_gt in Hlen.
    set (k := String.length m) in *.
    exists (String.substring 0 (k - S f) m), (String.substring (k - S f) (S f) m).
    split; [reflexivity|]. split; [apply length_substring; lia|].
    assert (Hint : String.length (String.substring 0 (k - S f) m) = k - S f)
      by (apply length_substring; lia).
    split; [intros E; rewrite E in Hint; simpl in Hint; lia|].
    split.
    + right.
      assert (Hpos : (0 < n)%Z).
      { destruct (Z.eq_dec n 0%Z) as [E|]; [|lia].
        subst n k m. change (Number.digits 0) with "0"%string in Hlen.
        simpl in Hlen. lia. }
      pose proof (digits_head n Hpos) as Hh. fold m in Hh.
      destruct m as [|c t]; [subst k; simpl in Hlen; lia|].
      replace (k - S f) with (S (k - S f - 1)) by lia.
      change (String.substring 0 (S (k - S f - 1)) (String c t))
        with (String c (String.substring 0 (k - S f - 1) t)).
      rewrite (prefix_0_head c _ t). exact Hh.
    + assert (E : String.substring (k - S f) (S f) m
                  = String.substring (k - S f) (String.length m - (k - S f)) m)
        by (f_equal; lia).
      rewrite E, substring_split by lia. apply numeral_digits.
Qed.

Lemma toFixed_rendered ts f x :
  (Qabs x < inject_Z (10 ^ 21))%Q →
  rendered_to (S f) x (Number.toFixed ts (S f) x).
Proof.
  intros Hx. unfold Number.toFixed.
  set (x' := if Qle_bool 0 x then x else (- x)%Q).
  assert (Hx' : x' == Qabs x ∧ (0 <= x')%Q).
  { subst x'. destruct (Qle_bool 0 x) eqn:H0.
    - apply Qle_bool_iff in H0. split; [symmetry; apply Qabs_pos|]; exact H0.
    - assert (x < 0)%Q as Hneg.
      { apply Qnot_le_lt. intros H. apply Qle_bool_iff in H. congruence. }
      split; [symmetry; apply Qabs_neg; apply Qlt_le_weak; exact Hneg|].
      apply (Qopp_le_compat x 0), Qlt_le_weak, Hneg. }
  destruct Hx' as [Habs Hnn].
  assert (Hbig : Qle_bool (inject_Z (10 ^ 21)) x' = false).
  { destruct (Qle_bool (inject_Z (10 ^ 21)) x') eqn:H; [|reflexivity].
    apply Qle_bool_iff in H. rewrite Habs in H.
    exfalso. exact (Qlt_not_le _ _ Hx H). }
  rewrite Hbig.
  pose proof (nearest_nonneg (S f) x' Hnn) as Hn.
  destruct (point_rendered f (Number.nearest (S f) x') Hn)
    as (int & frac & -> & Hfrac & Hint & Hlead & Hval).
  destruct (nearest_bounds (S f) x') as [B1 B2].
  exists int, frac, (Z.to_N (Number.nearest (S f) x')).
  rewrite Z2N.id by exact Hn. rewrite <- Habs.
  repeat split; assumption.
Qed.

(** *** A rendering is determined by the number *)

Lemma digit_value_bound c d : digit_value c = Some d → (d < 10)%N.
Proof.
  unfold digit_value.
  destruct (_ && _) eqn:E; [|discriminate].
  intros [= <-]. apply andb_true_iff in E as [E1 E2].
  apply N.leb_le in E1, E2. lia.
Qed.

Lemma digit_value_inj c c' d :
  digit_value c = Some d → digit_value c' = Some d → c = c'.
Proof.
  unfold digit_value.
  destruct (_ && _) eqn:E; [|discriminate].
  destruct ((48 <=? Ascii.N_of_ascii c')%N && _) eqn:E'; [|discriminate].
  intros [= <-] [= H].
  apply andb_true_iff in E as [E1 E2]. apply andb_true_iff in E' as [E1' E2'].
  apply N.leb_le in E1, E2, E1', E2'.
  rewrite <- (Ascii.ascii_N_embedding c), <- (Ascii.ascii_N_embedding c').
  f_equal. lia.
Qed.

Lemma numeral_from_linear s : ∀ acc v,
  numeral_from acc s = Some v →
  ∃ w, numeral_from 0 s = Some w
       ∧ (w < 10 ^ N.of_nat (String.length s))%N
       ∧ v = (acc * 10 ^ N.of_nat (String.length s) + w)%N.
Proof.
  induction s as [|c s IH]; intros acc v; cbn [numeral_from String.length].
  - intros [= <-]. exists 0%N. split; [reflexivity|]. simpl. lia.
  - destruct (digit_value c) as [d|] eqn:Hd; [|discriminate].
    intros H. pose proof (digit_value_bound c d Hd) as Hb.
    destruct (IH _ _ H) as (w & Hw & Hlt & ->).
    replace (10 * 0 + d)%N with d by lia.
    destruct (numeral_from d s) as [v'|] eqn:E.
    + destruct (IH _ _ E) as (w' & Hw' & _ & ->).
      rewrite Hw in Hw'. injection Hw' as <-.
      exists (d * 10 ^ N.of_nat (String.length s) + w)%N.
      split; [reflexivity|].
      rewrite Nat2N.inj_succ, N.pow_succ_r'. split; nia.
    + exfalso. clear -Hw E. revert E Hw. generalize 0%N at 1. generalize d.
      induction s as [|c' s IH']; intros a b; cbn [numeral_from]; [discriminate|].
      destruct (digit_value c'); [|discriminate]. apply IH'.
Qed.

Lemma numeral_from_append a b : ∀ acc,
  numeral_from acc (a +:+ b)
  = match numeral_from acc a with
    | Some v => numeral_from v b
    | None => None
    end.
Proof.
  induction a as [|c a IH]; intros acc; [reflexivity|].
  change (String c a +:+ b) with (String c (a +:+ b)). cbn [numeral_from].
  destruct (digit_value c); [apply IH|reflexivity].
Qed.

Lemma numeral_same_length s : ∀ s' w,
  String.length s = String.length s' →
  numeral_value s = Some w → numeral_value s' = Some w → s = s'.
Proof.
  unfold numeral_value.
  induction s as [|c s IH]; intros [|c' s'] w Hlen; try discriminate Hlen;
    [reflexivity|].
  injection Hlen as Hlen. cbn [numeral_from].
  destruct (digit_value c) as [d|] eqn:Hd; [|discriminate].
  destruct (digit_value c') as [d'|] eqn:Hd'; [|discriminate].
  replace (10 * 0 + d)%N with d by lia. replace (10 * 0 + d')%N with d' by lia.
  intros H H'.
  destruct (numeral_from_linear _ _ _ H) as (v & Hv & Hlt & ->).
  destruct (numeral_from_linear _ _ _ H') as (v' & Hv' & Hlt' & E).
  rewrite <- Hlen in *.
  set (T := (10 ^ N.of_nat (String.length s))%N) in *.
  assert (d = d' ∧ v = v') as [-> ->]
    by (apply (N.div_mod_unique T); [assumption..|lia]).
  f_equal; [eapply digit_value_inj; eassumption|].
  eapply IH; eassumption.
Qed.

(** A numeral without a leading zero has exactly as many digits as its
    value needs. *)
Lemma numeral_size c s w :
  String.prefix "0" (String c s) = false →
  numeral_value (String c s) = Some w →
  (10 ^ N.of_nat (String.length s) <= w < 10 ^ N.of_nat (S (String.length s)))%N.
Proof.
  unfold numeral_value. cbn [numeral_from]. intros Hz.
  destruct (digit_value c) as [d|] eqn:Hd; [|discriminate].
  replace (10 * 0 + d)%N with d by lia. intros H.
  destruct (numeral_from_linear _ _ _ H) as (v & _ & Hlt & ->).
  pose proof (digit_value_bound c d Hd) as Hb.
  assert (d ≠ 0%N) as Hnz.
  { intros ->.
    assert (c = Ascii.Ascii false false false false true true false false) as ->
      by (eapply digit_value_inj; [exact Hd|reflexivity]).
    destruct s; discriminate Hz. }
  rewrite Nat2N.inj_succ, N.pow_succ_r'. nia.
Qed.

Lemma numeral_normal s s' w :
  s ≠ ""%string → s' ≠ ""%string →
  (s = "0"%string ∨ String.prefix "0" s = false) →
  (s' = "0"%string ∨ String.prefix "0" s' = false) →
  numeral_value s = Some w → numeral_value s' = Some w → s = s'.
Proof.
  intros Hs Hs' Hn Hn' Hw Hw'.
  destruct s as [|c t]; [congruence|]. destruct s' as [|c' t']; [congruence|].
  assert (Hpos : ∀ c t v, String.prefix "0" (String c t) = false →
                          numeral_value (String c t) = Some v → (0 < v)%N).
  { intros c0 t0 v Hz Hv. destruct (numeral_size c0 t0 v Hz Hv) as [H _].
    pose proof (N.pow_nonzero 10 (N.of_nat (String.length t0)) ltac:(lia)). lia. }
  destruct Hn as [Hn|Hn], Hn' as [Hn'|Hn'].
  - congruence.
  - rewrite Hn in Hw. injection Hw as <-.
    pose proof (Hpos _ _ _ Hn' Hw'). lia.
  - rewrite Hn' in Hw'. injection Hw' as <-.
    pose proof (Hpos _ _ _ Hn Hw). lia.
  - destruct (numeral_size _ _ _ Hn Hw) as [L U].
    destruct (numeral_size _ _ _ Hn' Hw') as [L' U'].
    apply (numeral_same_length _ _ w); [|assumption..].
    cbn [String.length]. f_equal.
    destruct (Nat.lt_trichotomy (String.length t) (String.length t'))
      as [Hlt|[Heq|Hlt]]; [|exact Heq|]; exfalso.
    + assert (10 ^ N.of_nat (S (String.length t))
              <= 10 ^ N.of_nat (String.length t'))%N
        by (apply N.pow_le_mono_r; lia).
      lia.
    + assert (10 ^ N.of_nat (S (String.length t'))
              <= 10 ^ N.of_nat (String.length t))%N
        by (apply N.pow_le_mono_r; lia).
      lia.
Qed.

(** The rendering determines the string. *)
Lemma rendered_to_unique f x s s' :
  rendered_to f x s → rendered_to f x s' → s = s'.
Proof.
  intros (int & frac & n & -> & Hf & Hi & Hz & Hv & L & U)
         (int' & frac' & n' & -> & Hf' & Hi' & Hz' & Hv' & L' & U').
  assert (n = n') as <-.
  { revert L U L' U'. generalize (Qabs x * inject_Z (10 ^ Z.of_nat f))%Q.
    intros [p d]. unfold Qlt, Qle, Qminus, Qplus, Qopp, inject_Z.
    cbn [Qnum Qden]. rewrite ?Pos2Z.inj_mul. intros L U L' U'.
    assert (Z.pos d * Z.of_N n < Z.pos d * (Z.of_N n' + 1))%Z as H1 by lia.
    assert (Z.pos d * Z.of_N n' < Z.pos d * (Z.of_N n + 1))%Z as H2 by lia.
    apply Z.mul_lt_mono_pos_l in H1, H2; lia. }
  unfold numeral_value in Hv, Hv'. rewrite numeral_from_append in Hv, Hv'.
  destruct (numeral_from 0 int) as [a|] eqn:Ha; [|discriminate].
  destruct (numeral_from 0 int') as [a'|] eqn:Ha'; [|discriminate].
  destruct (numeral_from_linear _ _ _ Hv) as (w & Hw & Hlt & E).
  destruct (numeral_from_linear _ _ _ Hv') as (w' & Hw' & Hlt' & E').
  rewrite Hf in *. rewrite Hf' in *.
  set (T := (10 ^ N.of_nat f)%N) in *.
  assert (a = a' ∧ w = w') as [<- <-]
    by (apply (N.div_mod_unique T); [assumption..|lia]).
  assert (int = int') as <- by (eapply numeral_normal; eassumption).
  assert (frac = frac') as <-
    by (eapply numeral_same_length; [congruence|eassumption..]).
  reflexivity.
Qed.

Lemma numeric_fallback_unique lat lng label label' :
  numeric_fallback lat lng label → numeric_fallback lat lng label' →
  label = label'.
Proof.
  intros (a & b & Ha & Hb & ->) (a' & b' & Ha' & Hb' & ->).
  rewrite (rendered_to_unique _ _ _ _ Ha Ha'), (rendered_to_unique _ _ _ _ Hb Hb').
  reflexivity.
Qed.

(** The label the code falls back to is the numeric fallback of the
    specification. *)
Lemma numeric_label_fallback ts lat lng :
  positional lat → positional lng →
  numeric_fallback lat lng (numeric_label ts lat lng).
Proof.
  intros Hlat Hlng.
  exists (Number.toFixed ts 5 lat), (Number.toFixed ts 5 lng).
  split; [apply toFixed_rendered; exact Hlat|].
  split; [apply toFixed_rendered; exact Hlng|reflexivity].
Qed.

Example toFixed_42_8 ts : Number.toFixed ts 5 (428 # 10) = "42.80000"%string.
Proof. reflexivity. Qed.

Example toFixed_tie ts : Number.toFixed ts 5 (23799995 # 1000000) = "23.80000"%string.
Proof. reflexivity. Qed.

Example toFixed_negative ts : Number.toFixed ts 5 (-1 # 1000000) = "-0.00000"%string.
Proof. reflexivity. Qed.

(** The number that the literal 42.8 denotes in binary64 prints the same. *)
Example toFixed_42_8_binary64 ts :
  Number.toFixed ts 5 (3011782250804019 # 70368744177664) = "42.80000"%string.
Proof. reflexivity. Qed.

Lemma label_of_priority ts data lat lng :
  match label_of ts data lat lng with
  | Return label => label = priority_label ts data lat lng
  | Throw _ => priority_label ts data lat lng = numeric_label ts lat lng
  end.
Proof.
  unfold label_of, priority_label, or_, and_, mbind, result_bind.
  destruct data as [| | | | |props]; simpl; try reflexivity.
  destruct (own_property props "address") as [[|b|q|s|items|aprops]|] eqn:Ha;
    simpl;
    repeat (match goal with
            | |- context [if ?c then _ else _] => destruct c eqn:?; simpl
            end);
    try reflexivity; congruence.
Qed.

Example numeric_label_samples ts :
  numeric_label ts (428 # 10) (238 # 10) = Some (JStr "42.80000, 23.80000")
  ∧ numeric_label ts (-1 # 3) 100 = Some (JStr "-0.33333, 100.00000")
  ∧ numeric_label ts (4278 # 100) (-2378 # 100) = Some (JStr "42.78000, -23.78000")
  ∧ numeric_label ts 0 (1234567 # 1000000) = Some (JStr "0.00000, 1.23457").
Proof. repeat split. Qed.

Lemma label_of_returns ts data lat lng :
  data ≠ JNull → ∃ label, label_of ts data lat lng = Return label.
Proof.
  intros Hd.
  destruct (label_of ts data lat lng) as [label|e] eqn:E; [eauto|].
  exfalso. revert E.
  unfold label_of, or_, and_, mbind, result_bind.
  destruct data as [| | | | |props]; simpl; try discriminate; [congruence|].
  destruct (own_property props "address") as [[|b|q|s|items|aprops]|] eqn:Ha;
    simpl;
    repeat (match goal with
            | |- context [if ?c then _ else _] => destruct c eqn:?; simpl
            end);
    discriminate.
Qed.

Lemma numeric_label_truthy ts lat lng : ToBoolean (numeric_label ts lat lng) = true.
Proof.
  unfold numeric_label, ToBoolean.
  destruct (Number.toFixed ts 5 lat) as [|c s]; reflexivity.
Qed.

Lemma first_present_truthy cs fallback :
  ToBoolean fallback = true → ToBoolean (first_present cs fallback) = true.
Proof.
  intros Hf. induction cs as [|c cs IH]; simpl; [exact Hf|].
  destruct (ToBoolean c) eqn:Hc; [exact Hc|exact IH].
Qed.

Lemma resolved_label_truthy ts o lat lng :
  ToBoolean (resolved_label ts o lat lng) = true.
Proof.
  unfold resolved_label.
  destruct o as [|res]; [apply numeric_label_truthy|].
  destruct (ok res); [|apply numeric_label_truthy].
  destruct (body res); [|apply numeric_label_truthy].
  apply first_present_truthy, numeric_label_truthy.
Qed.

(** A callback that runs to its end on the label is called that once,
    and the chain ends fulfilled. *)
Lemma reverseGeocode_resolved ts {S} lat lng
    (callback : option (value → S → settled S unit)) o s s' :
  call callback (resolved_label ts o lat lng) s = (Return (), s') →
  reverseGeocode ts lat lng callback o s = (Return (), s').
Proof.
  unfold reverseGeocode, resolved_label, fetch, then_, catch_, res_json.
  destruct o as [|res]; [intros ->; reflexivity|].
  destruct (ok res); simpl; [|intros ->; reflexivity].
  destruct (body res) as [data|]; [|intros ->; reflexivity].
  pose proof (label_of_priority ts data lat lng) as H.
  destruct (label_of ts data lat lng) as [label|e]; simpl; rewrite H;
    intros ->; reflexivity.
Qed.

(** A callback that throws on the label: when that call was made in the
    second [then], the [catch] calls it again with the numeric label;
    when it was made in the [catch], the chain ends rejected. *)
Lemma reverseGeocode_thrown ts {S} lat lng
    (callback : value → S → settled S unit) o s e s' :
  callback (resolved_label ts o lat lng) s = (Throw e, s') →
  reverseGeocode ts lat lng (Some callback) o s
  = if labelled_in_then o then callback (numeric_label ts lat lng) s'
    else (Throw e, s').
Proof.
  unfold reverseGeocode, resolved_label, labelled_in_then, fetch, then_, catch_,
    res_json, call.
  destruct o as [|res]; [intros ->; reflexivity|].
  destruct (ok res); simpl; [|intros ->; reflexivity].
  destruct (body res) as [data|]; [|intros ->; reflexivity].
  destruct data as [|b|q|str|items|props];
    [intros H; exact H|..];
    (match goal with
     | |- context [label_of ts ?d lat lng] =>
         pose proof (label_of_priority ts d lat lng) as H;
         destruct (label_of_returns ts d lat lng ltac:(discriminate))
           as (label & E);
         rewrite E in *; subst label
     end);
    intros ->; reflexivity.
Qed.

Lemma on_settled_resolved ts click o st p :
  pending st !! click = Some p →
  on_settled ts click o st
  = label_callback click (resolved_label ts o (lat p) (lng p))
      (set_pending (delete click (pending st)) (clicks st) st).
Proof.
  intros Hp. unfold on_settled. rewrite Hp.
  erewrite reverseGeocode_resolved; reflexivity.
Qed.

Lemma resolved_label_failed ts o lat lng :
  attempt_failed o → resolved_label ts o lat lng = numeric_label ts lat lng.
Proof.
  unfold resolved_label. destruct o as [|res]; [reflexivity|].
  destruct (ok res) eqn:Hok; [|reflexivity].
  intros [H|[H|(d & H & Hd)]]; [congruence|rewrite H; reflexivity|].
  rewrite H. destruct d; try discriminate Hd; reflexivity.
Qed.

(** C4: when the reply is a success and its body is JSON, the label is
    the first present of address.village, address.town, address.city and
    display_name, and when none is present the numeric fallback: the
    clicked latitude and longitude, each rendered to 5 decimal places,
    joined by a comma and a space; there is exactly one such string.
    Present means holding a value that is not falsy.  A callback that
    runs to its end on that label is called with it once, and the chain
    ends fulfilled.  The coordinates are taken below 10^21 in magnitude,
    where toFixed prints every digit. *)
Theorem label_priority (ts : Q → string) (lat lng : Q) (res : Response)
    (data : json) :
  ok res = true → body res = Some data →
  positional lat → positional lng →
  ∃ fallback,
    numeric_fallback lat lng fallback
    ∧ (∀ other, numeric_fallback lat lng other → other = fallback)
    ∧ ∀ (S : Type) (callback : value → S → settled S unit) (s s' : S),
        callback (by_priority data fallback) s = (Return (), s') →
        reverseGeocode ts lat lng (Some callback) (Responds res) s
        = (Return (), s').
Proof.
  intros Hok Hbody Hlat Hlng.
  pose proof (numeric_label_fallback ts lat lng Hlat Hlng) as Hfb.
  exists (numeric_label ts lat lng).
  split; [exact Hfb|].
  split; [intros other Ho; exact (numeric_fallback_unique _ _ _ _ Ho Hfb)|].
  intros S callback s s' H. apply reverseGeocode_resolved.
  unfold call, resolved_label. rewrite Hok, Hbody. exact H.
Qed.

Lemma label_priority_witness :
  numeric_fallback (428 # 10) (238 # 10) (Some (JStr "42.80000, 23.80000"))
  ∧ reverseGeocode (λ _, ""%string) (428 # 10) (238 # 10)
      (Some (returns record_label))
      (Responds {| status := 200;
                   body := Some (JObj [("address"%string,
                                        JObj [("village"%string, JStr "Осойца")])]) |})
      []
    = (Return (), [Some (JStr "Осойца")])
  ∧ reverseGeocode (λ _, ""%string) (428 # 10) (238 # 10)
      (Some (returns record_label))
      (Responds {| status := 200;
                   body := Some (JObj [("display_name"%string, JStr "X, Y")]) |})
      []
    = (Return (), [Some (JStr "X, Y")])
  ∧ reverseGeocode (λ _, ""%string) (-1 # 3) 100
      (Some (returns record_label))
      (Responds {| status := 200; body := Some (JObj []) |}) []
    = (Return (), [Some (JStr "-0.33333, 100.00000")]).
Proof.
  split; [|split; [|split]].
  - destruct (label_priority (λ _, ""%string) (428 # 10) (238 # 10)
                {| status := 200; body := Some (JObj []) |} (JObj []))
      as (fallback & Hf & _ & H); [reflexivity..|].
    specialize (H (list value) (returns record_label) [] [fallback] eq_refl).
    injection H as <-. exact Hf.
  - destruct (label_priority (λ _, ""%string) (428 # 10) (238 # 10)
                {| status := 200;
                   body := Some (JObj [("address"%string,
                                        JObj [("village"%string, JStr "Осойца")])]) |}
                (JObj [("address"%string, JObj [("village"%string, JStr "Осойца")])]))
      as (fallback & _ & _ & H); [reflexivity..|].
    apply H. reflexivity.
  - destruct (label_priority (λ _, ""%string) (428 # 10) (238 # 10)
                {| status := 200;
                   body := Some (JObj [("display_name"%string, JStr "X, Y")]) |}
                (JObj [("display_name"%string, JStr "X, Y")]))
      as (fallback & _ & _ & H); [reflexivity..|].
    apply H. reflexivity.
  - destruct (label_priority (λ _, ""%string) (-1 # 3) 100
                {| status := 200; body := Some (JObj []) |} (JObj []))
      as (fallback & _ & _ & H); [reflexivity..|].
    specialize (H (list value) (returns record_label) [] [fallback] eq_refl).
    injection H as <-. reflexivity.
Defined.

(** C5: a lookup that fails, by a network error, a status that is not a
    success, or a payload that is not JSON or not an object, comes to
    the numeric fallback: the clicked latitude and longitude, each
    rendered to 5 decimal places, joined by a comma and a space; there
    is exactly one such string.  A callback that runs to its end on it
    is called with it exactly once and the chain ends fulfilled; in the
    page, the label is written by the callback of that click, the lookup
    is no longer pending and no further request is sent.  The
    coordinates are taken below 10^21 in magnitude, where toFixed prints
    every digit. *)
Theorem failure_yields_fallback (ts : Q → string) (lat lng : Q) (o : fetch_outcome) :
  attempt_failed o → positional lat → positional lng →
  ∃ fallback,
    numeric_fallback lat lng fallback
    ∧ (∀ other, numeric_fallback lat lng other → other = fallback)
    ∧ (∀ (S : Type) (callback : value → S → settled S unit) (s s' : S),
         callback fallback s = (Return (), s') →
         reverseGeocode ts lat lng (Some callback) o s = (Return (), s'))
    ∧ reverseGeocode ts lat lng (Some (returns record_label)) o []
      = (Return (), [fallback])
    ∧ (∀ st click,
         pending st !! click = Some (latLng lat lng) →
         on_settled ts click o st
         = label_callback click fallback
             (set_pending (delete click (pending st)) (clicks st) st)
         ∧ pending (on_settled ts click o st) !! click = None
         ∧ requests_made (trace (on_settled ts click o st))
           = requests_made (trace st)).
Proof.
  intros Hfail Hlat Hlng.
  pose proof (resolved_label_failed ts o lat lng Hfail) as Hres.
  pose proof (numeric_label_fallback ts lat lng Hlat Hlng) as Hfb.
  exists (numeric_label ts lat lng).
  split; [exact Hfb|].
  split; [intros other Ho; exact (numeric_fallback_unique _ _ _ _ Ho Hfb)|].
  assert (Hgen : ∀ (S : Type) (callback : value → S → settled S unit) (s s' : S),
             callback (numeric_label ts lat lng) s = (Return (), s') →
             reverseGeocode ts lat lng (Some callback) o s = (Return (), s')).
  { intros S callback s s' H. apply reverseGeocode_resolved.
    rewrite Hres. exact H. }
  split; [exact Hgen|]. split.
  - apply Hgen. reflexivity.
  - intros st click Hp. split; [|split].
    + rewrite (on_settled_resolved ts click o st _ Hp). cbn [Leaflet.lat Leaflet.lng].
      rewrite Hres. reflexivity.
    + destruct (on_settled_trace ts click o st) as (es & _ & _ & _ & P & _).
      rewrite P. apply lookup_delete_eq.
    + destruct (on_settled_trace ts click o st) as (es & T & F & _).
      rewrite T, requests_made_app, (requests_made_assigned _ _ F). lia.
Qed.

Lemma failure_yields_fallback_witness :
  numeric_fallback (428 # 10) (238 # 10) (Some (JStr "42.80000, 23.80000"))
  ∧ reverseGeocode (λ _, ""%string) (428 # 10) (238 # 10)
      (Some (returns record_label))
      (Responds {| status := 503; body := None |}) []
    = (Return (), [Some (JStr "42.80000, 23.80000")])
  ∧ reverseGeocode (λ _, ""%string) (-1 # 3) 100
      (Some (returns record_label)) NetworkError []
    = (Return (), [Some (JStr "-0.33333, 100.00000")]).
Proof.
  destruct (failure_yields_fallback (λ _, ""%string) (428 # 10) (238 # 10)
              (Responds {| status := 503; body := None |}))
    as (fallback & Hf & _ & _ & H & _); [left; reflexivity|reflexivity..|].
  injection H as <-.
  split; [exact Hf|]. split; [reflexivity|].
  destruct (failure_yields_fallback (λ _, ""%string) (-1 # 3) 100 NetworkError)
    as (fallback & _ & _ & H & _); [exact I|reflexivity..|].
  specialize (H (list value) (returns record_label) [] [fallback] eq_refl).
  injection H as <-. reflexivity.
Defined.

(** ** Placement markers *)

Lemma marker_calls_of_click_same m added p :
  marker_calls m (marker_calls_of_click m added p) = marker_calls_of_click m added p.
Proof.
  unfold marker_calls, marker_calls_of_click.
  destruct added; simpl; rewrite bool_decide_true by reflexivity; reflexivity.
Qed.

Lemma marker_calls_of_click_other m added p :
  marker_calls (other m) (marker_calls_of_click m added p) = [].
Proof.
  unfold marker_calls, marker_calls_of_click.
  destruct added, m; reflexivity.
Qed.

Lemma other_ne m m' : m' ≠ m → m' = other m.
Proof. destruct m, m'; simpl; congruence. Qed.

(** C8: a map click moves the marker of the current mode to the clicked
    point and makes no call on the other marker, whose position and
    attachment stay as they were; a mode switch or the arrival of a label
    moves neither marker. *)
Theorem click_moves_only_active_marker (ts : Q → string) (st : state) (ev : event) :
  match ev with
  | MapClick latlng =>
      let m := currentMode st in
      let st' := step ts st ev in
      marker m st' = latlng
      ∧ marker_calls m (trace st')
        = marker_calls m (trace st)
          ++ marker_calls_of_click m (markerAdded m st) latlng
      ∧ marker (other m) st' = marker (other m) st
      ∧ markerAdded (other m) st' = markerAdded (other m) st
      ∧ marker_calls (other m) (trace st') = marker_calls (other m) (trace st)
  | _ =>
      ∀ m, marker m (step ts st ev) = marker m st
           ∧ markerAdded m (step ts st ev) = markerAdded m st
           ∧ marker_calls m (trace (step ts st ev)) = marker_calls m (trace st)
  end.
Proof.
  destruct ev as [m0|latlng|click o]; unfold step.
  - intros m. destruct (on_mode_click_frame m0 st) as (T & _ & _ & M).
    rewrite T. destruct (M m). auto.
  - cbv zeta. destruct (on_map_click_trace latlng st)
      as (es & T & F & _ & P & _ & P' & A' & _).
    rewrite T, !marker_calls_app.
    rewrite (marker_calls_assigned (currentMode st) _ _ F).
    rewrite (marker_calls_assigned (other (currentMode st)) _ _ F).
    rewrite marker_calls_of_click_same, marker_calls_of_click_other.
    simpl. rewrite !app_nil_r. auto.
  - intros m. destruct (on_settled_trace ts click o st)
      as (es & T & F & _ & _ & _ & _ & M).
    rewrite T, marker_calls_app, (marker_calls_assigned _ _ _ F), app_nil_r.
    destruct (M m). auto.
Qed.

(** The example of the specification: a click in mode from, a switch to
    mode to, a click elsewhere. *)
Example from_marker_stays ts :
  let st := run ts (startup (page_with [] [] ∅))
              [MapClick (latLng (428 # 10) (238 # 10)); ModeClick To;
               MapClick (latLng (4279 # 100) (2379 # 100))] in
  fromMarker st = latLng (428 # 10) (238 # 10)
  ∧ toMarker st = latLng (4279 # 100) (2379 # 100)
  ∧ marker_calls From (trace st)
    = [AddTo From; SetLatLng From (latLng (428 # 10) (238 # 10))].
Proof. repeat split. Qed.

Lemma step_marker ts st ev m :
  let here := match ev with
              | MapClick p => if decide (currentMode st = m) then Some p else None
              | _ => None
              end in
  marker_calls m (trace (step ts st ev))
  = marker_calls m (trace st)
    ++ from_option (marker_calls_of_click m (markerAdded m st)) [] here
  ∧ markerAdded m (step ts st ev) = from_option (λ _, true) (markerAdded m st) here
  ∧ marker m (step ts st ev) = from_option id (marker m st) here.
Proof.
  destruct ev as [m0|latlng|click o]; unfold step; cbv zeta.
  - destruct (on_mode_click_frame m0 st) as (T & _ & _ & M).
    rewrite T, app_nil_r. destruct (M m). auto.
  - destruct (on_map_click_trace latlng st)
      as (es & T & F & _ & P & A & P' & A' & _).
    rewrite T, !marker_calls_app, (marker_calls_assigned m _ _ F). simpl.
    rewrite app_nil_r.
    destruct (decide (currentMode st = m)) as [<-|Hne]; simpl.
    + rewrite marker_calls_of_click_same. auto.
    + apply not_eq_sym, other_ne in Hne. subst m.
      rewrite marker_calls_of_click_other, app_nil_r. auto.
  - destruct (on_settled_trace ts click o st)
      as (es & T & F & _ & _ & _ & _ & M).
    rewrite T, marker_calls_app, (marker_calls_assigned _ _ _ F). simpl.
    destruct (M m). auto.
Qed.

Lemma run_marker ts m evs : ∀ st,
  let ps := clicks_in_mode ts m st evs in
  marker_calls m (trace (run ts st evs))
  = marker_calls m (trace st)
    ++ match ps with
       | [] => []
       | _ :: _ => (if markerAdded m st then [] else [AddTo m])
                   ++ (SetLatLng m <$> ps)
       end
  ∧ markerAdded m (run ts st evs)
    = match ps with [] => markerAdded m st | _ :: _ => true end
  ∧ marker m (run ts st evs) = default (marker m st) (last ps).
Proof.
  induction evs as [|ev evs IH]; intros st; cbv zeta.
  - simpl. rewrite app_nil_r. auto.
  - destruct (IH (step ts st ev)) as (IH1 & IH2 & IH3).
    destruct (step_marker ts st ev m) as (S1 & S2 & S3).
    cbn [run foldl clicks_in_mode] in *. fold (run ts (step ts st ev) evs).
    rewrite IH1, IH2, IH3, S1, S2, S3. clear IH IH1 IH2 IH3 S1 S2 S3.
    set (ps' := clicks_in_mode ts m (step ts st ev) evs).
    destruct ev as [m0|p|click o]; simpl; try (rewrite app_nil_r; auto).
    destruct (decide (currentMode st = m)); simpl; [|rewrite app_nil_r; auto].
    unfold marker_calls_of_click. rewrite <- !app_assoc. repeat split.
    + destruct ps'; reflexivity.
    + destruct ps'; reflexivity.
    + rewrite last_cons. destruct (last ps'); reflexivity.
Qed.

(** C9: over any run from startup, the calls made on the marker of a
    mode are none while no click happened in that mode, and otherwise one
    addTo followed by one setLatLng per click in that mode, in order; the
    marker is never removed, and it rests at the last of those clicks (at
    the default center before the first). *)
Theorem marker_attached_once (ts : Q → string) (pg : page) (evs : list event)
    (m : mode) :
  let st := run ts (startup pg) evs in
  let ps := clicks_in_mode ts m (startup pg) evs in
  marker_calls m (trace st)
  = match ps with
    | [] => []
    | _ :: _ => AddTo m :: (SetLatLng m <$> ps)
    end
  ∧ markerAdded m st = bool_decide (ps ≠ [])
  ∧ marker m st = default DEFAULT_CENTER (last ps).
Proof.
  cbv zeta. destruct (run_marker ts m evs (startup pg)) as (H1 & H2 & H3).
  rewrite H1, H2, H3. clear H1 H2 H3.
  replace (markerAdded m (startup pg)) with false by (destruct m; reflexivity).
  replace (marker m (startup pg)) with DEFAULT_CENTER by (destruct m; reflexivity).
  replace (marker_calls m (trace (startup pg))) with (@nil effect) by reflexivity.
  destruct (clicks_in_mode ts m (startup pg) evs); simpl; auto.
Qed.

(** Two clicks in mode from: one addTo, then a setLatLng for each. *)
Example from_marker_twice ts :
  marker_calls From
    (trace (run ts (startup (page_with [] [] ∅))
              [MapClick (latLng (428 # 10) (238 # 10));
               MapClick (latLng (4279 # 100) (2379 # 100))]))
  = [AddTo From; SetLatLng From (latLng (428 # 10) (238 # 10));
     SetLatLng From (latLng (4279 # 100) (2379 # 100))].
Proof. reflexivity. Qed.

Lemma setFieldValue_lookup w f v st k :
  fields (setFieldValue w f v st) !! k
  = if decide (k = f) then (λ _, v) <$> (fields st !! k) else fields st !! k.
Proof.
  unfold setFieldValue. destruct (fields st !! f) eqn:Hf; simpl.
  - destruct (decide (k = f)) as [->|Hne].
    + rewrite lookup_insert_eq, Hf. reflexivity.
    + rewrite lookup_insert_ne by congruence. reflexivity.
  - destruct (decide (k = f)) as [->|Hne]; [rewrite Hf|]; reflexivity.
Qed.

Lemma setLatLngInputs_lookup w lat lng which st k :
  fields (setLatLngInputs w lat lng which st) !! k
  = match coordinate_field which lat lng k with
    | Some v => (λ _, v) <$> (fields st !! k)
    | None => fields st !! k
    end.
Proof.
  unfold setLatLngInputs, coordinate_field.
  destruct which; rewrite !setFieldValue_lookup;
    repeat (destruct (decide _) as [->|?]; try discriminate; try reflexivity).
Qed.

(** The callback writes the label into the place-name fields of the mode
    that is current when it runs, and into no other field. *)
Lemma label_callback_lookup click label st k :
  fields (label_callback click label st) !! k
  = if label_field (currentMode st) k
    then (λ _, label) <$> (fields st !! k)
    else fields st !! k.
Proof.
  unfold label_callback, label_field.
  destruct (currentMode st); rewrite !setFieldValue_lookup;
    repeat (destruct (decide _) as [->|?]; try discriminate; simpl;
            try reflexivity);
    rewrite !bool_decide_false by assumption; reflexivity.
Qed.

Lemma on_map_click_lookup latlng st k :
  fields (on_map_click latlng st) !! k
  = match coordinate_field (currentMode st) (lat latlng) (lng latlng) k with
    | Some v => (λ _, v) <$> (fields st !! k)
    | None => fields st !! k
    end.
Proof.
  unfold on_map_click. cbn [fields emit set_pending].
  rewrite setLatLngInputs_lookup.
  destruct st as [[] fb tb fm tm [] [] fs ps n v ov tr]; reflexivity.
Qed.

(** ** Order of the writes of one click *)

Lemma sent_at_app tr es click k :
  sent_at tr click k →
  (∀ e, e ∈ es → ∀ g w, e ≠ Assign (Coordinates click) g w) →
  sent_at (tr ++ es) click k.
Proof.
  intros [[p Hk] Hc] Hes. split.
  - exists p. apply lookup_app_l_Some. exact Hk.
  - intros j g w Hj. apply lookup_app_Some in Hj as [Hj|[_ Hj]].
    + eapply Hc. exact Hj.
    + exfalso. eapply Hes; [|reflexivity].
      eapply list_elem_of_lookup_2. exact Hj.
Qed.

Lemma sent_at_lt tr click k : sent_at tr click k → k < length tr.
Proof. intros [[p Hk] _]. eapply lookup_lt_Some. exact Hk. Qed.

Lemma assigned_by_label_not_coordinates click es :
  Forall (assigned_by (Label click)) es →
  ∀ e, e ∈ es → ∀ c g w, e ≠ Assign (Coordinates c) g w.
Proof.
  intros F e He c g w ->. rewrite Forall_forall in F.
  destruct (F _ He) as (f & v & E). discriminate E.
Qed.

Lemma click_effects m added p n es :
  Forall (assigned_by (Coordinates n)) es →
  ∀ e, e ∈ marker_calls_of_click m added p ++ es ++ [Fetch n p] →
       (∀ c f v, e ≠ Assign (Label c) f v)
       ∧ (∀ c g w, e = Assign (Coordinates c) g w → c = n).
Proof.
  intros F e He. rewrite Forall_forall in F.
  apply elem_of_app in He as [He|He].
  - unfold marker_calls_of_click in He.
    destruct added; simpl in He;
      repeat match goal with
             | H : _ ∈ _ :: _ |- _ => apply elem_of_cons in H as [->|H]
             end;
      try (split; intros; discriminate); apply elem_of_nil in He; contradiction.
  - apply elem_of_app in He as [He|He].
    + destruct (F _ He) as (f & v & ->). split; intros; congruence.
    + apply list_elem_of_singleton in He as ->. split; intros; discriminate.
Qed.

Lemma ordered_map_click latlng st : ordered st → ordered (on_map_click latlng st).
Proof.
  intros [Hp Hl].
  destruct (on_map_click_trace latlng st)
    as (es & T & F & _ & _ & _ & _ & _ & P & N & _).
  pose proof (click_effects (currentMode st) (markerAdded (currentMode st) st)
                latlng (clicks st) es F) as Hnew.
  set (new := marker_calls_of_click (currentMode st)
                (markerAdded (currentMode st) st) latlng
              ++ es ++ [Fetch (clicks st) latlng]) in *.
  assert (Hkeep : ∀ click k, click < clicks st →
            sent_at (trace st) click k → sent_at (trace st ++ new) click k).
  { intros click k Hlt Hs. apply sent_at_app; [exact Hs|].
    intros e He g w ->. destruct (Hnew _ He) as [_ Hc].
    specialize (Hc click g w eq_refl). lia. }
  unfold ordered. rewrite T, P, N. split.
  - intros click p Hq.
    destruct (decide (click = clicks st)) as [->|Hne].
    + split; [lia|].
      exists (length (trace st)
              + length (marker_calls_of_click (currentMode st)
                          (markerAdded (currentMode st) st) latlng ++ es)).
      assert (Hlast : (trace st ++ new) !! (length (trace st)
                + length (marker_calls_of_click (currentMode st)
                            (markerAdded (currentMode st) st) latlng ++ es))
              = Some (Fetch (clicks st) latlng)).
      { subst new. rewrite lookup_app_r by lia.
        rewrite app_assoc, lookup_app_r by lia.
        replace (_ - _ - _) with 0 by lia. reflexivity. }
      split; [eexists; exact Hlast|].
      intros j g w Hj.
      pose proof (lookup_lt_Some _ _ _ Hj) as Hlen.
      subst new. rewrite !length_app in Hlen. simpl in Hlen.
      rewrite length_app.
      destruct (decide (j = length (trace st)
                  + (length (marker_calls_of_click (currentMode st)
                               (markerAdded (currentMode st) st) latlng)
                     + length es))) as [->|Hj'];
        [|lia].
      rewrite length_app in Hlast. rewrite Hlast in Hj. discriminate Hj.
    + rewrite lookup_insert_ne in Hq by congruence.
      destruct (Hp _ _ Hq) as [Hlt [k Hs]].
      split; [lia|]. exists k. apply Hkeep; assumption.
  - intros i click f v Hi.
    apply lookup_app_Some in Hi as [Hi|[_ Hi]].
    + destruct (Hl _ _ _ _ Hi) as [Hlt (k & Hk & Hs)].
      split; [lia|]. exists k. split; [exact Hk|]. apply Hkeep; assumption.
    + exfalso. apply list_elem_of_lookup_2 in Hi.
      destruct (Hnew _ Hi) as [Hno _]. eapply Hno. reflexivity.
Qed.

Lemma ordered_settled ts click o st : ordered st → ordered (on_settled ts click o st).
Proof.
  intros [Hp Hl].
  destruct (on_settled_trace ts click o st) as (es & T & F & Hes & P & N & _).
  pose proof (assigned_by_label_not_coordinates click es F) as Hnc.
  unfold ordered. rewrite T, P, N. split.
  - intros c p Hq. apply lookup_delete_Some in Hq as [_ Hq].
    destruct (Hp _ _ Hq) as [Hlt [k Hs]].
    split; [exact Hlt|]. exists k. apply sent_at_app; [exact Hs|].
    intros e He g w. apply Hnc. exact He.
  - intros i c f v Hi.
    apply lookup_app_Some in Hi as [Hi|[Hge Hi]].
    + destruct (Hl _ _ _ _ Hi) as [Hlt (k & Hk & Hs)].
      split; [exact Hlt|]. exists k. split; [exact Hk|].
      apply sent_at_app; [exact Hs|]. intros e He g w. apply Hnc. exact He.
    + assert (Hne : es ≠ []) by (intros ->; discriminate Hi).
      destruct (Hes Hne) as [p Hq].
      apply list_elem_of_lookup_2 in Hi. rewrite Forall_forall in F.
      destruct (F _ Hi) as (f' & v' & E). injection E as -> _ _.
      destruct (Hp _ _ Hq) as [Hlt [k Hs]].
      split; [exact Hlt|]. exists k.
      split; [pose proof (sent_at_lt _ _ _ Hs); lia|].
      apply sent_at_app; [exact Hs|]. intros e He g w. apply Hnc. exact He.
Qed.

Lemma ordered_step ts st ev : ordered st → ordered (step ts st ev).
Proof.
  destruct ev as [m|latlng|click o]; unfold step.
  - destruct (on_mode_click_frame m st) as (T & P & N & _).
    unfold ordered. rewrite T, P, N. auto.
  - apply ordered_map_click.
  - apply ordered_settled.
Qed.

Lemma ordered_startup pg : ordered (startup pg).
Proof.
  split.
  - intros click p H. simpl in H. rewrite lookup_empty in H. discriminate H.
  - intros i click f v H. simpl in H. rewrite lookup_nil in H. discriminate H.
Qed.

Lemma ordered_run ts evs : ∀ st, ordered st → ordered (run ts st evs).
Proof.
  induction evs as [|ev evs IH]; intros st H; simpl; [exact H|].
  apply IH, ordered_step, H.
Qed.

(** C6: the click handler itself leaves the clicked coordinates in every
    hidden field of the current mode that the page has; and in any run of
    the page, whatever happens between a click and the arrival of its
    label, each label write of a click comes after the request of that
    click was sent, and every coordinate write of that click comes before
    that request, hence before the label write. *)
Theorem coordinates_precede_label (ts : Q → string) (pg : page)
    (evs : list event) :
  (∀ st latlng k v,
     coordinate_field (currentMode st) (lat latlng) (lng latlng) k = Some v →
     is_Some (fields st !! k) →
     fields (step ts st (MapClick latlng)) !! k = Some v)
  ∧ (∀ click i f v,
       trace (run ts (startup pg) evs) !! i = Some (Assign (Label click) f v) →
       ∃ k, k < i
            ∧ (∃ p, trace (run ts (startup pg) evs) !! k = Some (Fetch click p))
            ∧ ∀ j g w,
                trace (run ts (startup pg) evs) !! j
                = Some (Assign (Coordinates click) g w) →
                j < k ∧ j < i).
Proof.
  split.
  - intros st latlng k v Hk [x Hx]. cbn [step].
    rewrite on_map_click_lookup, Hk, Hx. reflexivity.
  - intros click i f v Hi.
    destruct (ordered_run ts evs (startup pg) (ordered_startup pg)) as [_ Hl].
    destruct (Hl _ _ _ _ Hi) as [_ (k & Hk & Hp & Hc)].
    exists k. split; [exact Hk|]. split; [exact Hp|].
    intros j g w Hj. specialize (Hc j g w Hj). lia.
Qed.

Lemma coordinates_precede_label_witness :
  fields (step (λ _, ""%string) (startup (page_with [] [] form_fields))
            (MapClick (latLng (428 # 10) (238 # 10))))
    !! "offer_from_lat"%string
  = Some (number (428 # 10))
  ∧ ∃ k, k < 7
       ∧ (∃ p, trace (run (λ _, ""%string) (startup (page_with [] [] form_fields))
                        [MapClick (latLng (428 # 10) (238 # 10));
                         Settled 0 (village_reply "Осойца")]) !! k
               = Some (Fetch 0 p))
       ∧ ∀ j g w,
           trace (run (λ _, ""%string) (startup (page_with [] [] form_fields))
                    [MapClick (latLng (428 # 10) (238 # 10));
                     Settled 0 (village_reply "Осойца")]) !! j
           = Some (Assign (Coordinates 0) g w) →
           j < k ∧ j < 7.
Proof.
  destruct (coordinates_precede_label (λ _, ""%string)
              (page_with [] [] form_fields)
              [MapClick (latLng (428 # 10) (238 # 10));
               Settled 0 (village_reply "Осойца")]) as [Hsync Horder].
  split.
  - apply Hsync; [reflexivity|]. eexists. reflexivity.
  - apply (Horder 0 7 "offer-from"%string (Some (JStr "Осойца"))).
    reflexivity.
Defined.

(** The trace of that run: the four coordinate writes, the request, and
    then the two label writes. *)
Example click_then_label ts :
  trace (run ts (startup (page_with [] [] form_fields))
           [MapClick (latLng (428 # 10) (238 # 10));
            Settled 0 (village_reply "Осойца")])
  = [AddTo From; SetLatLng From (latLng (428 # 10) (238 # 10));
     Assign (Coordinates 0) "offer_from_lat" (number (428 # 10));
     Assign (Coordinates 0) "offer_from_lng" (number (238 # 10));
     Assign (Coordinates 0) "request_from_lat" (number (428 # 10));
     Assign (Coordinates 0) "request_from_lng" (number (238 # 10));
     Fetch 0 (latLng (428 # 10) (238 # 10));
     Assign (Label 0) "offer-from" (Some (JStr "Осойца"));
     Assign (Label 0) "request-from" (Some (JStr "Осойца"))].
Proof. reflexivity. Qed.

(** C7, evaluated: a click in mode from, a switch to mode to before the
    reply, then the reply.  The coordinates are in the from fields, the
    label is in the to fields and the from place-name fields are still
    empty: the callback reads the mode current when it runs. *)
Theorem label_follows_mode_at_arrival (ts : Q → string) :
  let st := run ts (startup (page_with [] [] form_fields))
              [MapClick (latLng (428 # 10) (238 # 10)); ModeClick To;
               Settled 0 (village_reply "Осойца")] in
  fields st !! "offer_from_lat"%string = Some (number (428 # 10))
  ∧ fields st !! "request_from_lat"%string = Some (number (428 # 10))
  ∧ fields st !! "offer-from"%string = Some (Some (JStr ""))
  ∧ fields st !! "request-from"%string = Some (Some (JStr ""))
  ∧ fields st !! "offer-to"%string = Some (Some (JStr "Осойца"))
  ∧ fields st !! "request-to"%string = Some (Some (JStr "Осойца"))
  ∧ fields st !! "offer_to_lat"%string = Some (Some (JStr "")).
Proof. repeat split. Qed.

(** Without a mode switch in between, the label reaches the fields of
    the mode the click was made in. *)
Example label_without_switch ts :
  let st := run ts (startup (page_with [] [] form_fields))
              [MapClick (latLng (428 # 10) (238 # 10));
               Settled 0 (village_reply "Осойца")] in
  fields st !! "offer-from"%string = Some (Some (JStr "Осойца"))
  ∧ fields st !! "request-from"%string = Some (Some (JStr "Осойца"))
  ∧ fields st !! "offer-to"%string = Some (Some (JStr "")).
Proof. repeat split. Qed.

(** * Further properties of the map script *)

(** ** The two overlays are built independently and in feed order *)

Lemma ride_body_layers acc r :
  ridesLayer (ride_body acc r) = ridesLayer acc ++ ridesLayer (ride_body no_layers r)
  ∧ requestsLayer (ride_body acc r) = requestsLayer acc.
Proof.
  destruct r as [dr fl tl [| |a] [| |b] [| |c] [| |d] dt tm ty tyl ph];
    unfold ride_body; simpl; rewrite ?app_nil_r; auto.
Qed.

Lemma request_body_layers acc q :
  requestsLayer (request_body acc q)
  = requestsLayer acc ++ requestsLayer (request_body no_layers q)
  ∧ ridesLayer (request_body acc q) = ridesLayer acc.
Proof.
  destruct q as [pa fl tl [| |a] [| |b] dt tm fx pc nt ph];
    unfold request_body; simpl; rewrite ?app_nil_r; auto.
Qed.

Lemma rides_foldl_layers rides : ∀ acc,
  ridesLayer (foldl ride_body acc rides)
  = ridesLayer acc ++ ridesLayer (foldl ride_body no_layers rides)
  ∧ requestsLayer (foldl ride_body acc rides) = requestsLayer acc.
Proof.
  induction rides as [|r rides IH]; intros acc; simpl.
  - rewrite app_nil_r. auto.
  - destruct (IH (ride_body acc r)) as [E1 E2].
    destruct (IH (ride_body no_layers r)) as [E3 _].
    destruct (ride_body_layers acc r) as [E4 E5].
    rewrite E1, E2, E3, E4, E5, app_assoc. auto.
Qed.

Lemma requests_foldl_layers requests : ∀ acc,
  requestsLayer (foldl request_body acc requests)
  = requestsLayer acc ++ requestsLayer (foldl request_body no_layers requests)
  ∧ ridesLayer (foldl request_body acc requests) = ridesLayer acc.
Proof.
  induction requests as [|q requests IH]; intros acc; simpl.
  - rewrite app_nil_r. auto.
  - destruct (IH (request_body acc q)) as [E1 E2].
    destruct (IH (request_body no_layers q)) as [E3 _].
    destruct (request_body_layers acc q) as [E4 E5].
    rewrite E1, E2, E3, E4, E5, app_assoc. auto.
Qed.

Lemma render_layers rides requests :
  ridesLayer (render rides requests) = ridesLayer (foldl ride_body no_layers rides)
  ∧ requestsLayer (render rides requests)
    = requestsLayer (foldl request_body no_layers requests).
Proof.
  unfold render.
  destruct (requests_foldl_layers requests (foldl ride_body no_layers rides))
    as [E1 E2].
  destruct (rides_foldl_layers rides no_layers) as [_ E3].
  rewrite E1, E2, E3. auto.
Qed.

(** X1: the rides overlay depends on the rides alone and the requests
    overlay on the requests alone, and each is built in feed order: the
    overlay of a feed made of two parts is the overlay of the first part
    followed by that of the second. *)
Theorem overlays_independent_and_ordered
    (rides1 rides2 : list Ride.t) (requests1 requests2 : list Request.t) :
  ridesLayer (render (rides1 ++ rides2) (requests1 ++ requests2))
  = ridesLayer (render rides1 []) ++ ridesLayer (render rides2 [])
  ∧ requestsLayer (render (rides1 ++ rides2) (requests1 ++ requests2))
    = requestsLayer (render [] requests1) ++ requestsLayer (render [] requests2).
Proof.
  destruct (render_layers (rides1 ++ rides2) (requests1 ++ requests2)) as [-> ->].
  destruct (render_layers rides1 []) as [-> _].
  destruct (render_layers rides2 []) as [-> _].
  destruct (render_layers [] requests1) as [_ ->].
  destruct (render_layers [] requests2) as [_ ->].
  rewrite !foldl_app. split.
  - apply rides_foldl_layers.
  - apply requests_foldl_layers.
Qed.

(** ** Each layer carries the popup of its own record *)


Lemma request_body_marked_from q :
  has_origin q →
  ∃ m, requestsLayer (request_body no_layers q) = [m] ∧ marked_from m q.
Proof.
  destruct q as [pa fl tl [| |a] [| |b] dt tm fx pc nt ph];
    unfold has_origin, present; simpl;
    intros ((H1 & H2) & (H3 & H4)); try congruence.
  eexists. split; [reflexivity|].
  unfold marked_from, marker_of_request. simpl. auto.
Qed.


Lemma requests_marked_from requests :
  Forall2 marked_from (requestsLayer (foldl request_body no_layers requests))
    (filter has_origin requests).
Proof.
  induction requests as [|q requests IH]; simpl; [constructor|].
  destruct (requests_foldl_layers requests (request_body no_layers q)) as [-> _].
  destruct (decide (has_origin q)) as [Hq|Hq].
  - rewrite filter_cons_True by assumption.
    destruct (request_body_marked_from q Hq) as (m & -> & Hd).
    simpl. constructor; assumption.
  - rewrite filter_cons_False by assumption.
    rewrite (request_body_skip no_layers q Hq). exact IH.
Qed.

Lemma or_default_filled t d : d ≠ ""%string → or_default t d ≠ ""%string.
Proof.
  intros Hd. unfold or_default. destruct t as [s|]; [|exact Hd].
  destruct (decide (s = ""%string)); assumption.
Qed.

Lemma when_truthy_filled t : when_truthy t ≠ Some ""%string.
Proof.
  unfold when_truthy. destruct t as [s|]; [|discriminate].
  destruct (decide (s = ""%string)); congruence.
Qed.


Lemma request_popup_is_filled q : request_popup_filled (request_popup q).
Proof.
  unfold request_popup_filled, request_popup; simpl.
  repeat split; try (apply or_default_filled; discriminate);
    try apply when_truthy_filled.
  destruct (Request.people_count q) as [[|n]|]; discriminate.
Qed.

Example ride_color_samples :
  ride_color (Some "work"%string) = Css "#2563eb"
  ∧ ride_color (Some "school"%string) = Css "#16a34a"
  ∧ ride_color (Some "healthcare"%string) = Css "#dc2626"
  ∧ ride_color (Some "other"%string) = Css "#6b7280"
  ∧ ride_color (Some "bus"%string) = Css "#6b7280"
  ∧ ride_color None = Css "#6b7280"
  ∧ ride_color (Some "constructor"%string) = Inherited "constructor"
  ∧ ride_color (Some "toString"%string) = Inherited "toString"
  ∧ ride_color (Some "__proto__"%string) = Inherited "__proto__".
Proof. repeat split. Qed.



(** X3: every marker of the requests overlay takes its radius, colour
    and popup from the same request as its position, and in no popup is
    the passenger, the origin or the destination blank, the party size
    zero, or the note or call link made for an empty text. *)
Theorem request_markers_carry_their_record (rides : list Ride.t)
    (requests : list Request.t) :
  Forall2 marked_from (requestsLayer (render rides requests))
    (filter has_origin requests)
  ∧ Forall (λ m, request_popup_filled (cm_popup m))
      (requestsLayer (render rides requests)).
Proof.
  destruct (render_layers rides requests) as [_ ->].
  pose proof (requests_marked_from requests) as F. split; [exact F|].
  apply Forall_forall. intros m Hm.
  apply list_elem_of_lookup in Hm as [i Hi].
  destruct (Forall2_lookup_l _ _ _ _ _ F Hi) as (q & _ & _ & _ & _ & ->).
  apply request_popup_is_filled.
Qed.

(** ** The fitted box is the smallest one *)

Lemma contains_in_box sw ne p :
  contains (Some (sw, ne)) p = true ↔ in_box sw ne p.
Proof.
  unfold in_box. simpl. rewrite !andb_true_iff, !Qle_bool_iff. tauto.
Qed.

Lemma corners_in_box_extend sw' ne' b p :
  in_box sw' ne' p → corners_in_box sw' ne' b →
  corners_in_box sw' ne' (extend b p).
Proof.
  intros Hp Hb. destruct b as [[sw ne]|]; simpl; [|auto].
  destruct Hb as [(A1 & A2 & A3 & A4) (B1 & B2 & B3 & B4)].
  destruct Hp as (P1 & P2 & P3 & P4).
  unfold in_box; simpl. repeat split.
  - apply Q.min_glb; assumption.
  - eapply Qle_trans; [apply Q.le_min_l|exact P2].
  - apply Q.min_glb; assumption.
  - eapply Qle_trans; [apply Q.le_min_l|exact P4].
  - eapply Qle_trans; [exact P1|apply Q.le_max_l].
  - apply Q.max_lub; assumption.
  - eapply Qle_trans; [exact P3|apply Q.le_max_l].
  - apply Q.max_lub; assumption.
Qed.

Lemma plotted_ride acc line :
  plotted {| ridesLayer := ridesLayer acc ++ [line];
             requestsLayer := requestsLayer acc;
             bounds := extend (extend (bounds acc) (pl_from line)) (pl_to line) |}
  ≡ₚ pl_from line :: pl_to line :: plotted acc.
Proof.
  unfold plotted. simpl. rewrite bind_app. simpl.
  rewrite <- app_assoc. simpl.
  rewrite (Permutation_app_comm (ridesLayer acc ≫= _)). simpl.
  do 2 constructor. apply Permutation_app_comm.
Qed.

Lemma plotted_request acc m :
  plotted {| ridesLayer := ridesLayer acc;
             requestsLayer := requestsLayer acc ++ [m];
             bounds := extend (bounds acc) (cm_at m) |}
  ≡ₚ cm_at m :: plotted acc.
Proof.
  unfold plotted. simpl. rewrite fmap_app. simpl.
  rewrite app_assoc. rewrite Permutation_app_comm. reflexivity.
Qed.

Lemma tight_ride acc r : tight acc → tight (ride_body acc r).
Proof.
  intros Ht.
  destruct (decide (fully_coordinated r)) as [Hr|Hr];
    [|rewrite ride_body_skip by assumption; exact Ht].
  destruct (ride_body_draw acc r Hr) as (line & _ & _ & _ & ->).
  intros sw' ne' F. rewrite plotted_ride in F.
  apply Forall_cons in F as [Hf F]. apply Forall_cons in F as [Hto F].
  simpl. apply corners_in_box_extend; [exact Hto|].
  apply corners_in_box_extend; [exact Hf|]. apply Ht, F.
Qed.

Lemma tight_request acc q : tight acc → tight (request_body acc q).
Proof.
  intros Ht.
  destruct (decide (has_origin q)) as [Hq|Hq];
    [|rewrite request_body_skip by assumption; exact Ht].
  destruct (request_body_draw acc q Hq) as (m & _ & _ & ->).
  intros sw' ne' F. rewrite plotted_request in F.
  apply Forall_cons in F as [Hm F].
  simpl. apply corners_in_box_extend; [exact Hm|]. apply Ht, F.
Qed.

Lemma tight_foldl {A} (body : layers → A → layers) (xs : list A) :
  (∀ acc x, tight acc → tight (body acc x)) →
  ∀ acc, tight acc → tight (foldl body acc xs).
Proof.
  intros Hbody. induction xs as [|x xs IH]; intros acc Hacc; simpl; auto.
Qed.

Lemma tight_render rides requests : tight (render rides requests).
Proof.
  unfold render.
  apply tight_foldl; [exact tight_request|].
  apply tight_foldl; [exact tight_ride|].
  intros sw' ne' _. exact I.
Qed.

Lemma covers_plotted sw ne ls :
  covers (Some (sw, ne)) ls → Forall (in_box sw ne) (plotted ls).
Proof.
  intros [Hr Hq]. unfold plotted. apply Forall_app. split.
  - apply Forall_bind. eapply Forall_impl; [exact Hr|].
    intros l [H1 H2].
    constructor; [apply contains_in_box; exact H1|].
    constructor; [apply contains_in_box; exact H2|]. constructor.
  - apply Forall_fmap. eapply Forall_impl; [exact Hq|].
    intros m H. apply contains_in_box. exact H.
Qed.

(** X4: when the accumulated bounds have corners, every plotted point
    lies between them, and any box that holds every plotted point holds
    both corners: the view is fit to the smallest box around the data. *)
Theorem bounds_smallest_box (rides : list Ride.t) (requests : list Request.t)
    (sw ne : LatLng) :
  bounds (render rides requests) = Some (sw, ne) →
  Forall (in_box sw ne) (plotted (render rides requests))
  ∧ ∀ sw' ne', Forall (in_box sw' ne') (plotted (render rides requests)) →
               in_box sw' ne' sw ∧ in_box sw' ne' ne.
Proof.
  intros Hb. split.
  - apply covers_plotted. rewrite <- Hb. apply accumulated_render.
  - intros sw' ne' F. pose proof (tight_render rides requests sw' ne' F) as H.
    rewrite Hb in H. exact H.
Qed.

Lemma bounds_smallest_box_witness :
  Forall (in_box (latLng 1 2) (latLng 3 5))
    (plotted (render [ride_between (Num 1) (Num 5) (Num 3) (Num 2)] []))
  ∧ ∀ sw' ne',
      Forall (in_box sw' ne')
        (plotted (render [ride_between (Num 1) (Num 5) (Num 3) (Num 2)] [])) →
      in_box sw' ne' (latLng 1 2) ∧ in_box sw' ne' (latLng 3 5).
Proof.
  apply (bounds_smallest_box [ride_between (Num 1) (Num 5) (Num 3) (Num 2)] []
           (latLng 1 2) (latLng 3 5)).
  reflexivity.
Defined.

(** ** Every lookup ends in one label *)

(** X5: whatever the lookup comes to, the label is never undefined, null
    or empty.  A callback that runs to its end on it is called exactly
    once and the chain ends fulfilled.  A callback that throws on it is
    called a second time, with the numeric label, when the first call
    was made in the second then (a success with a JSON body other than
    null), and the chain settles as that second call does; when the
    first call was made in the catch, the chain ends rejected.  When the
    callback is not a function nothing is called. *)
Theorem lookup_always_labels (ts : Q → string) (lat lng : Q) (o : fetch_outcome) :
  ToBoolean (resolved_label ts o lat lng) = true
  ∧ (∀ (S : Type) (callback : value → S → settled S unit) (s s' : S),
       callback (resolved_label ts o lat lng) s = (Return (), s') →
       reverseGeocode ts lat lng (Some callback) o s = (Return (), s'))
  ∧ (∀ (S : Type) (callback : value → S → settled S unit) (s s' : S) (e : error),
       callback (resolved_label ts o lat lng) s = (Throw e, s') →
       reverseGeocode ts lat lng (Some callback) o s
       = if labelled_in_then o then callback (numeric_label ts lat lng) s'
         else (Throw e, s'))
  ∧ (∀ (S : Type) (s : S),
       reverseGeocode ts lat lng (@None (value → S → settled S unit)) o s
       = (Return (), s)).
Proof.
  split; [apply resolved_label_truthy|]. split; [|split].
  - intros S callback s s' H. apply reverseGeocode_resolved. exact H.
  - intros S callback s s' e H. apply reverseGeocode_thrown. exact H.
  - intros S s. apply reverseGeocode_resolved. reflexivity.
Qed.

Lemma lookup_always_labels_witness :
  reverseGeocode (λ _, ""%string) (428 # 10) (238 # 10)
    (Some (returns record_label)) (village_reply "Осойца") []
  = (Return (), [Some (JStr "Осойца")])
  ∧ reverseGeocode (λ _, ""%string) (428 # 10) (238 # 10)
      (Some record_and_throw) (village_reply "Осойца") []
    = (Throw TypeError, [Some (JStr "Осойца"); Some (JStr "42.80000, 23.80000")])
  ∧ reverseGeocode (λ _, ""%string) (428 # 10) (238 # 10)
      (Some record_and_throw) NetworkError []
    = (Throw TypeError, [Some (JStr "42.80000, 23.80000")]).
Proof.
  split; [|split].
  - destruct (lookup_always_labels (λ _, ""%string) (428 # 10) (238 # 10)
                (village_reply "Осойца")) as (_ & H & _).
    apply H. reflexivity.
  - destruct (lookup_always_labels (λ _, ""%string) (428 # 10) (238 # 10)
                (village_reply "Осойца")) as (_ & _ & H & _).
    rewrite (H (list value) record_and_throw [] [Some (JStr "Осойца")] TypeError
               eq_refl).
    reflexivity.
  - destruct (lookup_always_labels (λ _, ""%string) (428 # 10) (238 # 10)
                NetworkError) as (_ & _ & H & _).
    rewrite (H (list value) record_and_throw []
               [Some (JStr "42.80000, 23.80000")] TypeError eq_refl).
    reflexivity.
Defined.

Lemma on_settled_lookup ts click o st k :
  ∃ label,
    fields (on_settled ts click o st) !! k
    = if is_Some_dec (pending st !! click)
      then if label_field (currentMode st) k
           then (λ _, label) <$> (fields st !! k)
           else fields st !! k
      else fields st !! k.
Proof.
  destruct (pending st !! click) as [p|] eqn:Hp.
  - exists (resolved_label ts o (lat p) (lng p)).
    rewrite (on_settled_resolved ts click o st p Hp), label_callback_lookup.
    destruct (is_Some_dec _) as [_|[]]; [reflexivity|eauto].
  - exists None. unfold on_settled. rewrite Hp.
    destruct (is_Some_dec _) as [[? E]|_]; [discriminate E|reflexivity].
Qed.

(** ** Which handler writes which field *)

Lemma on_mode_click_fields m st : fields (on_mode_click m st) = fields st.
Proof.
  unfold on_mode_click.
  destruct m; [destruct (fromBtn st)|destruct (toBtn st)]; reflexivity.
Qed.

Lemma coordinate_field_any m a b a' b' k :
  is_Some (coordinate_field m a b k) → is_Some (coordinate_field m a' b' k).
Proof.
  unfold coordinate_field. destruct m;
    repeat (destruct (decide _); [eauto|]); intros [? E]; discriminate E.
Qed.

Lemma is_coordinate_field_false m a b k :
  is_coordinate_field m k = false → coordinate_field m a b k = None.
Proof.
  unfold is_coordinate_field. intros H.
  destruct (coordinate_field m a b k) as [v|] eqn:E; [|reflexivity].
  destruct (coordinate_field_any m a b 0 0 k) as [v' E']; [eauto|].
  rewrite E' in H. discriminate H.
Qed.

Lemma coordinate_not_label m m' a b k v :
  coordinate_field m a b k = Some v → label_field m' k = false.
Proof.
  unfold coordinate_field, label_field. destruct m, m';
    repeat (destruct (decide _) as [->|?]; [reflexivity|]); discriminate.
Qed.

Lemma coordinate_fields_disjoint m a b a' b' k v :
  coordinate_field m a b k = Some v → coordinate_field (other m) a' b' k = None.
Proof.
  unfold coordinate_field. destruct m; simpl;
    repeat (destruct (decide _) as [->|?]; [reflexivity|]); discriminate.
Qed.

(** X6: a click on a mode control changes no form field; a map click
    changes only the hidden coordinate fields of the current mode, so a
    place name stays as it is until its label arrives; the arrival of a
    label changes only place-name fields of the mode then current, so it
    never alters a stored coordinate. *)
Theorem handlers_write_only_their_fields (ts : Q → string) (st : state)
    (ev : event) (k : string) :
  match ev with
  | ModeClick _ => fields (step ts st ev) !! k = fields st !! k
  | MapClick _ =>
      is_coordinate_field (currentMode st) k = false →
      fields (step ts st ev) !! k = fields st !! k
  | Settled _ _ =>
      label_field (currentMode st) k = false →
      fields (step ts st ev) !! k = fields st !! k
  end.
Proof.
  destruct ev as [m|p|click o]; cbn [step].
  - rewrite on_mode_click_fields. reflexivity.
  - intros Hk. rewrite on_map_click_lookup.
    rewrite (is_coordinate_field_false _ _ _ _ Hk). reflexivity.
  - intros Hk. destruct (on_settled_lookup ts click o st k) as [label ->].
    rewrite Hk. destruct (is_Some_dec _); reflexivity.
Qed.

Lemma handlers_write_only_their_fields_witness :
  fields (step (λ _, ""%string) (startup (page_with [] [] form_fields))
            (MapClick (latLng 1 2))) !! "offer-from"%string
  = fields (startup (page_with [] [] form_fields)) !! "offer-from"%string.
Proof.
  apply (handlers_write_only_their_fields (λ _, ""%string)
           (startup (page_with [] [] form_fields)) (MapClick (latLng 1 2))
           "offer-from"%string).
  reflexivity.
Defined.

(** ** The two forms stay in step *)

Lemma paired_coordinate_fields m a b o r :
  (o, r) ∈ paired_fields → coordinate_field m a b o = coordinate_field m a b r.
Proof.
  unfold paired_fields. intros H.
  repeat (apply elem_of_cons in H as [H|H];
          [injection H as -> ->; destruct m; reflexivity|]).
  apply elem_of_nil in H. contradiction.
Qed.

Lemma paired_label_fields m o r :
  (o, r) ∈ paired_fields → label_field m o = label_field m r.
Proof.
  unfold paired_fields. intros H.
  repeat (apply elem_of_cons in H as [H|H];
          [injection H as -> ->; destruct m; reflexivity|]).
  apply elem_of_nil in H. contradiction.
Qed.

Lemma fmap_const_is_Some {A B} (v : B) (x : option A) :
  is_Some ((λ _, v) <$> x) ↔ is_Some x.
Proof. destruct x; simpl; split; intros [? E]; eauto; discriminate E. Qed.

Lemma fmap_const_Some {A B} (v : B) (x : option A) :
  is_Some x → (λ _, v) <$> x = Some v.
Proof. intros [? ->]. reflexivity. Qed.

Lemma forms_agree_step ts st ev : forms_agree st → forms_agree (step ts st ev).
Proof.
  intros Ha o r Hp. specialize (Ha o r Hp).
  destruct ev as [m|p|click o']; cbn [step].
  - rewrite on_mode_click_fields. exact Ha.
  - rewrite !on_map_click_lookup.
    rewrite (paired_coordinate_fields _ _ _ _ _ Hp).
    destruct (coordinate_field _ _ _ r) as [v|]; [|exact Ha].
    rewrite !fmap_const_is_Some. intros Ho Hr.
    rewrite !fmap_const_Some by assumption. reflexivity.
  - destruct (pending st !! click) as [q|] eqn:Hq.
    + rewrite (on_settled_resolved ts click o' st q Hq), !label_callback_lookup.
      cbn [currentMode set_pending fields].
      rewrite (paired_label_fields _ _ _ Hp).
      destruct (label_field _ r); [|exact Ha].
      rewrite !fmap_const_is_Some. intros Ho Hr.
      rewrite !fmap_const_Some by assumption. reflexivity.
    + unfold on_settled. rewrite Hq. exact Ha.
Qed.

Lemma forms_agree_run ts evs : ∀ st, forms_agree st → forms_agree (run ts st evs).
Proof.
  induction evs as [|ev evs IH]; intros st H; simpl; [exact H|].
  apply IH, forms_agree_step, H.
Qed.

(** X7: the offer form and the request form stay in step.  If at
    startup every field the two forms share holds the same value in both,
    this remains so after any run of clicks, mode switches and label
    arrivals; and right after a map click the shared coordinate fields of
    the current mode agree whatever they held before. *)
Theorem forms_stay_consistent (ts : Q → string) (pg : page) (evs : list event) :
  (forms_agree (startup pg) → forms_agree (run ts (startup pg) evs))
  ∧ (∀ st p o r,
       (o, r) ∈ paired_fields →
       is_coordinate_field (currentMode st) o = true →
       is_Some (fields st !! o) → is_Some (fields st !! r) →
       fields (step ts st (MapClick p)) !! o
       = fields (step ts st (MapClick p)) !! r).
Proof.
  split; [apply forms_agree_run|].
  intros st p o r Hp Hc Ho Hr. cbn [step]. rewrite !on_map_click_lookup.
  rewrite <- (paired_coordinate_fields _ _ _ _ _ Hp).
  destruct (coordinate_field (currentMode st) (lat p) (lng p) o) as [v|] eqn:E.
  - rewrite !fmap_const_Some by assumption. reflexivity.
  - unfold is_coordinate_field in Hc.
    destruct (coordinate_field (currentMode st) 0 0 o) as [v|] eqn:E0;
      [|discriminate Hc].
    destruct (coordinate_field_any (currentMode st) 0 0 (lat p) (lng p) o)
      as [v' E']; [eauto|congruence].
Qed.

Lemma forms_stay_consistent_witness :
  forms_agree (run (λ _, ""%string) (startup (page_with [] [] form_fields))
                 [MapClick (latLng 1 2); ModeClick To; MapClick (latLng 3 4);
                  Settled 0 NetworkError])
  ∧ fields (step (λ _, ""%string) (startup (page_with [] [] form_fields))
              (MapClick (latLng 1 2))) !! "offer_from_lat"%string
    = fields (step (λ _, ""%string) (startup (page_with [] [] form_fields))
                (MapClick (latLng 1 2))) !! "request_from_lat"%string.
Proof.
  destruct (forms_stay_consistent (λ _, ""%string) (page_with [] [] form_fields)
              [MapClick (latLng 1 2); ModeClick To; MapClick (latLng 3 4);
               Settled 0 NetworkError]) as [Hrun Hclick].
  split.
  - apply Hrun. intros o r Hp _ _. unfold paired_fields in Hp.
    repeat (apply elem_of_cons in Hp as [Hp|Hp];
            [injection Hp as -> ->; reflexivity|]).
    apply elem_of_nil in Hp. contradiction.
  - apply Hclick.
    + unfold paired_fields. do 2 (apply elem_of_cons; right).
      apply elem_of_cons. left. reflexivity.
    + reflexivity.
    + eexists. reflexivity.
    + eexists. reflexivity.
Defined.

(** ** The form follows the markers *)

Lemma form_follows_markers_step ts st ev :
  form_follows_markers st → form_follows_markers (step ts st ev).
Proof.
  intros Hf m k v Hadd Hk Hs.
  destruct (step_marker ts st ev m) as (_ & A & P).
  destruct ev as [m0|p|click o]; cbn [from_option id] in A, P.
  - rewrite A in Hadd. rewrite P in Hk. cbn [step] in *.
    rewrite on_mode_click_fields in *. apply (Hf m k v); assumption.
  - destruct (decide (currentMode st = m)) as [Hm|Hne];
      cbn [from_option id] in A, P.
    + rewrite P in Hk. cbn [step] in *.
      rewrite on_map_click_lookup in Hs |- *. rewrite Hm, Hk in Hs |- *.
      apply fmap_const_is_Some in Hs. apply fmap_const_Some. exact Hs.
    + rewrite A in Hadd. rewrite P in Hk. cbn [step] in *.
      apply not_eq_sym, other_ne in Hne.
      rewrite on_map_click_lookup in Hs |- *.
      assert (E : coordinate_field (currentMode st) (lat p) (lng p) k = None).
      { rewrite <- (coordinate_fields_disjoint (other (currentMode st))
                      (lat (marker m st)) (lng (marker m st)) (lat p) (lng p) k v);
          [destruct (currentMode st); reflexivity|].
        rewrite <- Hne. exact Hk. }
      rewrite E in Hs |- *. apply (Hf m k v); assumption.
  - rewrite A in Hadd. rewrite P in Hk. cbn [step] in *.
    destruct (on_settled_lookup ts click o st k) as [label E].
    rewrite (coordinate_not_label _ (currentMode st) _ _ _ _ Hk) in E.
    assert (E' : fields (on_settled ts click o st) !! k = fields st !! k)
      by (rewrite E; destruct (is_Some_dec _); reflexivity).
    rewrite E' in Hs |- *. apply (Hf m k v); assumption.
Qed.

Lemma form_follows_markers_run ts evs : ∀ st,
  form_follows_markers st → form_follows_markers (run ts st evs).
Proof.
  induction evs as [|ev evs IH]; intros st H; simpl; [exact H|].
  apply IH, form_follows_markers_step, H.
Qed.

(** X8: after any run from startup, for each mode whose marker is on
    the map, every hidden coordinate field of that mode that the page has
    holds the latitude or longitude of that marker: mode switches, clicks
    in the other mode and label arrivals, late or failed, never part the
    stored coordinates from the marker shown. *)
Theorem form_holds_marker_position (ts : Q → string) (pg : page) (evs : list event)
    (m : mode) (k : string) (v : value) :
  let st := run ts (startup pg) evs in
  markerAdded m st = true →
  coordinate_field m (lat (marker m st)) (lng (marker m st)) k = Some v →
  is_Some (fields st !! k) →
  fields st !! k = Some v.
Proof.
  cbv zeta. apply form_follows_markers_run.
  intros m' k' v' Hadd. destruct m'; discriminate Hadd.
Qed.

Lemma form_holds_marker_position_witness :
  fields (run (λ _, ""%string) (startup (page_with [] [] form_fields))
            [MapClick (latLng 1 2); ModeClick To; MapClick (latLng 3 4);
             Settled 1 NetworkError; Settled 0 (village_reply "Осойца")])
    !! "request_from_lng"%string
  = Some (number 2).
Proof.
  apply (form_holds_marker_position (λ _, ""%string)
           (page_with [] [] form_fields)
           [MapClick (latLng 1 2); ModeClick To; MapClick (latLng 3 4);
            Settled 1 NetworkError; Settled 0 (village_reply "Осойца")]
           From "request_from_lng"%string (number 2)).
  - reflexivity.
  - reflexivity.
  - eexists. reflexivity.
Defined.

(** ** One request per click *)

Lemma requests_sent_assigned w es :
  Forall (assigned_by w) es → requests_sent es = [].
Proof.
  unfold requests_sent. induction 1 as [|e es (f & v & ->) _ IH]; simpl; auto.
Qed.

Lemma requests_sent_step ts st ev :
  requests_sent (trace (step ts st ev))
  = requests_sent (trace st)
    ++ match ev with MapClick p => [(clicks st, p)] | _ => [] end
  ∧ clicks (step ts st ev)
    = match ev with MapClick _ => S (clicks st) | _ => clicks st end.
Proof.
  destruct ev as [m|p|click o]; cbn [step].
  - destruct (on_mode_click_frame m st) as (T & _ & N & _).
    rewrite T, N, app_nil_r. auto.
  - destruct (on_map_click_trace p st)
      as (es & T & F & _ & _ & _ & _ & _ & _ & N & _).
    rewrite T, N. unfold requests_sent. rewrite !omap_app.
    fold (requests_sent es). rewrite (requests_sent_assigned _ _ F).
    unfold marker_calls_of_click.
    destruct (markerAdded (currentMode st) st); simpl; auto.
  - destruct (on_settled_trace ts click o st) as (es & T & F & _ & _ & N & _).
    rewrite T, N. unfold requests_sent. rewrite omap_app.
    fold (requests_sent es). rewrite (requests_sent_assigned _ _ F). auto.
Qed.

Lemma requests_sent_run ts evs : ∀ st,
  requests_sent (trace (run ts st evs))
  = requests_sent (trace st) ++ numbered (clicks st) (points_clicked evs).
Proof.
  induction evs as [|ev evs IH]; intros st; simpl.
  - rewrite app_nil_r. reflexivity.
  - fold (run ts (step ts st ev) evs). rewrite IH.
    destruct (requests_sent_step ts st ev) as [-> ->].
    rewrite <- app_assoc. destruct ev; reflexivity.
Qed.

(** X9: over any run from startup the requests sent are exactly one
    per map click, for the clicked point, in click order and numbered from
    zero: no click goes without a request, and neither a mode switch nor
    the end of a lookup, whatever its outcome, sends another. *)
Theorem one_request_per_click (ts : Q → string) (pg : page) (evs : list event) :
  requests_sent (trace (run ts (startup pg) evs))
  = numbered 0 (points_clicked evs).
Proof. apply (requests_sent_run ts evs (startup pg)). Qed.

(** ** The mode controls *)

Lemma has_control_updateModeUi st m :
  has_control (updateModeUi st) m = has_control st m.
Proof.
  unfold has_control, updateModeUi.
  destruct m; simpl; [destruct (fromBtn st)|destruct (toBtn st)]; reflexivity.
Qed.

Lemma control_updateModeUi st m :
  control m (updateModeUi st)
  = (λ _, bool_decide (m = currentMode st)) <$> control m st.
Proof. destruct m; reflexivity. Qed.

Lemma control_same st st' :
  fromBtn st' = fromBtn st → toBtn st' = toBtn st →
  ∀ m, control m st' = control m st.
Proof. intros H1 H2 m. destruct m; assumption. Qed.

Lemma on_mode_click_cases m0 st :
  (has_control st m0 = true ∧ on_mode_click m0 st = updateModeUi (set_mode m0 st))
  ∨ (has_control st m0 = false ∧ on_mode_click m0 st = st).
Proof.
  unfold has_control, on_mode_click.
  destruct m0; simpl; [destruct (fromBtn st)|destruct (toBtn st)]; auto.
Qed.

Lemma step_mode ts st ev :
  (∀ m b, control m st = Some b → b = bool_decide (m = currentMode st)) →
  currentMode (step ts st ev)
  = match ev with
    | ModeClick m' => if has_control st m' then m' else currentMode st
    | _ => currentMode st
    end
  ∧ (∀ m, has_control (step ts st ev) m = has_control st m)
  ∧ (∀ m b, control m (step ts st ev) = Some b →
            b = bool_decide (m = currentMode (step ts st ev))).
Proof.
  intros Hh. destruct ev as [m0|p|click o]; cbn [step].
  - destruct (on_mode_click_cases m0 st) as [[-> ->]|[-> ->]]; [|auto].
    split; [reflexivity|]. split.
    + intros m. rewrite has_control_updateModeUi. destruct m; reflexivity.
    + intros m b. rewrite control_updateModeUi.
      destruct (control m (set_mode m0 st)); simpl; intros H; inversion H;
        reflexivity.
  - destruct (on_map_click_trace p st)
      as (es & _ & _ & M & _ & _ & _ & _ & _ & _ & B1 & B2).
    pose proof (control_same _ _ B1 B2) as C.
    rewrite M. split; [reflexivity|]. split.
    + intros m. unfold has_control. rewrite C. reflexivity.
    + intros m b. rewrite C. apply Hh.
  - destruct (pending st !! click) as [q|] eqn:Hq.
    + destruct (reverseGeocode_writes ts click (lat q) (lng q) o
                  (set_pending (delete click (pending st)) (clicks st) st))
        as [(C1&C2&C3&_) _].
      unfold on_settled. rewrite Hq.
      pose proof (control_same _ _ C2 C3) as C.
      rewrite C1. split; [reflexivity|]. split.
      * intros m. unfold has_control. rewrite C. destruct m; reflexivity.
      * intros m b. rewrite C. intros H. apply (Hh m b).
        destruct m; exact H.
    + unfold on_settled. rewrite Hq. auto.
Qed.

Lemma mode_from_ext has has' evs : ∀ m0,
  (∀ m, has m = has' m) → mode_from has m0 evs = mode_from has' m0 evs.
Proof.
  induction evs as [|ev evs IH]; intros m0 H; [reflexivity|].
  unfold mode_from in *. simpl. destruct ev as [m'|p|click o]; auto.
  rewrite H. auto.
Qed.

Lemma run_mode ts evs : ∀ st,
  (∀ m b, control m st = Some b → b = bool_decide (m = currentMode st)) →
  currentMode (run ts st evs) = mode_from (has_control st) (currentMode st) evs
  ∧ (∀ m, has_control (run ts st evs) m = has_control st m)
  ∧ (∀ m b, control m (run ts st evs) = Some b →
            b = bool_decide (m = currentMode (run ts st evs))).
Proof.
  induction evs as [|ev evs IH]; intros st Hh; simpl; [auto|].
  destruct (step_mode ts st ev Hh) as (M & H & Hh').
  destruct (IH _ Hh') as (M' & H' & Hh'').
  fold (run ts (step ts st ev) evs).
  split; [|split; [intros m; rewrite H', H; reflexivity|exact Hh'']].
  rewrite M', (mode_from_ext _ (has_control st) evs _ H), M.
  unfold mode_from. simpl. destruct ev; reflexivity.
Qed.

(** X10: after any run from startup the current mode is the mode of the
    last click on a control that the page has (from at first); each
    control that exists is highlighted exactly when its mode is the
    current one, so with both controls present exactly one is highlighted;
    map clicks and label arrivals never change the mode, and a page
    without a control for a mode never enters that mode by a click. *)
Theorem highlight_follows_mode (ts : Q → string) (pg : page) (evs : list event) :
  let st := run ts (startup pg) evs in
  currentMode st = mode_from (has_control (startup pg)) From evs
  ∧ (∀ m, control m st
          = (λ _, bool_decide (m = currentMode st)) <$> control m (startup pg))
  ∧ (∀ a b, fromBtn st = Some a → toBtn st = Some b → a = negb b).
Proof.
  cbv zeta.
  assert (H0 : ∀ m b, control m (startup pg) = Some b →
                      b = bool_decide (m = currentMode (startup pg))).
  { intros m b. unfold startup. rewrite control_updateModeUi.
    destruct m; simpl; [destruct (page_fromBtn pg)|destruct (page_toBtn pg)];
      simpl; intros H; inversion H; reflexivity. }
  destruct (run_mode ts evs (startup pg) H0) as (M & H & Hh).
  split; [exact M|].
  assert (Hc : ∀ m, control m (run ts (startup pg) evs)
                 = (λ _, bool_decide (m = currentMode (run ts (startup pg) evs)))
                   <$> control m (startup pg)).
  { intros m. specialize (H m). specialize (Hh m). unfold has_control in H.
    destruct (control m (run ts (startup pg) evs)) as [b|],
             (control m (startup pg)) as [b0|]; try discriminate H; simpl.
    - rewrite (Hh b eq_refl). reflexivity.
    - reflexivity. }
  split; [exact Hc|].
  intros a b Ha Hb.
  pose proof (Hh From a Ha) as ->. pose proof (Hh To b Hb) as ->.
  destruct (currentMode (run ts (startup pg) evs)); reflexivity.
Qed.

Lemma highlight_follows_mode_witness :
  fromBtn (run (λ _, ""%string) (startup (page_with [] [] form_fields))
             [ModeClick To; MapClick (latLng 1 2)]) = Some false
  ∧ toBtn (run (λ _, ""%string) (startup (page_with [] [] form_fields))
             [ModeClick To; MapClick (latLng 1 2)]) = Some true
  ∧ false = negb true.
Proof.
  destruct (highlight_follows_mode (λ _, ""%string) (page_with [] [] form_fields)
              [ModeClick To; MapClick (latLng 1 2)]) as (_ & _ & H).
  split; [reflexivity|]. split; [reflexivity|].
  apply H; reflexivity.
Defined.

(** ** Fields the page lacks are skipped *)

Lemma fields_kept_same D st st' :
  fields st' = fields st → trace st' = trace st →
  fields_kept D st → fields_kept D st'.
Proof. unfold fields_kept. intros -> ->. auto. Qed.

Lemma fields_kept_emit D es st :
  Forall (λ e, ∀ w f v, e ≠ Assign w f v) es →
  fields_kept D st → fields_kept D (emit es st).
Proof.
  intros Hes [Hd Ht]. split; [exact Hd|]. simpl.
  apply Forall_app. split; [exact Ht|].
  eapply Forall_impl; [exact Hes|].
  intros e He w f v ->. exfalso. eapply He. reflexivity.
Qed.

Lemma fields_kept_setFieldValue D w f v st :
  fields_kept D st → fields_kept D (setFieldValue w f v st).
Proof.
  intros [Hd Ht]. unfold setFieldValue.
  destruct (fields st !! f) as [x|] eqn:Hf; [|split; assumption].
  assert (Hin : f ∈ D) by (rewrite <- Hd; apply elem_of_dom; eauto).
  split; simpl.
  - rewrite dom_insert_lookup_L by eauto. exact Hd.
  - apply Forall_app. split; [exact Ht|].
    constructor; [|constructor]. intros w' f' v' E. congruence.
Qed.

Lemma fields_kept_setLatLngInputs D w a b which st :
  fields_kept D st → fields_kept D (setLatLngInputs w a b which st).
Proof.
  intros H. unfold setLatLngInputs.
  destruct which; repeat apply fields_kept_setFieldValue; exact H.
Qed.

Lemma fields_kept_label_callback D click label st :
  fields_kept D st → fields_kept D (label_callback click label st).
Proof.
  intros H. unfold label_callback.
  destruct (currentMode st); repeat apply fields_kept_setFieldValue; exact H.
Qed.

Lemma fields_kept_step ts D st ev :
  fields_kept D st → fields_kept D (step ts st ev).
Proof.
  intros H. destruct ev as [m|p|click o]; cbn [step].
  - destruct (on_mode_click_frame m st) as (T & _).
    eapply fields_kept_same; [apply on_mode_click_fields|exact T|exact H].
  - unfold on_map_click.
    apply fields_kept_emit; [repeat constructor; discriminate|].
    eapply fields_kept_same; [reflexivity|reflexivity|].
    apply fields_kept_setLatLngInputs.
    destruct (currentMode st);
      [destruct (fromMarkerAdded st)|destruct (toMarkerAdded st)];
      repeat first
        [ apply fields_kept_emit; [repeat constructor; discriminate|]
        | eapply fields_kept_same; [reflexivity|reflexivity|] ];
      exact H.
  - destruct (pending st !! click) as [q|] eqn:Hq.
    + rewrite (on_settled_resolved ts click o st q Hq).
      apply fields_kept_label_callback.
      eapply fields_kept_same; [reflexivity|reflexivity|exact H].
    + unfold on_settled. rewrite Hq. exact H.
Qed.

Lemma fields_kept_run ts D evs : ∀ st,
  fields_kept D st → fields_kept D (run ts st evs).
Proof.
  induction evs as [|ev evs IH]; intros st H; simpl; [exact H|].
  apply IH, fields_kept_step, H.
Qed.

(** X11: the script never adds a form field, never drops one, and never
    assigns to a field the page lacks: after any run from startup the
    fields are those the page came with, and every assignment made went
    to one of them.  A page without any of the fields therefore gets its
    markers and requests and no assignment at all. *)
Theorem absent_fields_are_skipped (ts : Q → string) (pg : page) (evs : list event) :
  let st := run ts (startup pg) evs in
  dom (fields st) = dom (page_fields pg)
  ∧ (∀ w f v, Assign w f v ∈ trace st → f ∈ dom (page_fields pg))
  ∧ (page_fields pg = ∅ → ∀ w f v, Assign w f v ∉ trace st).
Proof.
  cbv zeta.
  destruct (fields_kept_run ts (dom (page_fields pg)) evs (startup pg))
    as [Hd Ht].
  { split; [reflexivity|constructor]. }
  split; [exact Hd|].
  assert (Hin : ∀ w f v, Assign w f v ∈ trace (run ts (startup pg) evs) →
                         f ∈ dom (page_fields pg)).
  { intros w f v He. rewrite Forall_forall in Ht. eapply Ht; [exact He|reflexivity]. }
  split; [exact Hin|].
  intros He w f v H. apply Hin in H. rewrite He, dom_empty_L in H.
  apply not_elem_of_empty in H. exact H.
Qed.

Lemma absent_fields_are_skipped_witness :
  Assign (Coordinates 0) "offer_from_lat" (number 1)
  ∉ trace (run (λ _, ""%string) (startup (page_with [] [] ∅))
             [MapClick (latLng 1 2); Settled 0 NetworkError]).
Proof.
  apply (absent_fields_are_skipped (λ _, ""%string) (page_with [] [] ∅)
           [MapClick (latLng 1 2); Settled 0 NetworkError]).
  reflexivity.
Defined.

(** ** Labels arrive in any order *)

Lemma on_map_click_pending p st :
  pending (on_map_click p st) = <[clicks st := p]> (pending st)
  ∧ clicks (on_map_click p st) = S (clicks st)
  ∧ currentMode (on_map_click p st) = currentMode st.
Proof.
  destruct (on_map_click_trace p st) as (es & _ & _ & M & _ & _ & _ & _ & P & N & _).
  auto.
Qed.

Lemma on_settled_pending ts click o st :
  pending (on_settled ts click o st) = delete click (pending st)
  ∧ currentMode (on_settled ts click o st) = currentMode st.
Proof.
  destruct (on_settled_trace ts click o st) as (es & _ & _ & _ & P & _ & M & _).
  auto.
Qed.

Lemma label_not_coordinate m m' a b k :
  label_field m k = true → coordinate_field m' a b k = None.
Proof.
  intros Hk. destruct (coordinate_field m' a b k) as [v|] eqn:E; [|reflexivity].
  rewrite (coordinate_not_label _ m _ _ _ _ E) in Hk. discriminate Hk.
Qed.

Lemma on_settled_label ts click o st p k :
  pending st !! click = Some p →
  fields (on_settled ts click o st) !! k
  = if label_field (currentMode st) k
    then (λ _, resolved_label ts o (lat p) (lng p)) <$> (fields st !! k)
    else fields st !! k.
Proof.
  intros Hp. rewrite (on_settled_resolved ts click o st p Hp).
  rewrite label_callback_lookup. reflexivity.
Qed.

(** X12: lookups are neither cancelled nor numbered against later
    clicks.  After two map clicks in one mode, when the reply to the
    second arrives before the reply to the first, the place-name fields of
    that mode end up with the label of the first click, while the hidden
    coordinate fields hold the second click's point. *)
Theorem late_label_overwrites (ts : Q → string) (st : state) (a b : LatLng)
    (oa ob : fetch_outcome) :
  let n := clicks st in
  let st' := run ts st [MapClick a; MapClick b; Settled (S n) ob; Settled n oa] in
  (∀ k, label_field (currentMode st) k = true → is_Some (fields st !! k) →
        fields st' !! k = Some (resolved_label ts oa (lat a) (lng a)))
  ∧ (∀ k v, coordinate_field (currentMode st) (lat b) (lng b) k = Some v →
            is_Some (fields st !! k) →
            fields st' !! k = Some v).
Proof.
  cbv zeta. cbn [run foldl step].
  set (s1 := on_map_click a st).
  set (s2 := on_map_click b s1).
  set (s3 := on_settled ts (S (clicks st)) ob s2).
  destruct (on_map_click_pending a st) as (P1 & N1 & M1). fold s1 in P1, N1, M1.
  destruct (on_map_click_pending b s1) as (P2 & N2 & M2). fold s2 in P2, N2, M2.
  destruct (on_settled_pending ts (S (clicks st)) ob s2) as (P3 & M3).
  fold s3 in P3, M3.
  assert (Hb : pending s2 !! S (clicks st) = Some b).
  { rewrite P2, N1. apply lookup_insert_eq. }
  assert (Ha : pending s3 !! clicks st = Some a).
  { rewrite P3, lookup_delete_ne by lia. rewrite P2, N1.
    rewrite lookup_insert_ne by lia. rewrite P1. apply lookup_insert_eq. }
  assert (Hm3 : currentMode s3 = currentMode st) by congruence.
  assert (Hm2 : currentMode s2 = currentMode st) by congruence.
  split.
  - intros k Hk Hs.
    rewrite (on_settled_label ts _ oa s3 a k Ha), Hm3, Hk.
    apply fmap_const_Some.
    subst s3. rewrite (on_settled_label ts _ ob s2 b k Hb), Hm2, Hk.
    apply fmap_const_is_Some.
    subst s2 s1. rewrite !on_map_click_lookup.
    rewrite !(label_not_coordinate (currentMode st)) by exact Hk.
    exact Hs.
  - intros k v Hk Hs.
    pose proof (coordinate_not_label _ (currentMode st) _ _ _ _ Hk) as Hl.
    rewrite (on_settled_label ts _ oa s3 a k Ha), Hm3, Hl.
    subst s3. rewrite (on_settled_label ts _ ob s2 b k Hb), Hm2, Hl.
    subst s2. rewrite on_map_click_lookup, M1, Hk.
    apply fmap_const_Some.
    subst s1. rewrite on_map_click_lookup.
    destruct (coordinate_field (currentMode st) (lat a) (lng a) k);
      [apply fmap_const_is_Some|]; exact Hs.
Qed.

Lemma late_label_overwrites_witness :
  fields (run (λ _, ""%string) (startup (page_with [] [] form_fields))
            [MapClick (latLng 1 2); MapClick (latLng 3 4);
             Settled 1 (village_reply "B"); Settled 0 (village_reply "A")])
    !! "offer-from"%string
  = Some (Some (JStr "A"))
  ∧ fields (run (λ _, ""%string) (startup (page_with [] [] form_fields))
              [MapClick (latLng 1 2); MapClick (latLng 3 4);
               Settled 1 (village_reply "B"); Settled 0 (village_reply "A")])
      !! "offer_from_lat"%string
    = Some (number 3).
Proof.
  destruct (late_label_overwrites (λ _, ""%string)
              (startup (page_with [] [] form_fields))
              (latLng 1 2) (latLng 3 4)
              (village_reply "A") (village_reply "B")) as [Hl Hc].
  split.
  - apply (Hl "offer-from"%string); [reflexivity|eexists; reflexivity].
  - apply (Hc "offer_from_lat"%string (number 3));
      [reflexivity|eexists; reflexivity].
Defined.

(** * Properties of the page script *)

Example main_load_default :
  Main.shows (snd (Main.load (Main.page (Main.plain ["theme-dark"] None) []
                                None None ""))) = (false, true).
Proof. reflexivity. Qed.

(** ** Elements and their class lists *)

Lemma main_get_update n m f st :
  Main.get n (Main.update m f st)
  = if decide (n = m) then f <$> Main.get n st else Main.get n st.
Proof.
  destruct n as [|i], m as [|j]; simpl; try reflexivity.
  destruct (decide (Main.Node i = Main.Node j)) as [E|Hne].
  - injection E as ->. apply list_lookup_alter_eq.
  - apply list_lookup_alter_ne. congruence.
Qed.

Lemma main_remove_idem T e :
  Main.classList_remove T (Main.classList_remove T e) = Main.classList_remove T e.
Proof.
  unfold Main.classList_remove. simpl. f_equal.
  apply set_eq. intros x. rewrite !elem_of_difference. tauto.
Qed.

Lemma main_get_foldl_remove T ns : ∀ st n,
  Main.get n (foldl (λ s b, Main.update b (Main.classList_remove T) s) st ns)
  = (λ e, if bool_decide (n ∈ ns) then Main.classList_remove T e else e)
      <$> Main.get n st.
Proof.
  induction ns as [|b ns IH]; intros st n; simpl.
  - destruct (Main.get n st); reflexivity.
  - rewrite IH, main_get_update.
    destruct (decide (n = b)) as [->|Hne].
    + rewrite (bool_decide_true (b ∈ b :: ns)) by apply list_elem_of_here.
      destruct (Main.get b st) as [e|]; simpl; [|reflexivity].
      destruct (bool_decide (b ∈ ns)); [rewrite main_remove_idem|]; reflexivity.
    + destruct (Main.get n st) as [e|]; simpl; [|reflexivity].
      destruct (decide (n ∈ ns)) as [Hin|Hout].
      * rewrite !bool_decide_true; [reflexivity| |exact Hin].
        apply elem_of_cons. auto.
      * rewrite !bool_decide_false; [reflexivity| |exact Hout].
        intros [?|?]%elem_of_cons; contradiction.
Qed.

(** ** Theme toggle *)

Lemma main_applied_classes theme (C : gset string) c :
  c ∈ ({[theme]} ∪ (C ∖ {["theme-light"%string; "theme-dark"%string]}) : gset string)
  ↔ c = theme ∨ (c ∈ C ∧ c ≠ "theme-light"%string ∧ c ≠ "theme-dark"%string).
Proof.
  rewrite elem_of_union, elem_of_singleton, elem_of_difference.
  rewrite elem_of_union, !elem_of_singleton. tauto.
Qed.

Lemma main_applyTheme_body theme st :
  Main.token_ok theme = true →
  fst (Main.applyTheme theme st) = Main.Normal
  ∧ ∀ c, c ∈ Main.classList (Main.body (snd (Main.applyTheme theme st)))
         ↔ c = theme ∨ (c ∈ Main.classList (Main.body st)
                        ∧ c ≠ "theme-light"%string ∧ c ≠ "theme-dark"%string).
Proof.
  intros Hok. unfold Main.applyTheme. rewrite Hok.
  split; [reflexivity|]. intros c. simpl.
  destruct (Main.theme_toggle st) as [[|i]|]; simpl; apply main_applied_classes.
Qed.

Lemma main_applyTheme_text theme st btn e :
  Main.token_ok theme = true →
  Main.theme_toggle st = Some btn →
  Main.get btn (snd (Main.applyTheme theme st)) = Some e →
  Main.textContent e = button_text theme.
Proof.
  intros Hok Hb. unfold Main.applyTheme. rewrite Hok. simpl. rewrite Hb.
  rewrite main_get_update. destruct (decide (btn = btn)); [|congruence].
  destruct (Main.get btn _) as [x|]; simpl; intros H; inversion H. reflexivity.
Qed.

Lemma main_applyTheme_frame theme st :
  let st' := snd (Main.applyTheme theme st) in
  Main.villageTheme st' = Main.villageTheme st
  ∧ Main.hash st' = Main.hash st
  ∧ Main.toggle_listens st' = Main.toggle_listens st
  ∧ Main.tabLinks st' = Main.tabLinks st
  ∧ Main.tabPanels st' = Main.tabPanels st
  ∧ Main.theme_toggle st' = Main.theme_toggle st.
Proof.
  unfold Main.applyTheme. destruct (Main.token_ok theme); simpl; [|auto 10].
  destruct (Main.theme_toggle st) as [[|i]|]; simpl; rewrite ?H; auto 10.
Qed.

Lemma main_applyTheme_normal t st :
  Main.token_ok t = true →
  Main.applyTheme t st = (Main.Normal, snd (Main.applyTheme t st)).
Proof.
  intros Hok. destruct (main_applyTheme_body t st Hok) as [Hc _].
  destruct (Main.applyTheme t st) as [c st1]. simpl in *. subst c. reflexivity.
Qed.

Lemma main_on_toggle_themed st :
  Main.toggle_listens st = true →
  Main.on_toggle st = (Main.Normal, themed (next_theme st) st).
Proof.
  intros Hl. unfold Main.on_toggle, themed, next_theme. rewrite Hl. cbv zeta.
  destruct (Main.classList_contains "theme-dark" (Main.body st)).
  - rewrite bool_decide_true by reflexivity.
    rewrite (main_applyTheme_normal "theme-light" st eq_refl). reflexivity.
  - rewrite bool_decide_false by discriminate.
    rewrite (main_applyTheme_normal "theme-dark" st eq_refl). reflexivity.
Qed.

Lemma main_themed_contains t st c :
  Main.token_ok t = true →
  c ∈ Main.classList (Main.body (themed t st))
  ↔ c = t ∨ (c ∈ Main.classList (Main.body st)
             ∧ c ≠ "theme-light"%string ∧ c ≠ "theme-dark"%string).
Proof.
  intros Hok. unfold themed. simpl.
  apply (main_applyTheme_body t st Hok).
Qed.

Lemma main_themed_shows t st :
  is_theme t →
  Main.shows (themed t st)
  = (bool_decide (t = "theme-dark"%string), bool_decide (t = "theme-light"%string)).
Proof.
  intros Ht. unfold Main.shows, Main.classList_contains.
  assert (Hok : Main.token_ok t = true) by (destruct Ht as [->| ->]; reflexivity).
  f_equal; apply bool_decide_ext; rewrite main_themed_contains by exact Hok;
    destruct Ht as [-> | ->]; split; intros H; try congruence;
    try (destruct H as [H|(_ & H1 & H2)]; congruence); auto.
Qed.

(** X13: a click on the theme button leaves the body with exactly one
    of the two theme classes, light if it was dark and dark otherwise,
    whatever other classes it carried and keeps; the same class name is
    stored under villageTheme and the button text names that theme. *)
Theorem toggle_sets_and_stores (st : Main.state) :
  Main.toggle_listens st = true →
  let st' := snd (Main.on_toggle st) in
  fst (Main.on_toggle st) = Main.Normal
  ∧ Main.shows st'
    = (negb (Main.classList_contains "theme-dark" (Main.body st)),
       Main.classList_contains "theme-dark" (Main.body st))
  ∧ Main.villageTheme st' = Some (next_theme st)
  ∧ (∀ c, c ≠ "theme-light"%string → c ≠ "theme-dark"%string →
          (c ∈ Main.classList (Main.body st') ↔ c ∈ Main.classList (Main.body st)))
  ∧ (∀ btn e, Main.theme_toggle st = Some btn → Main.get btn st' = Some e →
              Main.textContent e = button_text (next_theme st)).
Proof.
  intros Hl. cbv zeta. rewrite (main_on_toggle_themed st Hl). cbn [fst snd].
  assert (Ht : is_theme (next_theme st)).
  { unfold next_theme, is_theme. destruct (Main.classList_contains _ _); auto. }
  assert (Hok : Main.token_ok (next_theme st) = true)
    by (destruct Ht as [E|E]; rewrite E; reflexivity).
  split; [reflexivity|]. split; [|split; [reflexivity|split]].
  - rewrite (main_themed_shows _ _ Ht). unfold next_theme.
    destruct (Main.classList_contains _ _); reflexivity.
  - intros c H1 H2. rewrite (main_themed_contains _ _ _ Hok).
    split; [intros [E|(H & _)]; [|exact H]|auto].
    destruct Ht as [E'|E']; congruence.
  - intros btn e Hb He. unfold themed in He.
    eapply main_applyTheme_text; [exact Hok|exact Hb|exact He].
Qed.

Lemma toggle_sets_and_stores_witness :
  Main.shows
    (snd (Main.on_toggle
            (snd (Main.load
                    (Main.page (Main.plain ["wide"%string] None)
                       [Main.plain [] None] (Some (Main.Node 0)) None "")))))
  = (true, false).
Proof.
  destruct (toggle_sets_and_stores
              (snd (Main.load
                      (Main.page (Main.plain ["wide"%string] None)
                         [Main.plain [] None] (Some (Main.Node 0)) None ""))))
    as (_ & H & _); [reflexivity|].
  exact H.
Defined.

Lemma main_element_eq e e' :
  (∀ c, c ∈ Main.classList e ↔ c ∈ Main.classList e') →
  Main.textContent e = Main.textContent e' →
  Main.data_tab_target e = Main.data_tab_target e' →
  e = e'.
Proof.
  destruct e as [C t d], e' as [C' t' d']; simpl. intros Hc -> ->.
  f_equal. apply set_eq. exact Hc.
Qed.

Lemma main_themed_absorbs t t' st :
  is_theme t → is_theme t' → themed t (themed t' st) = themed t st.
Proof.
  intros Ht Ht'.
  assert (Hadd : ∀ e,
            Main.classList_add t
              (Main.classList_remove {["theme-light"%string; "theme-dark"%string]}
                 (Main.classList_add t'
                    (Main.classList_remove
                       {["theme-light"%string; "theme-dark"%string]} e)))
            = Main.classList_add t
                (Main.classList_remove
                   {["theme-light"%string; "theme-dark"%string]} e)).
  { intros e. apply main_element_eq; try reflexivity. intros c. simpl.
    rewrite !main_applied_classes.
    destruct Ht' as [-> | ->]; tauto. }
  assert (Hadd' : ∀ x e,
            Main.classList_add t
              (Main.classList_remove {["theme-light"%string; "theme-dark"%string]}
                 (Main.set_textContent x
                    (Main.classList_add t'
                       (Main.classList_remove
                          {["theme-light"%string; "theme-dark"%string]} e))))
            = Main.set_textContent x
                (Main.classList_add t
                   (Main.classList_remove
                      {["theme-light"%string; "theme-dark"%string]} e))).
  { intros x e. apply main_element_eq; try reflexivity. intros c. simpl.
    rewrite !main_applied_classes.
    destruct Ht' as [-> | ->]; tauto. }
  unfold themed, Main.applyTheme.
  replace (Main.token_ok t) with true by (destruct Ht as [-> | ->]; reflexivity).
  replace (Main.token_ok t') with true by (destruct Ht' as [-> | ->]; reflexivity).
  destruct st as [b ns [[|i]|] v h l links panels]; simpl.
  - rewrite Hadd'. reflexivity.
  - rewrite Hadd, list_alter_alter_eq. reflexivity.
  - rewrite Hadd. reflexivity.
Qed.

Lemma main_next_theme_themed t st :
  is_theme t →
  next_theme (themed t st)
  = if bool_decide (t = "theme-dark"%string)
    then "theme-light"%string else "theme-dark"%string.
Proof.
  intros Ht. unfold next_theme.
  pose proof (f_equal fst (main_themed_shows t st Ht)) as H.
  unfold Main.shows in H. cbn [fst] in H. rewrite H. reflexivity.
Qed.

Lemma main_themed_listens t st :
  Main.toggle_listens (themed t st) = Main.toggle_listens st.
Proof.
  unfold themed. simpl. apply (main_applyTheme_frame t st).
Qed.

Lemma main_next_theme_is_theme st : is_theme (next_theme st).
Proof.
  unfold next_theme, is_theme. destruct (Main.classList_contains _ _); auto.
Qed.

(** X14: from any page the button has been clicked on, two more clicks
    bring back exactly the same page: the same classes on every element,
    the same button text and the same stored theme; and one click always
    changes the theme shown. *)
Theorem toggle_twice_restores (st : Main.state) :
  Main.toggle_listens st = true →
  let st1 := snd (Main.on_toggle st) in
  snd (Main.on_toggle (snd (Main.on_toggle st1))) = st1
  ∧ Main.shows (snd (Main.on_toggle st1)) ≠ Main.shows st1.
Proof.
  intros Hl. cbv zeta.
  pose proof (main_next_theme_is_theme st) as Ht.
  rewrite (main_on_toggle_themed st Hl). cbn [snd].
  set (t := next_theme st) in *.
  assert (Hl1 : Main.toggle_listens (themed t st) = true)
    by (rewrite main_themed_listens; exact Hl).
  rewrite (main_on_toggle_themed _ Hl1). cbn [snd].
  rewrite (main_next_theme_themed t st Ht).
  set (t' := if bool_decide (t = "theme-dark"%string)
             then "theme-light"%string else "theme-dark"%string).
  assert (Ht' : is_theme t').
  { subst t'. unfold is_theme. destruct (bool_decide _); auto. }
  assert (Hl2 : Main.toggle_listens (themed t' (themed t st)) = true)
    by (rewrite main_themed_listens; exact Hl1).
  rewrite (main_on_toggle_themed _ Hl2). cbn [snd].
  rewrite (main_next_theme_themed t' _ Ht').
  assert (Hback : (if bool_decide (t' = "theme-dark"%string)
                   then "theme-light"%string else "theme-dark"%string) = t).
  { subst t'. destruct Ht as [-> | ->]; reflexivity. }
  rewrite Hback. split.
  - rewrite (main_themed_absorbs t t' _ Ht Ht').
    apply (main_themed_absorbs t t st Ht Ht).
  - rewrite (main_themed_shows t' _ Ht'), (main_themed_shows t st Ht).
    subst t'. destruct Ht as [-> | ->]; discriminate.
Qed.

Lemma toggle_twice_restores_witness :
  Main.shows
    (snd (Main.on_toggle
            (snd (Main.on_toggle
                    (snd (Main.load
                            (Main.page (Main.plain [] None) [Main.plain [] None]
                               (Some (Main.Node 0)) None "")))))))
  ≠ Main.shows
      (snd (Main.on_toggle
              (snd (Main.load
                      (Main.page (Main.plain [] None) [Main.plain [] None]
                         (Some (Main.Node 0)) None ""))))).
Proof.
  apply (toggle_twice_restores
           (snd (Main.load
                   (Main.page (Main.plain [] None) [Main.plain [] None]
                      (Some (Main.Node 0)) None "")))).
  reflexivity.
Defined.

(** ** Loading the page *)

Lemma main_token_ok_nonempty t : Main.token_ok t = true → t ≠ ""%string.
Proof. intros H ->. discriminate H. Qed.

Lemma main_load_stored t pg :
  Main.token_ok t = true → Main.villageTheme pg = Some t →
  Main.load pg
  = (Main.Normal,
     Main.set_listeners
       (match Main.theme_toggle (snd (Main.applyTheme t pg)) with
        | Some _ => true | None => false end)
       (Main.with_class "tab-link" (snd (Main.applyTheme t pg)))
       (Main.with_class "tab-panel" (snd (Main.applyTheme t pg)))
       (snd (Main.applyTheme t pg))).
Proof.
  intros Hok Hs. unfold Main.load. rewrite Hs.
  rewrite bool_decide_false by (apply main_token_ok_nonempty; exact Hok).
  rewrite (main_applyTheme_normal t pg Hok). reflexivity.
Qed.

Lemma main_load_unset pg :
  Main.villageTheme pg = None ∨ Main.villageTheme pg = Some ""%string →
  Main.load pg
  = (Main.Normal,
     Main.set_listeners
       (match Main.theme_toggle (snd (Main.applyTheme "theme-light" pg)) with
        | Some _ => true | None => false end)
       (Main.with_class "tab-link" (snd (Main.applyTheme "theme-light" pg)))
       (Main.with_class "tab-panel" (snd (Main.applyTheme "theme-light" pg)))
       (snd (Main.applyTheme "theme-light" pg))).
Proof.
  intros [Hs|Hs]; unfold Main.load; rewrite Hs;
    rewrite ?bool_decide_true by reflexivity;
    rewrite (main_applyTheme_normal "theme-light" pg eq_refl); reflexivity.
Qed.

Lemma main_shows_applied t pg :
  is_theme t →
  Main.shows (snd (Main.applyTheme t pg))
  = (bool_decide (t = "theme-dark"%string), bool_decide (t = "theme-light"%string)).
Proof. intros Ht. apply (main_themed_shows t pg Ht). Qed.

(** X15: the theme a click leaves is the theme the next page load
    shows.  A page that loads with the value the click stored ends its
    load normally showing the same theme class, with the button text of
    that theme, whatever classes the page markup gave the body. *)
Theorem theme_survives_reload (st pg : Main.state) :
  Main.toggle_listens st = true →
  Main.villageTheme pg = Main.villageTheme (snd (Main.on_toggle st)) →
  fst (Main.load pg) = Main.Normal
  ∧ Main.shows (snd (Main.load pg)) = Main.shows (snd (Main.on_toggle st))
  ∧ (∀ btn e, Main.theme_toggle pg = Some btn →
              Main.get btn (snd (Main.load pg)) = Some e →
              Main.textContent e = button_text (next_theme st)).
Proof.
  intros Hl Hs. rewrite (main_on_toggle_themed st Hl) in Hs |- *.
  cbn [snd] in *.
  pose proof (main_next_theme_is_theme st) as Ht.
  set (t := next_theme st) in *.
  assert (Hok : Main.token_ok t = true) by (destruct Ht as [E|E]; rewrite E; reflexivity).
  change (Main.villageTheme (themed t st)) with (Some t) in Hs.
  rewrite (main_load_stored t pg Hok Hs). cbn [fst snd].
  split; [reflexivity|]. split.
  - rewrite (main_themed_shows t st Ht). apply (main_shows_applied t pg Ht).
  - intros btn e Hb He.
    eapply (main_applyTheme_text t pg btn e Hok Hb).
    destruct btn; exact He.
Qed.

Lemma theme_survives_reload_witness :
  Main.shows
    (snd (Main.load (Main.page (Main.plain ["theme-light"%string] None) []
                       None (Some "theme-dark"%string) "")))
  = Main.shows
      (snd (Main.on_toggle
              (snd (Main.load (Main.page (Main.plain [] None) [Main.plain [] None]
                                 (Some (Main.Node 0)) None ""))))).
Proof.
  apply (theme_survives_reload
           (snd (Main.load (Main.page (Main.plain [] None) [Main.plain [] None]
                              (Some (Main.Node 0)) None "")))
           (Main.page (Main.plain ["theme-light"%string] None) []
              None (Some "theme-dark"%string) ""));
    reflexivity.
Defined.

(** X16: with nothing stored, or the empty string stored, the load
    ends normally with the light theme on the body, whatever the markup
    had; nothing is written to the store, and the button gets its
    listener exactly when the page has the button. *)
Theorem load_defaults_to_light (pg : Main.state) :
  Main.villageTheme pg = None ∨ Main.villageTheme pg = Some ""%string →
  fst (Main.load pg) = Main.Normal
  ∧ Main.shows (snd (Main.load pg)) = (false, true)
  ∧ Main.villageTheme (snd (Main.load pg)) = Main.villageTheme pg
  ∧ Main.toggle_listens (snd (Main.load pg))
    = bool_decide (is_Some (Main.theme_toggle pg)).
Proof.
  intros Hs. rewrite (main_load_unset pg Hs). cbn [fst snd].
  destruct (main_applyTheme_frame "theme-light" pg) as (V & _ & _ & _ & _ & T).
  split; [reflexivity|]. split; [|split].
  - apply (main_shows_applied "theme-light" pg). left. reflexivity.
  - exact V.
  - cbn [Main.toggle_listens Main.set_listeners]. rewrite T.
    destruct (Main.theme_toggle pg); reflexivity.
Qed.

Lemma load_defaults_to_light_witness :
  Main.shows
    (snd (Main.load (Main.page (Main.plain ["theme-dark"%string] None) []
                       None (Some ""%string) "")))
  = (false, true).
Proof.
  apply (load_defaults_to_light
           (Main.page (Main.plain ["theme-dark"%string] None) []
              None (Some ""%string) "")).
  right. reflexivity.
Defined.

Lemma main_dead_run q evs : ∀ st,
  Main.toggle_listens st = false → Main.tabLinks st = [] →
  Main.run q st evs = st.
Proof.
  induction evs as [|ev evs IH]; intros st Hl Ht; [reflexivity|].
  simpl. assert (E : Main.step q st ev = st).
  { destruct ev as [|link]; simpl.
    - unfold Main.on_toggle. rewrite Hl. reflexivity.
    - unfold Main.on_tab. rewrite Ht. reflexivity. }
  rewrite E. apply IH; assumption.
Qed.

(** X17: a stored value that is not empty and holds a space, tab or
    line break makes the load end in an exception once the two theme
    classes are off the body: the body then shows neither theme, and
    since neither the button nor any tab link got its listener, no later
    click changes anything. *)
Theorem stored_whitespace_stops_load (q : Main.state → option string → Main.selection)
    (b : Main.element) (ns : list Main.element) (btn : option Main.node)
    (s h : string) (evs : list Main.event) :
  s ≠ ""%string → Main.has_whitespace s = true →
  let pg := Main.page b ns btn (Some s) h in
  fst (Main.load pg) = Main.Abrupt
  ∧ Main.shows (snd (Main.load pg)) = (false, false)
  ∧ Main.run q (snd (Main.load pg)) evs = snd (Main.load pg).
Proof.
  intros Hne Hw. cbv zeta.
  assert (Hbad : Main.token_ok s = false).
  { unfold Main.token_ok. rewrite Hw. apply andb_false_r. }
  assert (E : Main.load (Main.page b ns btn (Some s) h)
              = (Main.Abrupt,
                 Main.update Main.Body
                   (Main.classList_remove
                      {["theme-light"%string; "theme-dark"%string]})
                   (Main.page b ns btn (Some s) h))).
  { unfold Main.load. cbn [Main.villageTheme Main.page].
    rewrite bool_decide_false by exact Hne.
    unfold Main.applyTheme. rewrite Hbad. reflexivity. }
  rewrite E. cbn [fst snd]. split; [reflexivity|]. split.
  - unfold Main.shows, Main.classList_contains. simpl.
    f_equal; apply bool_decide_false; rewrite elem_of_difference,
      elem_of_union, !elem_of_singleton; tauto.
  - apply main_dead_run; reflexivity.
Qed.

Lemma stored_whitespace_stops_load_witness :
  fst (Main.load (Main.page (Main.plain ["theme-dark"%string] None)
                    [Main.plain ["tab-link"%string] (Some "#requests-tab"%string)]
                    None (Some "theme dark"%string) ""))
  = Main.Abrupt.
Proof.
  apply (stored_whitespace_stops_load (λ _ _, Main.NoMatch)
           (Main.plain ["theme-dark"%string] None)
           [Main.plain ["tab-link"%string] (Some "#requests-tab"%string)]
           None "theme dark"%string ""%string []); [discriminate|reflexivity].
Defined.

(** ** Tabs *)

Lemma main_get_set_hash n h st : Main.get n (Main.set_hash h st) = Main.get n st.
Proof. destruct n; reflexivity. Qed.

Lemma main_on_tab_classes q st link :
  link ∈ Main.tabLinks st →
  ∃ sel,
    (fst (Main.on_tab q link st) = Main.Abrupt ↔ sel = Main.BadSelector)
    ∧ ∀ n e', Main.get n (snd (Main.on_tab q link st)) = Some e' →
        ∃ e, Main.get n st = Some e
          ∧ Main.textContent e' = Main.textContent e
          ∧ ∀ c, c ∈ Main.classList e'
                 ↔ (c = "tab-panel-active"%string ∧ sel = Main.Found n)
                   ∨ (c = "tab-active"%string ∧ n = link)
                   ∨ (c ∈ Main.classList e
                      ∧ ¬ (c = "tab-active"%string ∧ n ∈ Main.tabLinks st)
                      ∧ ¬ (c = "tab-panel-active"%string ∧ n ∈ Main.tabPanels st)).
Proof.
  intros Hin. unfold Main.on_tab. rewrite bool_decide_true by exact Hin.
  cbv zeta.
  set (target := default None (Main.data_tab_target <$> Main.get link st)).
  set (st1 := foldl _ st (Main.tabLinks st)).
  set (st2 := foldl _ st1 (Main.tabPanels st)).
  set (st3 := Main.update link _ st2).
  assert (H3 : ∀ n e3, Main.get n st3 = Some e3 →
            ∃ e, Main.get n st = Some e
              ∧ Main.textContent e3 = Main.textContent e
              ∧ ∀ c, c ∈ Main.classList e3
                     ↔ (c = "tab-active"%string ∧ n = link)
                       ∨ (c ∈ Main.classList e
                          ∧ ¬ (c = "tab-active"%string ∧ n ∈ Main.tabLinks st)
                          ∧ ¬ (c = "tab-panel-active"%string
                               ∧ n ∈ Main.tabPanels st))).
  { intros n e3. subst st3 st2 st1.
    rewrite main_get_update, !main_get_foldl_remove.
    destruct (Main.get n st) as [e|]; simpl;
      [|destruct (decide (n = link)); discriminate].
    intros He3. exists e. split; [reflexivity|].
    destruct (decide (n = link)) as [->|Hne]; simpl in He3;
      injection He3 as <-;
      destruct (bool_decide_reflect (link ∈ Main.tabLinks st));
      destruct (bool_decide_reflect (link ∈ Main.tabPanels st));
      try destruct (bool_decide_reflect (n ∈ Main.tabLinks st));
      try destruct (bool_decide_reflect (n ∈ Main.tabPanels st));
      simpl; (split; [reflexivity|]); intros c;
      rewrite ?elem_of_union, ?elem_of_difference, ?elem_of_singleton;
      try tauto;
      destruct (decide (c = "tab-active"%string)) as [->|?];
      destruct (decide (c = "tab-panel-active"%string)) as [?|?];
      try discriminate; tauto. }
  destruct (q st3 target) as [panel| |] eqn:Hsel.
  - exists (Main.Found panel). split; [split; discriminate|].
    intros n e'. cbn [snd]. rewrite main_get_set_hash, main_get_update.
    destruct (decide (n = panel)) as [->|Hne].
    + destruct (Main.get panel st3) as [e3|] eqn:E3; [|discriminate].
      simpl. intros He'. injection He' as <-.
      destruct (H3 panel e3 E3) as (e & He & Ht & Hc).
      exists e. split; [exact He|]. split; [exact Ht|].
      intros c. simpl. rewrite elem_of_union, elem_of_singleton, Hc.
      destruct (decide (c = "tab-panel-active"%string)) as [->|?]; [|tauto].
      split; [auto|]. intros _. left. reflexivity.
    + intros He'. destruct (H3 n e' He') as (e & He & Ht & Hc).
      exists e. split; [exact He|]. split; [exact Ht|].
      intros c. rewrite Hc. split; [tauto|].
      intros [[_ E]|H]; [congruence|tauto].
  - exists Main.NoMatch. split; [split; discriminate|].
    intros n e'. cbn [snd]. rewrite main_get_set_hash.
    intros He'. destruct (H3 n e' He') as (e & He & Ht & Hc).
    exists e. split; [exact He|]. split; [exact Ht|].
    intros c. rewrite Hc. split; [tauto|].
    intros [[_ E]|H]; [discriminate E|tauto].
  - exists Main.BadSelector. split; [split; reflexivity|].
    intros n e'. cbn [snd].
    intros He'. destruct (H3 n e' He') as (e & He & Ht & Hc).
    exists e. split; [exact He|]. split; [exact Ht|].
    intros c. rewrite Hc. split; [tauto|].
    intros [[_ E]|H]; [discriminate E|tauto].
Qed.

(** Fields of the page that no class or text change touches. *)
Lemma main_update_frame n f st :
  Main.villageTheme (Main.update n f st) = Main.villageTheme st
  ∧ Main.hash (Main.update n f st) = Main.hash st
  ∧ Main.tabLinks (Main.update n f st) = Main.tabLinks st
  ∧ Main.tabPanels (Main.update n f st) = Main.tabPanels st
  ∧ Main.toggle_listens (Main.update n f st) = Main.toggle_listens st.
Proof. destruct n; simpl; auto. Qed.

Lemma main_foldl_update_frame f ns : ∀ st,
  Main.villageTheme (foldl (λ s b, Main.update b f s) st ns) = Main.villageTheme st
  ∧ Main.hash (foldl (λ s b, Main.update b f s) st ns) = Main.hash st
  ∧ Main.tabLinks (foldl (λ s b, Main.update b f s) st ns) = Main.tabLinks st
  ∧ Main.tabPanels (foldl (λ s b, Main.update b f s) st ns) = Main.tabPanels st
  ∧ Main.toggle_listens (foldl (λ s b, Main.update b f s) st ns)
    = Main.toggle_listens st.
Proof.
  induction ns as [|b ns IH]; intros st; simpl; [auto|].
  destruct (IH (Main.update b f st)) as (A & B & C & D & E).
  destruct (main_update_frame b f st) as (A' & B' & C' & D' & E').
  rewrite A, B, C, D, E. auto.
Qed.

Lemma main_on_tab_frame q st link :
  let st' := snd (Main.on_tab q link st) in
  Main.villageTheme st' = Main.villageTheme st
  ∧ Main.tabLinks st' = Main.tabLinks st
  ∧ Main.tabPanels st' = Main.tabPanels st
  ∧ Main.toggle_listens st' = Main.toggle_listens st
  ∧ (fst (Main.on_tab q link st) = Main.Abrupt → Main.hash st' = Main.hash st)
  ∧ (link ∈ Main.tabLinks st → fst (Main.on_tab q link st) = Main.Normal →
     Main.hash st'
     = if bool_decide (default None (Main.data_tab_target <$> Main.get link st)
                       = Some "#requests-tab"%string)
       then "#requests-tab"%string else "#rides-tab"%string).
Proof.
  cbv zeta. unfold Main.on_tab.
  destruct (bool_decide_reflect (link ∈ Main.tabLinks st)) as [Hin|Hout];
    [|cbn [fst snd]; repeat split; auto; try discriminate; contradiction].
  cbv zeta.
  set (target := default None (Main.data_tab_target <$> Main.get link st)).
  set (st1 := foldl _ st (Main.tabLinks st)).
  set (st2 := foldl _ st1 (Main.tabPanels st)).
  set (st3 := Main.update link _ st2).
  assert (F3 : Main.villageTheme st3 = Main.villageTheme st
               ∧ Main.hash st3 = Main.hash st
               ∧ Main.tabLinks st3 = Main.tabLinks st
               ∧ Main.tabPanels st3 = Main.tabPanels st
               ∧ Main.toggle_listens st3 = Main.toggle_listens st).
  { subst st3 st2 st1.
    match goal with
    | |- context [Main.update link ?f ?s] =>
        destruct (main_update_frame link f s) as (A & B & C & D & E)
    end.
    rewrite A, B, C, D, E.
    match goal with
    | |- context [foldl (λ s b, Main.update b ?f s) ?s0 (Main.tabPanels st)] =>
        destruct (main_foldl_update_frame f (Main.tabPanels st) s0)
          as (A2 & B2 & C2 & D2 & E2)
    end.
    rewrite A2, B2, C2, D2, E2.
    apply main_foldl_update_frame. }
  destruct F3 as (A & B & C & D & E).
  destruct (q st3 target) as [panel| |]; cbn [fst snd].
  - destruct (main_update_frame panel (Main.classList_add "tab-panel-active") st3)
      as (A' & B' & C' & D' & E').
    cbn [Main.villageTheme Main.tabLinks Main.tabPanels Main.toggle_listens
         Main.hash Main.set_hash].
    rewrite A', C', D', E', A, C, D, E.
    repeat split; auto; discriminate.
  - cbn [Main.villageTheme Main.tabLinks Main.tabPanels Main.toggle_listens
         Main.hash Main.set_hash].
    repeat split; auto; discriminate.
  - repeat split; auto; discriminate.
Qed.

(** X18: when the listener of a tab link has run, that link carries
    tab-active and no other tab link does; at most one tab panel carries
    tab-panel-active, the one the link's target selected; and the location
    hash is the requests tab when the target is "#requests-tab" and the
    rides tab for any other target.  When the target is not a valid
    selector the listener stops after marking the link: no panel is active
    and the hash stays. *)
Theorem tab_click_exclusive (q : Main.state → option string → Main.selection)
    (st : Main.state) (link : Main.node) :
  link ∈ Main.tabLinks st →
  let st' := snd (Main.on_tab q link st) in
  (∀ n e, n ∈ Main.tabLinks st → Main.get n st' = Some e →
          ("tab-active"%string ∈ Main.classList e ↔ n = link))
  ∧ (∀ n n' e e', n ∈ Main.tabPanels st → n' ∈ Main.tabPanels st →
        Main.get n st' = Some e → Main.get n' st' = Some e' →
        "tab-panel-active"%string ∈ Main.classList e →
        "tab-panel-active"%string ∈ Main.classList e' → n = n')
  ∧ (fst (Main.on_tab q link st) = Main.Normal →
     Main.hash st'
     = if bool_decide (default None (Main.data_tab_target <$> Main.get link st)
                       = Some "#requests-tab"%string)
       then "#requests-tab"%string else "#rides-tab"%string)
  ∧ (fst (Main.on_tab q link st) = Main.Abrupt →
     Main.hash st' = Main.hash st
     ∧ ∀ n e, n ∈ Main.tabPanels st → Main.get n st' = Some e →
              "tab-panel-active"%string ∉ Main.classList e).
Proof.
  intros Hin. cbv zeta.
  destruct (main_on_tab_classes q st link Hin) as (sel & Hsel & Hget).
  destruct (main_on_tab_frame q st link) as (_ & _ & _ & _ & Hab & Hno).
  split; [|split; [|split; [exact (Hno Hin)|]]].
  - intros n e Hn He. destruct (Hget n e He) as (e0 & _ & _ & Hc).
    rewrite Hc. split.
    + intros [[E _]|[[_ E]|(_ & H & _)]]; [discriminate E|exact E|].
      exfalso. apply H. auto.
    + intros ->. right. left. auto.
  - intros n n' e e' Hn Hn' He He' Ha Ha'.
    destruct (Hget n e He) as (e0 & _ & _ & Hc).
    destruct (Hget n' e' He') as (e0' & _ & _ & Hc').
    apply Hc in Ha. apply Hc' in Ha'.
    destruct Ha as [[_ E]|[[E _]|(_ & _ & H)]];
      [|discriminate E|exfalso; apply H; auto].
    destruct Ha' as [[_ E']|[[E' _]|(_ & _ & H')]];
      [|discriminate E'|exfalso; apply H'; auto].
    congruence.
  - intros Hc. split; [exact (Hab Hc)|].
    apply Hsel in Hc. intros n e Hn He Ha.
    destruct (Hget n e He) as (e0 & _ & _ & Hcl).
    apply Hcl in Ha.
    destruct Ha as [[_ E]|[[E _]|(_ & _ & H)]];
      [congruence|discriminate E|apply H; auto].
Qed.

Lemma tab_click_exclusive_witness :
  Main.hash
    (snd (Main.on_tab (λ _ _, Main.Found (Main.Node 2)) (Main.Node 1)
            (snd (Main.load
                    (Main.page (Main.plain [] None)
                       [Main.plain ["tab-link"; "tab-active"]%string (Some "#rides-tab"%string);
                        Main.plain ["tab-link"]%string (Some "#requests-tab"%string);
                        Main.plain ["tab-panel"]%string None]
                       None None "")))))
  = "#requests-tab"%string.
Proof.
  apply (tab_click_exclusive (λ _ _, Main.Found (Main.Node 2)) 
           (snd (Main.load
                   (Main.page (Main.plain [] None)
                      [Main.plain ["tab-link"; "tab-active"]%string (Some "#rides-tab"%string);
                       Main.plain ["tab-link"]%string (Some "#requests-tab"%string);
                       Main.plain ["tab-panel"]%string None]
                      None None "")))
           (Main.Node 1)).
  - change (Main.Node 1 ∈ [Main.Node 0; Main.Node 1]).
    apply elem_of_cons. right. apply elem_of_cons. left. reflexivity.
  - reflexivity.
Defined.

(** ** Theme and tabs keep apart *)

Lemma main_applyTheme_get t st n e' :
  is_theme t →
  Main.get n (snd (Main.applyTheme t st)) = Some e' →
  ∃ e, Main.get n st = Some e
    ∧ Main.data_tab_target e' = Main.data_tab_target e
    ∧ ∀ c, c ≠ "theme-light"%string → c ≠ "theme-dark"%string →
           (c ∈ Main.classList e' ↔ c ∈ Main.classList e).
Proof.
  intros Ht. unfold Main.applyTheme.
  replace (Main.token_ok t) with true by (destruct Ht as [-> | ->]; reflexivity).
  cbn [snd].
  set (st2 := Main.update Main.Body (Main.classList_add t) _).
  assert (H2 : ∀ e2, Main.get n st2 = Some e2 →
            ∃ e, Main.get n st = Some e
              ∧ Main.data_tab_target e2 = Main.data_tab_target e
              ∧ ∀ c, c ≠ "theme-light"%string → c ≠ "theme-dark"%string →
                     (c ∈ Main.classList e2 ↔ c ∈ Main.classList e)).
  { intros e2. subst st2. rewrite !main_get_update.
    destruct (decide (n = Main.Body)) as [->|Hne]; simpl.
    - intros H. injection H as <-. exists (Main.body st).
      split; [reflexivity|]. split; [reflexivity|].
      intros c H1 H2. simpl. rewrite main_applied_classes.
      split; [intros [E|(H & _)]; [|exact H]|auto].
      destruct Ht as [E'|E']; congruence.
    - intros H. exists e2. split; [exact H|]. split; [reflexivity|]. tauto. }
  replace (Main.theme_toggle st2) with (Main.theme_toggle st) by reflexivity.
  destruct (Main.theme_toggle st) as [btn|]; [|apply H2].
  rewrite main_get_update. destruct (decide (n = btn)) as [->|Hne]; [|apply H2].
  destruct (Main.get btn st2) as [e2|] eqn:E2; [|discriminate].
  simpl. intros H. injection H as <-. apply (H2 e2 eq_refl).
Qed.

(** X19: the theme and the tabs do not touch each other's state.  A tab
    listener leaves the theme shown, the stored theme and every text as
    they were; the theme button's listener leaves the hash, the tab links
    and panels, every data-tab-target and every class other than the two
    theme classes as they were. *)
Theorem theme_and_tabs_apart (q : Main.state → option string → Main.selection)
    (st : Main.state) (link : Main.node) :
  (Main.shows (snd (Main.on_tab q link st)) = Main.shows st
   ∧ Main.villageTheme (snd (Main.on_tab q link st)) = Main.villageTheme st
   ∧ ∀ n e', Main.get n (snd (Main.on_tab q link st)) = Some e' →
             ∃ e, Main.get n st = Some e
                  ∧ Main.textContent e' = Main.textContent e)
  ∧ (Main.hash (snd (Main.on_toggle st)) = Main.hash st
     ∧ Main.tabLinks (snd (Main.on_toggle st)) = Main.tabLinks st
     ∧ Main.tabPanels (snd (Main.on_toggle st)) = Main.tabPanels st
     ∧ ∀ n e', Main.get n (snd (Main.on_toggle st)) = Some e' →
               ∃ e, Main.get n st = Some e
                    ∧ Main.data_tab_target e' = Main.data_tab_target e
                    ∧ ∀ c, c ≠ "theme-light"%string → c ≠ "theme-dark"%string →
                           (c ∈ Main.classList e' ↔ c ∈ Main.classList e)).
Proof.
  split.
  - destruct (main_on_tab_frame q st link) as (V & _).
    split; [|split; [exact V|]].
    + destruct (decide (link ∈ Main.tabLinks st)) as [Hin|Hout].
      * destruct (main_on_tab_classes q st link Hin) as (sel & _ & Hget).
        destruct (Hget Main.Body _ eq_refl) as (e & He & _ & Hc).
        injection He as <-.
        unfold Main.shows, Main.classList_contains.
        f_equal; apply bool_decide_ext; rewrite Hc;
          (split; [intros [[E _]|[[E _]|(H & _)]];
                   [discriminate E|discriminate E|exact H]|]);
          intros H; right; right; (split; [exact H|]);
          split; intros [E _]; discriminate E.
      * unfold Main.on_tab. rewrite bool_decide_false by exact Hout. reflexivity.
    + intros n e' He'.
      destruct (decide (link ∈ Main.tabLinks st)) as [Hin|Hout].
      * destruct (main_on_tab_classes q st link Hin) as (sel & _ & Hget).
        destruct (Hget n e' He') as (e & He & Ht & _). eauto.
      * unfold Main.on_tab in He'. rewrite bool_decide_false in He' by exact Hout.
        eauto.
  - destruct (Main.toggle_listens st) eqn:Hl.
    + rewrite (main_on_toggle_themed st Hl). cbn [snd]. unfold themed.
      destruct (main_applyTheme_frame (next_theme st) st)
        as (_ & H & _ & L & P & _).
      cbn [Main.hash Main.tabLinks Main.tabPanels Main.set_villageTheme].
      split; [exact H|]. split; [exact L|]. split; [exact P|].
      intros n e' He'.
      apply (main_applyTheme_get (next_theme st) st n e'
               (main_next_theme_is_theme st)).
      destruct n; exact He'.
    + unfold Main.on_toggle. rewrite Hl. cbn [snd].
      repeat split; auto. intros n e' He'. exists e'. repeat split; auto.
Qed.

Lemma theme_and_tabs_apart_witness :
  ∃ e, Main.get (Main.Node 0)
         (Main.page (Main.plain [] None)
            [Main.plain ["tab-link"]%string (Some "#requests-tab"%string)]
            None None "") = Some e
       ∧ Main.textContent
           (Main.mkElement {["tab-link"%string]} "" (Some "#requests-tab"%string))
         = Main.textContent e.
Proof.
  destruct (theme_and_tabs_apart (λ _ _, Main.NoMatch)
              (Main.page (Main.plain [] None)
                 [Main.plain ["tab-link"]%string (Some "#requests-tab"%string)]
                 None None "")
              (Main.Node 0)) as [(_ & _ & H) _].
  apply (H (Main.Node 0)). reflexivity.
Defined.
